(** * Volatility and regime estimation pipeline: a shallow embedding

    The Python sources embedded here are

    - [garch_model.py]       ([fit_garch_models]),
    - [regime_switching.py]  ([fit_hmm_regimes]),
    - [diagnostics.py]       ([realized_volatility], [evaluate_forecasts]),
    - [data_loader.py]       ([download_asset], [compute_log_returns],
                              [load_data]),
    - [main.py]              (the order of the calls in [main]).

    Conventions.

    - A Python float is a real number; a missing value (NaN) of a pandas
      Series is [None], so a float Series is a list of
      (timestamp, [option R]) cells and [dropna] returns the cells that
      hold a value.  Rounding and overflow are not part of the model.
    - A Python exception is a value of [exn]; a function that may raise
      and that touches the file system or a library has type [M A]: it
      takes the world and returns an outcome together with the world in
      which it stopped.
    - The world records, in order, the calls made to the outside
      (directories created, figures and tables saved, model fits
      started) and the state of numpy's process-wide random generator.
    - The arch and statsmodels calls are an interface ([StatsLibs]); the
      code is verified for every implementation of it.  The scaler of
      sklearn and the EM engine of hmmlearn are not under the sources
      either; they are modelled from the specification.
    - Plotting is the figure it saves; a failure of the file system is
      not modelled. *)

From Stdlib Require Import Reals Lra Lia List String ZArith Bool DecimalString.
From Stdlib Require Import Sorted Permutation.
Import ListNotations.
Open Scope string_scope.
Open Scope list_scope.
Open Scope R_scope.

(** Concatenation of strings, as in an f-string. *)
Infix "+++" := String.append (right associativity, at level 60).

Set Implicit Arguments.

(** ** Outcomes and the monad of the pipeline *)

Inductive exn : Type :=
| ConvergenceError   (* an optimiser or EM ran out of its iteration budget *)
| NumericalError     (* non-finite likelihood, singular covariance *)
| DataError          (* input validation: length, non-finite values *)
| ConfigError        (* input validation: state count, selector, lag *)
| IndexError         (* Python: index out of range *)
| ValueError.        (* Python: raised by pandas, sklearn, statsmodels *)

Inductive result (A : Type) : Type :=
| Ok (a : A)
| Raise (e : exn).
Arguments Ok {A} a.
Arguments Raise {A} e.

Definition Timestamp := Z.
Definition Series (A : Type) := list (Timestamp * A).
Definition Features := list (R * R).

(** What a fit of the arch library may fail with. *)
Inductive fit_failure : Type := NotConverged | NonFinite.

Definition exn_of_failure (f : fit_failure) : exn :=
  match f with
  | NotConverged => ConvergenceError
  | NonFinite => NumericalError
  end.

Inductive Vol := GARCH | EGARCH.
Inductive Mean := Constant.
Inductive Dist := normal.

(** The keyword arguments of [arch_model]; [o] defaults to 0. *)
Record ArchSpec : Type := arch_model {
  vol : Vol; p : nat; o : nat; q : nat; mean : Mean; dist : Dist
}.

(** The part of arch's result object that the code reads. *)
Record ARCHModelResult : Type := {
  conditional_volatility : Series (option R);
  (* [forecast(horizon, reindex).variance.values] *)
  forecast_variance : nat -> bool -> list (list R);
  std_resid : Series (option R)
}.

Definition RandomState := Z.

Inductive event : Type :=
| Makedirs (path : string)
| ArchFit (spec : ArchSpec) (y : Series R)
| ScalerFit (X : Features)
| HmmFit (n_components : nat) (X : Features)
| Savefig (dir file : string)
| ToCsv (dir file : string).

Record World : Type := {
  np_random : RandomState;
  trace : list event
}.

Definition M (A : Type) : Type := World -> result A * World.

Definition ret {A} (a : A) : M A := fun w => (Ok a, w).

Definition raise {A} (e : exn) : M A := fun w => (Raise e, w).

Definition bind {A B} (m : M A) (k : A -> M B) : M B :=
  fun w =>
    match m w with
    | (Ok a, w') => k a w'
    | (Raise e, w') => (Raise e, w')
    end.

Notation "x <- m ;; k" := (bind m (fun x => k))
  (at level 61, m at next level, right associativity).
Notation "' pat <- m ;; k" := (bind m (fun x => match x with pat => k end))
  (at level 61, pat pattern, m at next level, right associativity).
Notation "m ;;; k" := (bind m (fun _ => k))
  (at level 61, right associativity).

Definition lift {A} (r : result A) : M A := fun w => (r, w).

Definition emit (e : event) : M unit :=
  fun w => (Ok tt, {| np_random := np_random w; trace := trace w ++ [e] |}).

(** [for x in xs: acc = body(x, acc)] *)
Fixpoint for_each {A S} (xs : list A) (body : A -> S -> M S) (acc : S) : M S :=
  match xs with
  | [] => ret acc
  | x :: xs' => acc' <- body x acc ;; for_each xs' body acc'
  end.

(** ** pandas, numpy and Python containers *)

(** [s.dropna()] *)
Fixpoint dropna (s : Series (option R)) : Series R :=
  match s with
  | [] => []
  | (t, Some v) :: s' => (t, v) :: dropna s'
  | (_, None) :: s' => dropna s'
  end.

(** [s * c] on a Series without missing values *)
Definition scale (c : R) (s : Series R) : Series R :=
  map (fun tv => (fst tv, snd tv * c)) s.

Definition values {A} (s : Series A) : list A := map snd s.
Definition index {A} (s : Series A) : list Timestamp := map fst s.

(** [xs[-1]] *)
Definition last_item {A} (xs : list A) : result A :=
  match rev xs with
  | [] => Raise IndexError
  | x :: _ => Ok x
  end.

(** [xs[i]] for a non-negative [i] *)
Definition item {A} (xs : list A) (i : nat) : result A :=
  match nth_error xs i with
  | Some x => Ok x
  | None => Raise IndexError
  end.

(** [a[-1, j]] on a two-dimensional array *)
Definition last_row_item (a : list (list R)) (j : nat) : result R :=
  match last_item a with
  | Ok row => item row j
  | Raise e => Raise e
  end.

(** A Python [dict]: keys in insertion order; assigning to a key that
    is present keeps its place. *)
Definition dict (V : Type) := list (string * V).

Fixpoint dict_set {V} (d : dict V) (k : string) (v : V) : dict V :=
  match d with
  | [] => [(k, v)]
  | (k', v') :: d' =>
      if String.eqb k k' then (k, v) :: d' else (k', v') :: dict_set d' k v
  end.

Definition makedirs (path : string) : M unit := emit (Makedirs path).
Definition savefig (dir file : string) : M unit := emit (Savefig dir file).
Definition to_csv (dir file : string) : M unit := emit (ToCsv dir file).

(** ** The arch and statsmodels interface *)

Class StatsLibs : Type := {
  (* [arch_model(y, ...).fit(disp="off")] *)
  arch_fit : ArchSpec -> Series R -> fit_failure + ARCHModelResult;
  (* [acorr_ljungbox(x, lags=lags, return_df=False)]: the statistics and
     the p-values, one per lag; [None] when statsmodels raises *)
  acorr_ljungbox : list R -> list nat -> option (list R * list R)
}.

(** ** garch_model.py *)

Record ForecastRecord : Type := {
  asset : string;
  model : string;
  last_date : Timestamp;
  one_day_ahead_vol_forecast_pct : R
}.

Section Garch.
Context {libs : StatsLibs}.

Definition fit (spec : ArchSpec) (y : Series R) : M ARCHModelResult :=
  emit (ArchFit spec y) ;;;
  match arch_fit spec y with
  | inr res => ret res
  | inl f => raise (exn_of_failure f)
  end.

Definition ljungbox (x : list R) (lags : list nat) : M (list R * list R) :=
  match acorr_ljungbox x lags with
  | Some r => ret r
  | None => raise ValueError
  end.

(** The body of [for model_name, res in models_dict.items()]. *)
Definition model_report (asset_name figs_dir : string)
    (it : string * ARCHModelResult)
    (acc : list ForecastRecord * dict (Series (option R)))
  : M (list ForecastRecord * dict (Series (option R))) :=
  let '(model_name, res) := it in
  let '(forecasts_records, cond_vol_dict) := acc in
  let cond_vol := conditional_volatility res in
  let cond_vol_dict := dict_set cond_vol_dict model_name cond_vol in
  let fcast := forecast_variance res 1 false in
  var_fcast <- lift (last_row_item fcast 0) ;;
  let vol_fcast := sqrt var_fcast in
  date <- lift (last_item (index cond_vol)) ;;
  let forecasts_records :=
    forecasts_records ++
      [ {| asset := asset_name; model := model_name; last_date := date;
           one_day_ahead_vol_forecast_pct := vol_fcast |} ] in
  savefig figs_dir (asset_name +++ "_" +++ model_name +++ "_volatility.png") ;;;
  let std_resid := dropna (std_resid res) in
  '(lb_stat, lb_p) <- ljungbox (values std_resid) [10%nat] ;;
  _ <- lift (item lb_p 0) ;;
  savefig figs_dir (asset_name +++ "_" +++ model_name +++ "_qqplot.png") ;;;
  ret (forecasts_records, cond_vol_dict).

Definition garch11_spec : ArchSpec := arch_model GARCH 1 0 1 Constant normal.
Definition egarch_spec : ArchSpec := arch_model EGARCH 1 0 1 Constant normal.
Definition gjr_spec : ArchSpec := arch_model GARCH 1 1 1 Constant normal.

Definition fit_garch_models (returns : Series (option R)) (asset_name : string)
    (results_dir figs_dir : string)
  : M (dict ARCHModelResult * list ForecastRecord * dict (Series (option R))) :=
  makedirs results_dir ;;;
  makedirs figs_dir ;;;
  let r := scale 100 (dropna returns) in
  let models_dict : dict ARCHModelResult := [] in
  garch11_res <- fit garch11_spec r ;;
  let models_dict := dict_set models_dict "GARCH11" garch11_res in
  egarch_res <- fit egarch_spec r ;;
  let models_dict := dict_set models_dict "EGARCH" egarch_res in
  gjr_res <- fit gjr_spec r ;;
  let models_dict := dict_set models_dict "GJRGARCH" gjr_res in
  '(forecasts_records, cond_vol_dict) <-
     for_each models_dict (model_report asset_name figs_dir) ([], []) ;;
  ret (models_dict, forecasts_records, cond_vol_dict).

End Garch.

(** ** diagnostics.py *)

Fixpoint rsum (l : list R) : R :=
  match l with
  | [] => 0
  | x :: l' => x + rsum l'
  end.

(** The arithmetic mean of a column. *)
Definition rmean (l : list R) : R := rsum l / INR (List.length l).

Definition sq (x : R) : R := x * x.

Fixpoint all_present (l : list (option R)) : option (list R) :=
  match l with
  | [] => Some []
  | None :: _ => None
  | Some x :: l' =>
      match all_present l' with
      | Some xs => Some (x :: xs)
      | None => None
      end
  end.

(** The last [n] items of [l] (all of [l] when it is shorter). *)
Definition lastn {A} (n : nat) (l : list A) : list A :=
  skipn (List.length l - n) l.

(** One cell of [s.rolling(window).sum()]: [seen] holds the values up to
    and including the cell's own.  pandas takes [min_periods = window]:
    the cell is missing unless the window holds [window] values, none of
    them missing. *)
Definition window_sum (window : nat) (seen : list (option R)) : option R :=
  let w := lastn window seen in
  if (List.length w <? window)%nat then None
  else option_map rsum (all_present w).

Fixpoint rolling_sum_from (window : nat) (seen : list (option R))
    (s : Series (option R)) : Series (option R) :=
  match s with
  | [] => []
  | (t, v) :: s' =>
      let seen' := seen ++ [v] in
      (t, window_sum window seen') :: rolling_sum_from window seen' s'
  end.

Definition rolling_sum (window : nat) (s : Series (option R)) : Series (option R) :=
  rolling_sum_from window [] s.

Definition series_map (f : R -> R) (s : Series (option R)) : Series (option R) :=
  map (fun tv => (fst tv, option_map f (snd tv))) s.

(** [rv = (returns ** 2).rolling(window).sum() ** 0.5] *)
Definition realized_volatility (returns : Series (option R)) (window : nat)
  : Series (option R) :=
  series_map sqrt (rolling_sum window (series_map sq returns)).

(** A row of [df_all] once the three columns are added. *)
Record EvalRow : Type := {
  forecast : ForecastRecord;
  realized_vol_tail_pct : R;
  abs_err : R;
  sq_err : R
}.

(** A row of the returned summary. *)
Record SummaryRow : Type := {
  summary_model : string;
  mean_abs_err : R;
  rmse : R
}.

(** [pd.concat(dfs, ignore_index=True)]; pandas raises ValueError
    ("No objects to concatenate") on an empty list. *)
Definition pd_concat {A} (dfs : list (list A)) : result (list A) :=
  match dfs with
  | [] => Raise ValueError
  | _ => Ok (List.concat dfs)
  end.

Definition add_errors (tail_rv : R) (rec : ForecastRecord) : EvalRow :=
  {| forecast := rec;
     realized_vol_tail_pct := tail_rv;
     abs_err := Rabs (one_day_ahead_vol_forecast_pct rec - tail_rv);
     sq_err := sq (one_day_ahead_vol_forecast_pct rec - tail_rv) |}.

(** [df.groupby(key)]: the groups in increasing order of their key, the
    rows of a group in their order in [df]. *)
Fixpoint group_insert {A} (k : string) (v : A) (g : list (string * list A))
  : list (string * list A) :=
  match g with
  | [] => [(k, [v])]
  | (k', vs) :: g' =>
      match String.compare k k' with
      | Eq => (k', vs ++ [v]) :: g'
      | Lt => (k, [v]) :: g
      | Gt => (k', vs) :: group_insert k v g'
      end
  end.

Definition groupby {A} (key : A -> string) (df : list A) : list (string * list A) :=
  fold_left (fun g row => group_insert (key row) row g) df [].

(** [.agg({"abs_err": "mean", "sq_err": "mean"})], then
    [summary["rmse"] = np.sqrt(summary["sq_err"])] and the drop of
    [sq_err]. *)
Definition summarize_group (g : string * list EvalRow) : SummaryRow :=
  let mean_sq_err := rmean (map sq_err (snd g)) in
  {| summary_model := fst g;
     mean_abs_err := rmean (map abs_err (snd g));
     rmse := sqrt mean_sq_err |}.

Definition summarize (df_all : list EvalRow) : list SummaryRow :=
  map summarize_group (groupby (fun row => model (forecast row)) df_all).

Definition evaluate_forecasts (forecasts_df_list : list (list ForecastRecord))
    (realized_vol_series : Series (option R)) (asset_name : string)
    (results_dir figs_dir : string) : M (list SummaryRow) :=
  makedirs results_dir ;;;
  makedirs figs_dir ;;;
  df_all <- lift (pd_concat forecasts_df_list) ;;
  last_rv <- lift (last_item (values (dropna realized_vol_series))) ;;
  let tail_rv := last_rv * 100 in
  let df_all := map (add_errors tail_rv) df_all in
  let summary := summarize df_all in
  savefig figs_dir (asset_name +++ "_forecast_rmse.png") ;;;
  to_csv results_dir (asset_name +++ "_forecast_eval.csv") ;;;
  ret summary.

(** ** sklearn.preprocessing.StandardScaler *)

(** The population variance of a column. *)
Definition variance (col : list R) : R :=
  rmean (map (fun x => sq (x - rmean col)) col).

(** Modelled from the spec: sklearn's scaler is not under the sources.
    Section 4.4: zero mean and unit variance, computed over the full
    feature set.  The divisor of a column is its population standard
    deviation; as in sklearn, a column whose deviation is zero is only
    centred (divisor 1). *)
Definition col_scale (col : list R) : R :=
  if Req_dec_T (sqrt (variance col)) 0 then 1 else sqrt (variance col).

(** Modelled from the spec: [z = (x - u) / s], [u] the mean and [s] the
    divisor of the whole column. *)
Definition standardize (col : list R) : list R :=
  map (fun x => (x - rmean col) / col_scale col) col.

(** Modelled from the spec: [scaler.fit_transform(X)], column by
    column; sklearn refuses an array without rows (ValueError). *)
Definition fit_transform (X : Features) : M Features :=
  emit (ScalerFit X) ;;;
  match X with
  | [] => raise ValueError
  | _ => ret (combine (standardize (map fst X)) (standardize (map snd X)))
  end.

(** ** The Gaussian HMM engine *)

Module GaussianHMM.

(** The EM engine behind [GaussianHMM] (hmmlearn) is not under the
    sources.  Sections 3, 4.4 and 7 of the specification describe it:
    Baum-Welch with forward-backward posteriors, row-normalised
    transition counts, weighted Gaussian moments with a diagonal floor,
    a bounded number of iterations, and a failure instead of a
    non-finite value.  The definitions of this module follow these
    sections. *)

(** Modelled from the spec: a full covariance of the two features, a 2x2
    matrix by rows. *)
Definition Cov := ((R * R) * (R * R))%type.

(** Modelled from the spec: the HMMModel of section 3: pi, A, and per
    state mu_k and Sigma_k. *)
Record Model : Type := {
  startprob_ : list R;
  transmat_ : list (list R);
  means_ : list (R * R);
  covars_ : list Cov
}.

(** Modelled from the spec: what section 4.4 names without a value: the
    tolerance, the diagonal floor, and the initial guess drawn from a
    random generator. *)
Class Settings : Type := {
  tol : R;
  covar_floor : R;
  init_guess : RandomState -> nat -> Features -> Model
}.

(** The keyword arguments the source passes to the constructor. *)
Record Estimator : Type := GaussianHMM {
  n_components : nat;
  n_iter : nat;
  random_state : option Z
}.

Fixpoint zip_with {A B C} (f : A -> B -> C) (u : list A) (v : list B) : list C :=
  match u, v with
  | a :: u', b :: v' => f a b :: zip_with f u' v'
  | _, _ => []
  end.

Definition vmul (u v : list R) : list R := zip_with Rmult u v.
Definition vadd (u v : list R) : list R := zip_with Rplus u v.
Definition dot (u v : list R) : R := rsum (vmul u v).

(** [A u]: entry [i] is the sum over [j] of [A i j * u j]. *)
Definition matvec (A : list (list R)) (u : list R) : list R :=
  map (fun row => dot row u) A.

(** [v A] for [K] states: entry [j] is the sum over [i] of [v i * A i j]. *)
Definition vecmat (K : nat) (v : list R) (A : list (list R)) : list R :=
  map (fun j => rsum (zip_with (fun vi row => vi * nth j row 0) v A)) (seq 0 K).

(** Modelled from the spec: a vector divided by its sum; a zero sum
    would give a non-finite value and is a NumericalError (section 7). *)
Definition normalize (v : list R) : result (list R) :=
  if Req_dec_T (rsum v) 0 then Raise NumericalError
  else Ok (map (fun x => x / rsum v) v).

Fixpoint map_result {A B} (f : A -> result B) (l : list A) : result (list B) :=
  match l with
  | [] => Ok []
  | a :: l' =>
      match f a with
      | Ok b =>
          match map_result f l' with
          | Ok bs => Ok (b :: bs)
          | Raise e => Raise e
          end
      | Raise e => Raise e
      end
  end.

Definition det (S : Cov) : R :=
  let '((a, b), (c, d)) := S in a * d - b * c.

(** Modelled from the spec: the density of N(mu, S) at [x]. *)
Definition gauss_pdf (mu : R * R) (S : Cov) (x : R * R) : R :=
  let '((a, b), (c, d)) := S in
  let dx := fst x - fst mu in
  let dy := snd x - snd mu in
  let quad := (d * dx * dx - (b + c) * dx * dy + a * dy * dy) / det S in
  exp (- quad / 2) / (2 * PI * sqrt (det S)).

(** Modelled from the spec: the per-state Gaussian densities of one
    observation. *)
Definition emission (m : Model) (x : R * R) : list R :=
  zip_with (fun mu S => gauss_pdf mu S x) (means_ m) (covars_ m).

Section EStep.
Variable m : Model.
Let K := List.length (startprob_ m).

(** Modelled from the spec: the forward recursion,
    alpha_{t+1} j = (sum_i alpha_t i * A i j) * b_j(x_{t+1}). *)
Fixpoint forward_from (alpha : list R) (xs : Features) : list (list R) :=
  match xs with
  | [] => []
  | x :: xs' =>
      let alpha' := vmul (vecmat K alpha (transmat_ m)) (emission m x) in
      alpha' :: forward_from alpha' xs'
  end.

(** Modelled from the spec: alpha_1, ..., alpha_T, with
    alpha_1 k = pi k * b_k(x_1). *)
Definition forward (X : Features) : list (list R) :=
  match X with
  | [] => []
  | x :: xs =>
      let alpha1 := vmul (startprob_ m) (emission m x) in
      alpha1 :: forward_from alpha1 xs
  end.

(** Modelled from the spec: the backward recursion: beta_1, ..., beta_T,
    with beta_T = 1 and
    beta_t i = sum_j A i j * b_j(x_{t+1}) * beta_{t+1} j. *)
Fixpoint backward (X : Features) : list (list R) :=
  match X with
  | [] => []
  | _ :: xs =>
      match xs with
      | [] => [repeat 1 K]
      | x' :: _ =>
          let betas := backward xs in
          matvec (transmat_ m) (vmul (emission m x') (hd [] betas)) :: betas
      end
  end.

(** Modelled from the spec: the posterior state-occupancy gamma_t of
    every timestep: alpha_t * beta_t, normalised. *)
Definition posteriors (X : Features) : result (list (list R)) :=
  map_result normalize (zip_with vmul (forward X) (backward X)).

(** Modelled from the spec: a matrix divided by the sum of its entries;
    a zero sum is a NumericalError. *)
Definition normalize_matrix (a : list (list R)) : result (list (list R)) :=
  let s := rsum (map rsum a) in
  if Req_dec_T s 0 then Raise NumericalError
  else Ok (map (map (fun x => x / s)) a).

(** Modelled from the spec: the posterior pairwise transition
    probability xi_t: entry (i, j) is
    alpha_t i * A i j * b_j(x_{t+1}) * beta_{t+1} j, normalised over all
    pairs. *)
Definition xi (alpha : list R) (x_next : R * R) (beta_next : list R)
  : result (list (list R)) :=
  let w := vmul (emission m x_next) beta_next in
  normalize_matrix
    (zip_with (fun ai row => zip_with (fun aij wj => ai * aij * wj) row w)
       alpha (transmat_ m)).

Definition madd (a b : list (list R)) : list (list R) := zip_with vadd a b.

(** Modelled from the spec: the expected transition counts, the sum of
    xi_t over t < T. *)
Fixpoint transition_counts (alphas : list (list R)) (xs_next : Features)
    (betas_next : list (list R)) : result (list (list R)) :=
  match alphas, xs_next, betas_next with
  | alpha :: alphas', x :: xs', beta :: betas' =>
      match xi alpha x beta with
      | Ok xi_t =>
          match transition_counts alphas' xs' betas' with
          | Ok rest => Ok (madd xi_t rest)
          | Raise e => Raise e
          end
      | Raise e => Raise e
      end
  | _, _, _ => Ok (repeat (repeat 0 K) K)
  end.

(** Modelled from the spec: the log-likelihood log P(X | m), the log of
    the sum of alpha_T. *)
Definition log_likelihood (X : Features) : R :=
  ln (rsum (last (forward X) [])).

End EStep.

Section MStep.
Context {settings : Settings}.

(** Modelled from the spec: mean and covariance of state [k] from the
    gamma-weighted moments; the covariance gets the diagonal floor, and a
    covariance that is singular after it fails the fit. *)
Definition weighted_moments (gammas : list (list R)) (X : Features) (k : nat)
  : result ((R * R) * Cov) :=
  let w := map (fun g => nth k g 0) gammas in
  let W := rsum w in
  if Req_dec_T W 0 then Raise NumericalError
  else
    let mx := dot w (map fst X) / W in
    let my := dot w (map snd X) / W in
    let dx := map (fun x => fst x - mx) X in
    let dy := map (fun x => snd x - my) X in
    let sxx := dot w (vmul dx dx) / W + covar_floor in
    let sxy := dot w (vmul dx dy) / W in
    let syy := dot w (vmul dy dy) / W + covar_floor in
    let S : Cov := ((sxx, sxy), (sxy, syy)) in
    if Req_dec_T (det S) 0 then Raise NumericalError
    else Ok ((mx, my), S).

(** Modelled from the spec: one EM iteration: the E-step under [m], then
    the M-step: pi from gamma_1, A from the row-normalised transition
    counts, the Gaussians from the weighted moments. *)
Definition em_step (m : Model) (X : Features) : result Model :=
  let K := List.length (startprob_ m) in
  let alphas := forward m X in
  let betas := backward m X in
  match posteriors m X with
  | Raise e => Raise e
  | Ok gammas =>
      match transition_counts m alphas (tl X) (tl betas) with
      | Raise e => Raise e
      | Ok counts =>
          match map_result normalize counts with
          | Raise e => Raise e
          | Ok A =>
              match map_result (weighted_moments gammas X) (seq 0 K) with
              | Raise e => Raise e
              | Ok moments =>
                  Ok {| startprob_ := hd [] gammas;
                        transmat_ := A;
                        means_ := map fst moments;
                        covars_ := map snd moments |}
              end
          end
      end
  end.

(** Modelled from the spec: iterate until the improvement of the
    log-likelihood is below the tolerance or the budget of iterations
    is used up. *)
Fixpoint em_loop (budget : nat) (m : Model) (X : Features) (prev : option R)
  : result Model :=
  match budget with
  | O => Ok m
  | S budget' =>
      let ll := log_likelihood m X in
      match em_step m X with
      | Raise e => Raise e
      | Ok m' =>
          match prev with
          | Some ll_prev =>
              if Rlt_dec (ll - ll_prev) tol then Ok m'
              else em_loop budget' m' X (Some ll)
          | None => em_loop budget' m' X (Some ll)
          end
      end
  end.

(** Modelled from the spec: the generator of [random_state]: a seeded
    one of its own, or numpy's process-wide generator when no seed is
    given. *)
Definition check_random_state (random_state : option Z) : M RandomState :=
  fun w =>
    (Ok match random_state with
        | Some seed => seed
        | None => np_random w
        end, w).

(** Modelled from the spec: [hmm.fit(X)]: a state count below 1 is a
    ConfigError, fewer rows than states a DataError (fail fast); then
    EM from the seeded initial guess. *)
Definition fit (hmm : Estimator) (X : Features) : M Model :=
  emit (HmmFit (n_components hmm) X) ;;;
  if (n_components hmm <? 1)%nat then raise ConfigError
  else if (List.length X <? n_components hmm)%nat then raise DataError
  else
    rng <- check_random_state (random_state hmm) ;;
    lift (em_loop (n_iter hmm) (init_guess rng (n_components hmm) X) X None).

End MStep.

(** Modelled from the spec: [hmm.predict_proba(X)], the posterior
    vector of every timestep under the fitted model. *)
Definition predict_proba (m : Model) (X : Features) : result (list (list R)) :=
  posteriors m X.

Fixpoint argmax_from (best_i : nat) (best : R) (i : nat) (l : list R) : nat :=
  match l with
  | [] => best_i
  | x :: l' =>
      if Rlt_dec best x then argmax_from i x (S i) l'
      else argmax_from best_i best (S i) l'
  end.

Definition argmax (l : list R) : nat :=
  match l with
  | [] => O
  | x :: l' => argmax_from 0 x 1 l'
  end.

(** Modelled from the spec: [hmm.predict(X)], the most likely state of
    each timestep under its posterior. *)
Definition predict (m : Model) (X : Features) : result (list nat) :=
  match posteriors m X with
  | Ok gammas => Ok (map argmax gammas)
  | Raise e => Raise e
  end.

End GaussianHMM.

(** ** regime_switching.py *)

(** [f"state_{i}"] *)
Definition state_column (i : nat) : string :=
  "state_" +++ NilZero.string_of_uint (Nat.to_uint i).

Record DataFrame : Type := {
  df_index : list Timestamp;
  df_columns : list string;
  df_values : list (list R)
}.

(** The returned dictionary, by key. *)
Record RegimeResult : Type := {
  hmm_model : GaussianHMM.Estimator * GaussianHMM.Model;  (* "model" *)
  posterior_probs : DataFrame;                            (* "posterior_probs" *)
  regime_series : Series nat;                             (* "regime_series" *)
  trans_mat : list (list R)                               (* "trans_mat" *)
}.

(** The frame with the columns [ret] and [ret_sq]. *)
Definition return_frame (returns : Series (option R)) : Series (R * R) :=
  map (fun tv => (fst tv, (snd tv, sq (snd tv)))) (dropna returns).

Section Regimes.
Context {settings : GaussianHMM.Settings}.

Definition fit_hmm_regimes (returns : Series (option R)) (n_states : nat)
    (asset_name results_dir figs_dir : string) : M RegimeResult :=
  makedirs results_dir ;;;
  makedirs figs_dir ;;;
  let r := return_frame returns in
  X <- fit_transform (values r) ;;
  let hmm := GaussianHMM.GaussianHMM n_states 200 (Some 42%Z) in
  fitted <- GaussianHMM.fit hmm X ;;
  hidden_states <- lift (GaussianHMM.predict fitted X) ;;
  posterior_probs <- lift (GaussianHMM.predict_proba fitted X) ;;
  savefig figs_dir (asset_name +++ "_regime_probs.png") ;;;
  savefig figs_dir (asset_name +++ "_regime_scatter.png") ;;;
  let trans_mat := GaussianHMM.transmat_ fitted in
  savefig figs_dir (asset_name +++ "_transition_matrix.png") ;;;
  let regime_df := combine (index r) hidden_states in
  ret {| hmm_model := (hmm, fitted);
         posterior_probs :=
           {| df_index := index r;
              df_columns := map state_column (seq 0 n_states);
              df_values := posterior_probs |};
         regime_series := regime_df;
         trans_mat := trans_mat |}.

End Regimes.

(** ** visualization.py and main.py *)

Definition plot_conditional_vol_vs_realized (asset_name : string)
    (cond_vol_dict : dict (Series (option R)))
    (realized_vol_series : Series (option R)) (figs_dir : string) : M unit :=
  makedirs figs_dir ;;;
  savefig figs_dir (asset_name +++ "_cond_vs_realized.png").

Section Main.
Context {libs : StatsLibs} {settings : GaussianHMM.Settings}.

(** [main()] from step 2 on: the two return series are what [load_data]
    delivered, the two directories are [RESULTS_DIR] and [FIGS_DIR]. *)
Definition main (spy_ret btc_ret : Series (option R))
    (RESULTS_DIR FIGS_DIR : string) : M (list SummaryRow * list SummaryRow) :=
  '(spy_models, spy_fc, spy_cond_vol) <-
     fit_garch_models spy_ret "SPY" RESULTS_DIR FIGS_DIR ;;
  '(btc_models, btc_fc, btc_cond_vol) <-
     fit_garch_models btc_ret "BTC" RESULTS_DIR FIGS_DIR ;;
  let spy_rv := realized_volatility spy_ret 5 in
  let btc_rv := realized_volatility btc_ret 5 in
  plot_conditional_vol_vs_realized "SPY" spy_cond_vol spy_rv FIGS_DIR ;;;
  plot_conditional_vol_vs_realized "BTC" btc_cond_vol btc_rv FIGS_DIR ;;;
  spy_hmm <- fit_hmm_regimes spy_ret 2 "SPY" RESULTS_DIR FIGS_DIR ;;
  btc_hmm <- fit_hmm_regimes btc_ret 2 "BTC" RESULTS_DIR FIGS_DIR ;;
  spy_eval <- evaluate_forecasts [spy_fc] spy_rv "SPY" RESULTS_DIR FIGS_DIR ;;
  btc_eval <- evaluate_forecasts [btc_fc] btc_rv "BTC" RESULTS_DIR FIGS_DIR ;;
  to_csv RESULTS_DIR "forecasts.csv" ;;;
  ret (spy_eval, btc_eval).

End Main.

(** * Vocabulary of the statements, and sample inputs *)

(** The world after further calls to the outside. *)
Definition extend (w : World) (evs : list event) : World :=
  {| np_random := np_random w; trace := trace w ++ evs |}.

(** [m] only adds to the trace, and leaves the generator alone. *)
Definition extends_world {A} (m : M A) : Prop :=
  forall w, exists evs, snd (m w) = extend w evs.

(** The exceptions [m] can raise all satisfy [allowed]. *)
Definition raises_only {A} (allowed : exn -> Prop) (m : M A) : Prop :=
  forall w e w', m w = (Raise e, w') -> allowed e.

(** The outcome of [m] is the same in every world. *)
Definition world_independent {A} (m : M A) : Prop :=
  exists r, forall w, fst (m w) = r.

(** The record appended for one model. *)
Definition record_of (asset_name model_name : string) (res : ARCHModelResult)
    (rec : ForecastRecord) : Prop :=
  asset rec = asset_name /\ model rec = model_name /\
  last_item (index (conditional_volatility res)) = Ok (last_date rec) /\
  exists var_fcast,
    last_row_item (forecast_variance res 1 false) 0 = Ok var_fcast /\
    one_day_ahead_vol_forecast_pct rec = sqrt var_fcast.

(** What [fit_garch_models] can raise: the failure of a fit, or what the
    indexing and the Ljung-Box call of the report loop raise. *)
Definition garch_exn (e : exn) : Prop :=
  e = ConvergenceError \/ e = NumericalError \/ e = IndexError \/ e = ValueError.

Section Attempts.
Context {libs : StatsLibs}.

(** The three fits in the order of the source, up to the first failure:
    the specifications tried, and the failure if there is one. *)
Fixpoint attempts (specs : list ArchSpec) (y : Series R)
  : list ArchSpec * option fit_failure :=
  match specs with
  | [] => ([], None)
  | spec :: rest =>
      match arch_fit spec y with
      | inl f => ([spec], Some f)
      | inr _ => let (tried, failure) := attempts rest y in (spec :: tried, failure)
      end
  end.

End Attempts.

Definition variants : list ArchSpec := [garch11_spec; egarch_spec; gjr_spec].

Definition sample_result : ARCHModelResult :=
  {| conditional_volatility := [(1%Z, Some 1); (3%Z, Some 2)];
     forecast_variance := fun _ _ => [[4]];
     std_resid := [(1%Z, Some 1); (3%Z, Some (-1))] |}.

(** Every fit succeeds; the Ljung-Box call returns one statistic and one
    p-value. *)
Definition all_fit : StatsLibs :=
  {| arch_fit := fun _ _ => inr sample_result;
     acorr_ljungbox := fun _ _ => Some ([0], [1]) |}.

(** As [all_fit], but the Ljung-Box call raises. *)
Definition ljungbox_raises : StatsLibs :=
  {| arch_fit := fun _ _ => inr sample_result;
     acorr_ljungbox := fun _ _ => None |}.

(** The EGARCH fit does not converge; the two others succeed. *)
Definition egarch_fails : StatsLibs :=
  {| arch_fit := fun spec _ =>
       match vol spec with
       | EGARCH => inl NotConverged
       | GARCH => inr sample_result
       end;
     acorr_ljungbox := fun _ _ => Some ([0], [1]) |}.

(** Three days, the second one missing. *)
Definition sample_returns : Series (option R) :=
  [(1%Z, Some 1); (2%Z, None); (3%Z, Some (-1))].

(** Four days, the second one missing; neither the returns nor their
    squares are constant. *)
Definition varied_returns : Series (option R) :=
  [(1%Z, Some 1); (2%Z, None); (3%Z, Some (-1)); (4%Z, Some 3)].

Definition w0 : World := {| np_random := 0%Z; trace := [] |}.

Definition sample_settings : GaussianHMM.Settings :=
  {| GaussianHMM.tol := 1 / 100;
     GaussianHMM.covar_floor := 1 / 1000;
     GaussianHMM.init_guess := fun _ _ _ =>
       {| GaussianHMM.startprob_ := [1];
          GaussianHMM.transmat_ := [[1]];
          GaussianHMM.means_ := [(0, 0)];
          GaussianHMM.covars_ := [((1 + 1 / 1000, 0), (0, 1 / 1000))] |} |}.

(** A series without missing values, as a float Series. *)
Definition present (s : Series R) : Series (option R) :=
  map (fun tv => (fst tv, Some (snd tv))) s.

Definition missing (c : Timestamp * option R) : Prop := snd c = None.

Definition sample_y : Series R := scale 100 (dropna sample_returns).

Definition sample_record (name : string) : ForecastRecord :=
  {| asset := "SPY"; model := name; last_date := 3%Z;
     one_day_ahead_vol_forecast_pct := sqrt 4 |}.

(** Every group is non-empty and holds rows of its own key. *)
Definition groups_ok {A} (key : A -> string) (P : A -> Prop)
    (g : list (string * list A)) : Prop :=
  forall k vs, In (k, vs) g ->
    vs <> [] /\ Forall (fun v => P v /\ key v = k) vs.

Definition sample_forecasts : list ForecastRecord :=
  [sample_record "GARCH11"; sample_record "EGARCH"; sample_record "GJRGARCH"].

(** The rolling volatility of four days: the last value present is 2. *)
Definition sample_rv : Series (option R) :=
  [(1%Z, None); (2%Z, Some 1); (3%Z, Some 2); (4%Z, None)].

(** The matrix handed to the scaler: the returns and their squares. *)
Definition raw_features (returns : Series (option R)) : Features :=
  values (return_frame returns).

Definition scaled_features (returns : Series (option R)) : Features :=
  combine (standardize (map fst (raw_features returns)))
          (standardize (map snd (raw_features returns))).

Definition regime_result (returns : Series (option R)) (n_states : nat)
    (fitted : GaussianHMM.Model) (hidden_states : list nat)
    (posterior : list (list R)) : RegimeResult :=
  {| hmm_model := (GaussianHMM.GaussianHMM n_states 200 (Some 42%Z), fitted);
     posterior_probs :=
       {| df_index := index (return_frame returns);
          df_columns := map state_column (seq 0 n_states);
          df_values := posterior |};
     regime_series := combine (index (return_frame returns)) hidden_states;
     trans_mat := GaussianHMM.transmat_ fitted |}.

Definition is_savefig (ev : event) : Prop :=
  match ev with
  | Savefig _ _ => True
  | _ => False
  end.

(** The estimation steps of the regime detector: the scaler and the HMM
    fit. *)
Definition is_regime_fit (ev : event) : Prop :=
  match ev with
  | ScalerFit _ | HmmFit _ _ => True
  | _ => False
  end.

(** A one-day series. *)
Definition one_day : Series (option R) := [(1%Z, Some 2)].

(** The EGARCH fit does not converge on a one-day series; every other
    fit succeeds. *)
Definition egarch_fails_on_one_day : StatsLibs :=
  {| arch_fit := fun spec y =>
       match vol spec, y with
       | EGARCH, [_] => inl NotConverged
       | _, _ => inr sample_result
       end;
     acorr_ljungbox := fun _ _ => Some ([0], [1]) |}.

(** A matrix of [K] rows of [K] entries. *)
Definition square (K : nat) (a : list (list R)) : Prop :=
  List.length a = K /\ Forall (fun row => List.length row = K) a.

(** A model of [K] states, as section 3 of the specification has it: an
    initial distribution of size [K], a [K] by [K] transition matrix, a
    mean and a covariance per state. *)
Definition has_states (K : nat) (m : GaussianHMM.Model) : Prop :=
  List.length (GaussianHMM.startprob_ m) = K /\
  square K (GaussianHMM.transmat_ m) /\
  List.length (GaussianHMM.means_ m) = K /\
  List.length (GaussianHMM.covars_ m) = K.

Definition row_stochastic (A : list (list R)) : Prop :=
  Forall (fun row => rsum row = 1) A.

Definition sample_X : Features := [(1, 0); (-1, 0)].

(** Settings whose initial guess treats all states alike: a uniform
    initial distribution and transition matrix, every state centred at
    the origin with unit covariance. *)
Definition uniform_settings : GaussianHMM.Settings :=
  {| GaussianHMM.tol := 1 / 100;
     GaussianHMM.covar_floor := 1 / 1000;
     GaussianHMM.init_guess := fun _ n _ =>
       {| GaussianHMM.startprob_ := repeat (1 / INR n) n;
          GaussianHMM.transmat_ := repeat (repeat (1 / INR n) n) n;
          GaussianHMM.means_ := repeat (0, 0) n;
          GaussianHMM.covars_ := repeat ((1, 0), (0, 1)) n |} |}.

(** A model of two states that are alike. *)
Definition symmetric_model (p : R) (mu : R * R) (S : GaussianHMM.Cov) : GaussianHMM.Model :=
  {| GaussianHMM.startprob_ := [p; p];
     GaussianHMM.transmat_ := [[p; p]; [p; p]];
     GaussianHMM.means_ := [mu; mu];
     GaussianHMM.covars_ := [S; S] |}.

(** The moments of [sample_X], for both states. *)
Definition two_state_fit : GaussianHMM.Model :=
  symmetric_model (1 / 2) (0, 0) ((1 + 1 / 1000, 0), (0, 1 / 1000)).


(** ** data_loader.py *)

(** The yfinance call and the date of the run. *)
Class Yahoo : Type := {
  (* [datetime.today().strftime("%Y-%m-%d")] *)
  today : string;
  (* the [Close] column of [yf.download(ticker, start=start, end=end,
     interval="1d", auto_adjust=True, progress=False)], in the order the
     rows come in *)
  yf_download : string -> string -> string -> Series (option R)
}.

Fixpoint insert_by_date {A} (c : Timestamp * A) (s : Series A) : Series A :=
  match s with
  | [] => [c]
  | c' :: s' =>
      if (fst c <=? fst c')%Z then c :: s else c' :: insert_by_date c s'
  end.

(** [df.sort_index()]: the rows by increasing date; rows of one date
    stay in their order. *)
Fixpoint sort_index {A} (s : Series A) : Series A :=
  match s with
  | [] => []
  | c :: s' => insert_by_date c (sort_index s')
  end.

Section DataLoader.
Context {yahoo : Yahoo}.

Definition download_asset (ticker start : string) (end_ : option string)
  : Series (option R) :=
  let end_ := match end_ with
              | None => today
              | Some e => e
              end in
  let df := yf_download ticker start end_ in
  sort_index df.

End DataLoader.

(** [np.log] on one cell.  numpy gives NaN for a negative number and
    minus infinity for 0; the reals hold neither, and what is proved
    about logarithms is proved for positive prices. *)
Definition np_log (x : option R) : option R :=
  match x with
  | Some v => if Rlt_dec 0 v then Some (ln v) else None
  | None => None
  end.

(** [s.diff()]: the first cell is missing; a later cell is its value
    minus the value before it, missing when either is. *)
Fixpoint diff_from (prev : option R) (s : Series (option R)) : Series (option R) :=
  match s with
  | [] => []
  | (t, x) :: s' =>
      (t, match prev, x with
          | Some a, Some b => Some (b - a)
          | _, _ => None
          end) :: diff_from x s'
  end.

Definition diff (s : Series (option R)) : Series (option R) := diff_from None s.

(** [np.log(price_df["close"]).diff().dropna()], as the column
    [log_ret]. *)
Definition compute_log_returns (price_df : Series (option R)) : Series R :=
  dropna (diff (map (fun tv => (fst tv, np_log (snd tv))) price_df)).

(** [left.join(right, how="inner")]: the rows of [left], in their order,
    that have their date in [right], once per row of that date. *)
Definition join_inner {A B} (left : Series A) (right : Series B) : Series (A * B) :=
  flat_map
    (fun la =>
       map (fun rb => (fst la, (snd la, snd rb)))
           (filter (fun rb => (fst rb =? fst la)%Z) right))
    left.

Section LoadData.
Context {yahoo : Yahoo}.

Definition load_data (output_dir : string)
  : M (Series R * Series R * Series (R * R)) :=
  makedirs output_dir ;;;
  let spy_raw := download_asset "SPY" "2015-01-01" None in
  let btc_raw := download_asset "BTC-USD" "2015-01-01" None in
  let spy_ret := compute_log_returns spy_raw in
  let btc_ret := compute_log_returns btc_raw in
  let both := join_inner spy_ret btc_ret in
  to_csv output_dir "spx.csv" ;;;
  to_csv output_dir "btc.csv" ;;;
  to_csv output_dir "aligned_returns.csv" ;;;
  ret (spy_ret, btc_ret, both).

End LoadData.

Section Program.
Context {yahoo : Yahoo} {libs : StatsLibs} {settings : GaussianHMM.Settings}.

(** The whole of [main()]: [load_data], then the steps of [main] on the
    column [log_ret] of the two frames. *)
Definition main_from_load_data (DATA_DIR RESULTS_DIR FIGS_DIR : string)
  : M (list SummaryRow * list SummaryRow) :=
  '(spy_ret, btc_ret, both) <- load_data DATA_DIR ;;
  main (present spy_ret) (present btc_ret) RESULTS_DIR FIGS_DIR.

End Program.

(** ** More vocabulary *)

(** [m] only adds events that satisfy [Q] to the trace. *)
Definition emits {A} (Q : event -> Prop) (m : M A) : Prop :=
  forall w, exists evs, snd (m w) = extend w evs /\ Forall Q evs.

(** The combined table that [main] writes last. *)
Definition is_combined_table (ev : event) : Prop :=
  exists dir, ev = ToCsv dir "forecasts.csv".

(** The order of [groupby] on model names. *)
Definition string_lt (a b : string) : Prop := String.compare a b = Lt.

(** The rows of the group of key [k], none when there is no such group. *)
Fixpoint group_of {A} (k : string) (g : list (string * list A)) : list A :=
  match g with
  | [] => []
  | (k', vs) :: g' => if String.eqb k k' then vs else group_of k g'
  end.

(** The records of one model, in the order of the tables. *)
Definition records_of (name : string) (df : list ForecastRecord)
  : list ForecastRecord :=
  filter (fun rec => String.eqb (model rec) name) df.

(** The errors of a list of records against a reference. *)
Definition errors_against (tail_rv : R) (recs : list ForecastRecord) : list R :=
  map (fun rec => one_day_ahead_vol_forecast_pct rec - tail_rv) recs.

Definition by_date {A} (a b : Timestamp * A) : Prop := (fst a <= fst b)%Z.

(** [s] holds [n] days in a row that all have a value. *)
Definition has_full_window (n : nat) (s : Series (option R)) : Prop :=
  exists before win after,
    s = before ++ win ++ after /\ List.length win = n /\
    Forall (fun c => snd c <> None) win.

Section Reportable.
Context {libs : StatsLibs}.

(** What the report loop needs of a fitted result: a last row with a
    first column in the variance forecast, a last date in the
    conditional volatility, and a Ljung-Box answer with a first
    p-value. *)
Definition reportable (res : ARCHModelResult) : Prop :=
  (exists var_fcast, last_row_item (forecast_variance res 1 false) 0 = Ok var_fcast) /\
  conditional_volatility res <> [] /\
  exists lb_stat p0 lb_p,
    acorr_ljungbox (values (dropna (std_resid res))) [10%nat] =
      Some (lb_stat, p0 :: lb_p).

End Reportable.

(** The two figures of one model. *)
Definition model_figures (asset_name figs_dir model_name : string) : list event :=
  [Savefig figs_dir (asset_name +++ "_" +++ model_name +++ "_volatility.png");
   Savefig figs_dir (asset_name +++ "_" +++ model_name +++ "_qqplot.png")].

Definition model_names : list string := ["GARCH11"; "EGARCH"; "GJRGARCH"].

(** The logarithms of the ratios of consecutive prices, each at the date
    of the later price. *)
Fixpoint log_ratios_from (prev : R) (prices : Series R) : Series R :=
  match prices with
  | [] => []
  | (t, p) :: prices' => (t, ln (p / prev)) :: log_ratios_from p prices'
  end.

Definition log_ratios (prices : Series R) : Series R :=
  match prices with
  | [] => []
  | (_, p0) :: prices' => log_ratios_from p0 prices'
  end.

(** [m] only adds events that satisfy [Q], except that a run that
    returns ends on the event [final]. *)
Definition emits_then {A} (Q : event -> Prop) (final : event) (m : M A) : Prop :=
  forall w,
    exists evs,
      snd (m w) = extend w evs /\
      match fst (m w) with
      | Ok _ => exists evs0, evs = evs0 ++ [final] /\ Forall Q evs0
      | Raise _ => Forall Q evs
      end.

(** Any event but the writing of the combined table. *)
Definition other_table (ev : event) : Prop := ~ is_combined_table ev.

(** A source that delivers two closes per ticker, the later one first. *)
Definition sample_yahoo : Yahoo :=
  {| today := "2026-01-01";
     yf_download := fun _ _ _ => [(2%Z, Some 4); (1%Z, Some 2)] |}.

(** * Properties *)

(** ** Running the monad *)

Lemma extend_extend w a b : extend (extend w a) b = extend w (a ++ b).
Proof. unfold extend; simpl. now rewrite app_assoc. Qed.

Lemma extend_nil w : extend w [] = w.
Proof. destruct w; unfold extend; simpl. now rewrite app_nil_r. Qed.

Lemma emit_run e w : emit e w = (Ok tt, extend w [e]).
Proof. reflexivity. Qed.

Lemma bind_ok {A B} (m : M A) (k : A -> M B) w a w' :
  m w = (Ok a, w') -> bind m k w = k a w'.
Proof. intros H; unfold bind; now rewrite H. Qed.

Lemma bind_raise {A B} (m : M A) (k : A -> M B) w e w' :
  m w = (Raise e, w') -> bind m k w = (Raise e, w').
Proof. intros H; unfold bind; now rewrite H. Qed.

Lemma bind_emit {B} e (k : unit -> M B) w :
  bind (emit e) k w = k tt (extend w [e]).
Proof. reflexivity. Qed.

Lemma bind_lift_ok {A B} (a : A) (k : A -> M B) w :
  bind (lift (Ok a)) k w = k a w.
Proof. reflexivity. Qed.

Lemma bind_lift_raise {A B} e (k : A -> M B) w :
  bind (lift (Raise e)) k w = (Raise e, w).
Proof. reflexivity. Qed.

Lemma raises_only_ret {A} allowed (a : A) : raises_only allowed (ret a).
Proof. intros w e w' H; discriminate H. Qed.

Lemma raises_only_emit allowed ev : raises_only allowed (emit ev).
Proof. intros w e w' H; discriminate H. Qed.

Lemma raises_only_raise {A} (allowed : exn -> Prop) e :
  allowed e -> raises_only allowed (@raise A e).
Proof. intros Ha w e' w' H; inversion H; subst; exact Ha. Qed.

Lemma raises_only_lift {A} (allowed : exn -> Prop) (r : result A) :
  (forall e, r = Raise e -> allowed e) -> raises_only allowed (lift r).
Proof. intros Hr w e w' H; inversion H; subst; now apply Hr. Qed.

Lemma raises_only_bind {A B} allowed (m : M A) (k : A -> M B) :
  raises_only allowed m -> (forall a, raises_only allowed (k a)) ->
  raises_only allowed (bind m k).
Proof.
  intros Hm Hk w e w' H. unfold bind in H.
  destruct (m w) as [[a|e0] w0] eqn:E.
  - exact (Hk a _ _ _ H).
  - inversion H; subst. exact (Hm _ _ _ E).
Qed.

Lemma for_each_cons_ok {A S} (body : A -> S -> M S) x xs acc w r w' :
  for_each (x :: xs) body acc w = (Ok r, w') ->
  exists acc1 w1,
    body x acc w = (Ok acc1, w1) /\ for_each xs body acc1 w1 = (Ok r, w').
Proof.
  simpl. unfold bind. destruct (body x acc w) as [[acc1|e] w1]; [|discriminate].
  intros H. now exists acc1, w1.
Qed.

Lemma raises_only_for_each {A S} allowed (body : A -> S -> M S) xs :
  (forall x acc, raises_only allowed (body x acc)) ->
  forall acc, raises_only allowed (for_each xs body acc).
Proof.
  intros Hb; induction xs as [|x xs IH]; intros acc; simpl.
  - apply raises_only_ret.
  - apply raises_only_bind; [apply Hb | intros a; apply IH].
Qed.

Lemma independent_ret {A} (a : A) : world_independent (ret a).
Proof. now exists (Ok a). Qed.

Lemma independent_raise {A} e : world_independent (@raise A e).
Proof. now exists (Raise e). Qed.

Lemma independent_lift {A} (r : result A) : world_independent (lift r).
Proof. now exists r. Qed.

Lemma independent_emit ev : world_independent (emit ev).
Proof. now exists (Ok tt). Qed.

Lemma independent_bind {A B} (m : M A) (k : A -> M B) :
  world_independent m -> (forall a, world_independent (k a)) ->
  world_independent (bind m k).
Proof.
  intros [r Hr] Hk. destruct r as [a|e].
  - destruct (Hk a) as [rk Hrk]. exists rk; intros w.
    unfold bind. specialize (Hr w). destruct (m w) as [r0 w0]; simpl in Hr; subst r0.
    apply Hrk.
  - exists (Raise e); intros w.
    unfold bind. specialize (Hr w). destruct (m w) as [r0 w0]; simpl in Hr; subst r0.
    reflexivity.
Qed.

Lemma independent_for_each {A S} (body : A -> S -> M S) xs :
  (forall x acc, world_independent (body x acc)) ->
  forall acc, world_independent (for_each xs body acc).
Proof.
  intros Hb; induction xs as [|x xs IH]; intros acc; simpl.
  - apply independent_ret.
  - apply independent_bind; [apply Hb | intros a; apply IH].
Qed.

(** ** fit_garch_models *)

Section GarchFacts.
Context {libs : StatsLibs}.

Lemma model_report_ok a fd name res fr cv w fr' cv' w' :
  model_report a fd (name, res) (fr, cv) w = (Ok (fr', cv'), w') ->
  exists rec, fr' = fr ++ [rec] /\ record_of a name res rec /\
    cv' = dict_set cv name (conditional_volatility res).
Proof.
  unfold model_report, ljungbox, savefig, bind, lift, emit, ret, raise.
  destruct (last_row_item (forecast_variance res 1 false) 0) as [v|e] eqn:Ev;
    [|discriminate].
  destruct (last_item (index (conditional_volatility res))) as [d|e] eqn:Ed;
    [|discriminate].
  destruct (acorr_ljungbox _ _) as [[lb_stat lb_p]|]; [|discriminate].
  destruct (item lb_p 0) as [p0|e]; [|discriminate].
  intros H; inversion H; subst; clear H.
  eexists; split; [reflexivity|]. split; [|reflexivity].
  unfold record_of; simpl. repeat split; try assumption.
  exists v; split; [assumption | reflexivity].
Qed.

Lemma model_report_raises a fd it acc :
  raises_only (fun e => e = IndexError \/ e = ValueError)
    (model_report a fd it acc).
Proof.
  destruct it as [name res], acc as [fr cv]. unfold model_report.
  apply raises_only_bind.
  { apply raises_only_lift. unfold last_row_item, item.
    intros e He. destruct (last_item _) as [row|e0] eqn:El.
    - destruct (nth_error row 0); [discriminate | inversion He; now left].
    - unfold last_item in El. destruct (rev _); inversion El; subst.
      inversion He; now left. }
  intros v. apply raises_only_bind.
  { apply raises_only_lift. unfold last_item. intros e He.
    destruct (rev _); inversion He; now left. }
  intros d. apply raises_only_bind; [apply raises_only_emit|]. intros _.
  apply raises_only_bind.
  { unfold ljungbox. destruct (acorr_ljungbox _ _).
    - apply raises_only_ret.
    - apply raises_only_raise; now right. }
  intros [lb_stat lb_p]. apply raises_only_bind.
  { apply raises_only_lift. unfold item. intros e He.
    destruct (nth_error lb_p 0); inversion He; now left. }
  intros _. apply raises_only_bind; [apply raises_only_emit|]. intros _.
  apply raises_only_ret.
Qed.

Lemma fit_raises spec y :
  raises_only (fun e => e = ConvergenceError \/ e = NumericalError) (fit spec y).
Proof.
  unfold fit. apply raises_only_bind; [apply raises_only_emit|]. intros _.
  destruct (arch_fit spec y) as [f|res].
  - apply raises_only_raise. destruct f; simpl; auto.
  - apply raises_only_ret.
Qed.

Lemma raises_only_weaken {A} (P Q : exn -> Prop) (m : M A) :
  (forall e, P e -> Q e) -> raises_only P m -> raises_only Q m.
Proof. intros HPQ Hm w e w' H. apply HPQ. exact (Hm _ _ _ H). Qed.

Lemma fit_garch_models_raises returns a rd fd :
  raises_only garch_exn (fit_garch_models returns a rd fd).
Proof.
  unfold fit_garch_models, makedirs.
  apply raises_only_bind; [apply raises_only_emit|]. intros _.
  apply raises_only_bind; [apply raises_only_emit|]. intros _.
  assert (Hfit : forall spec y, raises_only garch_exn (fit spec y)).
  { intros spec y. eapply raises_only_weaken; [|apply fit_raises].
    unfold garch_exn; intros e [H|H]; auto. }
  apply raises_only_bind; [apply Hfit|]. intros g.
  apply raises_only_bind; [apply Hfit|]. intros e.
  apply raises_only_bind; [apply Hfit|]. intros j.
  apply raises_only_bind.
  { apply raises_only_for_each. intros x acc.
    eapply raises_only_weaken; [|apply model_report_raises].
    unfold garch_exn; intros e0 [H|H]; auto. }
  intros [fr cv]. apply raises_only_ret.
Qed.

Lemma fit_run spec y w :
  fit spec y w =
  match arch_fit spec y with
  | inr res => (Ok res, extend w [ArchFit spec y])
  | inl f => (Raise (exn_of_failure f), extend w [ArchFit spec y])
  end.
Proof. unfold fit. rewrite bind_emit. now destruct (arch_fit spec y). Qed.

Lemma fit_garch_models_failure returns a rd fd w tried f :
  attempts variants (scale 100 (dropna returns)) = (tried, Some f) ->
  fit_garch_models returns a rd fd w =
    (Raise (exn_of_failure f),
     extend w ([Makedirs rd; Makedirs fd] ++
               map (fun spec => ArchFit spec (scale 100 (dropna returns))) tried)).
Proof.
  unfold fit_garch_models, makedirs, variants, attempts.
  rewrite !bind_emit, !extend_extend.
  set (y := scale 100 (dropna returns)).
  unfold bind at 1. rewrite fit_run.
  destruct (arch_fit garch11_spec y) as [f1|g].
  { intros H; inversion H; subst. now rewrite !extend_extend. }
  unfold bind at 1. rewrite fit_run.
  destruct (arch_fit egarch_spec y) as [f2|e].
  { intros H; inversion H; subst. now rewrite !extend_extend. }
  unfold bind at 1. rewrite fit_run.
  destruct (arch_fit gjr_spec y) as [f3|j].
  { intros H; inversion H; subst. now rewrite !extend_extend. }
  intros H; discriminate H.
Qed.

Lemma fit_garch_models_ok returns a rd fd w models fc cv w' :
  fit_garch_models returns a rd fd w = (Ok (models, fc, cv), w') ->
  let y := scale 100 (dropna returns) in
  exists g e j,
    arch_fit garch11_spec y = inr g /\
    arch_fit egarch_spec y = inr e /\
    arch_fit gjr_spec y = inr j /\
    models = [("GARCH11", g); ("EGARCH", e); ("GJRGARCH", j)] /\
    for_each models (model_report a fd) ([], [])
      (extend w [Makedirs rd; Makedirs fd; ArchFit garch11_spec y;
                 ArchFit egarch_spec y; ArchFit gjr_spec y])
    = (Ok (fc, cv), w').
Proof.
  cbv zeta. unfold fit_garch_models, makedirs.
  rewrite !bind_emit, !extend_extend.
  set (y := scale 100 (dropna returns)). simpl app.
  unfold bind at 1. rewrite fit_run.
  destruct (arch_fit garch11_spec y) as [f1|g]; [discriminate|].
  unfold bind at 1. rewrite fit_run.
  destruct (arch_fit egarch_spec y) as [f2|e]; [discriminate|].
  unfold bind at 1. rewrite fit_run.
  destruct (arch_fit gjr_spec y) as [f3|j]; [discriminate|].
  rewrite !extend_extend. simpl app. simpl dict_set.
  unfold bind at 1.
  destruct (for_each _ _ _ _) as [[[fr0 cv0]|e0] w0] eqn:E; [|discriminate].
  intros H; inversion H; subst; clear H.
  exists g, e, j. repeat (split; [reflexivity|]). exact E.
Qed.

End GarchFacts.

(** ** Missing values *)

Lemma dropna_app s1 s2 : dropna (s1 ++ s2) = dropna s1 ++ dropna s2.
Proof.
  induction s1 as [|[t [v|]] s1 IH]; simpl; [reflexivity| |assumption].
  now rewrite IH.
Qed.

Lemma dropna_present s : dropna (present s) = s.
Proof.
  induction s as [|[t v] s IH]; simpl; [reflexivity|]. now rewrite IH.
Qed.

Lemma dropna_all_missing s : Forall missing s -> dropna s = [].
Proof.
  induction 1 as [|[t o] s Hc _ IH]; simpl; [reflexivity|].
  unfold missing in Hc; simpl in Hc; subst o. exact IH.
Qed.

Lemma dropna_In s t v : In (t, v) (dropna s) <-> In (t, Some v) s.
Proof.
  induction s as [|[t' [v'|]] s IH]; simpl.
  - tauto.
  - rewrite IH. split; intros [H|H]; auto; left; congruence.
  - rewrite IH. split; [auto | intros [H|H]; [discriminate | assumption] ].
Qed.

Lemma last_item_snoc {A} (l : list A) x : last_item (l ++ [x]) = Ok x.
Proof. unfold last_item. now rewrite rev_app_distr. Qed.

Lemma last_item_nil {A} : @last_item A [] = Raise IndexError.
Proof. reflexivity. Qed.

(** The last value of [s.dropna()] is the value of the last cell of [s]
    that is not missing. *)
Lemma last_present s v :
  last_item (values (dropna s)) = Ok v ->
  exists pre t post, s = pre ++ (t, Some v) :: post /\ Forall missing post.
Proof.
  induction s as [|c s IH] using rev_ind; [discriminate|].
  rewrite dropna_app. destruct c as [t [x|]]; simpl.
  - unfold values. rewrite map_app. simpl. rewrite last_item_snoc.
    intros H; inversion H; subst. exists s, t, []. split; [reflexivity | constructor].
  - rewrite app_nil_r. intros H. destruct (IH H) as (pre & t' & post & -> & Hp).
    exists pre, t', (post ++ [(t, None)]). split.
    + now rewrite <- app_assoc.
    + apply Forall_app; split; [assumption|]. constructor; [reflexivity | constructor].
Qed.

Lemma last_present_inv pre t v post :
  Forall missing post ->
  last_item (values (dropna (pre ++ (t, Some v) :: post))) = Ok v.
Proof.
  intros Hp. rewrite dropna_app. simpl. rewrite (dropna_all_missing Hp).
  unfold values. rewrite map_app. simpl. apply last_item_snoc.
Qed.

(** ** Runs on the sample inputs *)

Lemma all_fit_run :
  fit_garch_models (libs := all_fit) sample_returns "SPY" "results" "figs" w0 =
  (Ok ([("GARCH11", sample_result); ("EGARCH", sample_result);
        ("GJRGARCH", sample_result)],
       [sample_record "GARCH11"; sample_record "EGARCH"; sample_record "GJRGARCH"],
       [("GARCH11", conditional_volatility sample_result);
        ("EGARCH", conditional_volatility sample_result);
        ("GJRGARCH", conditional_volatility sample_result)]),
   extend w0
     [Makedirs "results"; Makedirs "figs";
      ArchFit garch11_spec sample_y; ArchFit egarch_spec sample_y;
      ArchFit gjr_spec sample_y;
      Savefig "figs" "SPY_GARCH11_volatility.png";
      Savefig "figs" "SPY_GARCH11_qqplot.png";
      Savefig "figs" "SPY_EGARCH_volatility.png";
      Savefig "figs" "SPY_EGARCH_qqplot.png";
      Savefig "figs" "SPY_GJRGARCH_volatility.png";
      Savefig "figs" "SPY_GJRGARCH_qqplot.png"]).
Proof. reflexivity. Qed.

Lemma ljungbox_raises_run :
  fit_garch_models (libs := ljungbox_raises) sample_returns "SPY" "results" "figs" w0 =
  (Raise ValueError,
   extend w0
     [Makedirs "results"; Makedirs "figs";
      ArchFit garch11_spec sample_y; ArchFit egarch_spec sample_y;
      ArchFit gjr_spec sample_y;
      Savefig "figs" "SPY_GARCH11_volatility.png"]).
Proof. reflexivity. Qed.

(** ** Only the trace grows *)

Lemma extends_ret {A} (a : A) : extends_world (ret a).
Proof. intros w; exists []; simpl. now rewrite extend_nil. Qed.

Lemma extends_raise {A} e : extends_world (@raise A e).
Proof. intros w; exists []; simpl. now rewrite extend_nil. Qed.

Lemma extends_lift {A} (r : result A) : extends_world (lift r).
Proof. intros w; exists []; simpl. now rewrite extend_nil. Qed.

Lemma extends_emit ev : extends_world (emit ev).
Proof. intros w; now exists [ev]. Qed.

Lemma extends_bind {A B} (m : M A) (k : A -> M B) :
  extends_world m -> (forall a, extends_world (k a)) -> extends_world (bind m k).
Proof.
  intros Hm Hk w. unfold bind. destruct (Hm w) as [evs Hevs].
  destruct (m w) as [[a|e] w1]; simpl in Hevs; subst w1.
  - destruct (Hk a (extend w evs)) as [evs' H']. exists (evs ++ evs').
    now rewrite H', extend_extend.
  - now exists evs.
Qed.

Lemma extends_for_each {A S} (body : A -> S -> M S) xs :
  (forall x acc, extends_world (body x acc)) ->
  forall acc, extends_world (for_each xs body acc).
Proof.
  intros Hb; induction xs as [|x xs IH]; intros acc; simpl.
  - apply extends_ret.
  - apply extends_bind; [apply Hb | intros a; apply IH].
Qed.

Ltac extends_step :=
  first
    [ apply extends_ret | apply extends_raise | apply extends_lift
    | apply extends_emit
    | apply extends_bind; [| intros ? ] ].

Section GarchClaims.
Context {libs : StatsLibs}.

Lemma extends_fit spec y : extends_world (fit spec y).
Proof. unfold fit. repeat extends_step. destruct (arch_fit spec y); extends_step. Qed.

Lemma extends_model_report a fd it acc : extends_world (model_report a fd it acc).
Proof.
  destruct it as [name res], acc as [fr cv]. unfold model_report, savefig.
  repeat extends_step.
  - unfold ljungbox. destruct (acorr_ljungbox _ _); extends_step.
  - match goal with p : (list R * list R)%type |- _ => destruct p end.
    repeat extends_step.
Qed.

(** The first fit is started on the non-missing returns times 100,
    before anything else but the two directories. *)
Lemma fit_garch_models_starts returns a rd fd w :
  exists rest,
    snd (fit_garch_models returns a rd fd w) =
    extend w ([Makedirs rd; Makedirs fd;
               ArchFit garch11_spec (scale 100 (dropna returns))] ++ rest).
Proof.
  unfold fit_garch_models, makedirs.
  rewrite !bind_emit, !extend_extend. simpl app.
  set (y := scale 100 (dropna returns)).
  match goal with |- context [bind (fit garch11_spec y) ?k] => set (rest := k) end.
  unfold bind. rewrite fit_run. rewrite extend_extend. simpl app.
  destruct (arch_fit garch11_spec y) as [f|g].
  - exists []. reflexivity.
  - assert (He : extends_world (rest g)).
    { subst rest. cbv beta.
      apply extends_bind; [apply extends_fit | intros e].
      apply extends_bind; [apply extends_fit | intros j].
      apply extends_bind;
        [apply extends_for_each; intros; apply extends_model_report
        | intros [fr cv] ].
      apply extends_ret. }
    destruct (He (extend w [Makedirs rd; Makedirs fd; ArchFit garch11_spec y]))
      as [evs Hevs].
    exists evs. rewrite Hevs, extend_extend. reflexivity.
Qed.

Lemma attempts_failure specs y tried f :
  attempts specs y = (tried, Some f) ->
  exists before spec later,
    tried = before ++ [spec] /\ specs = tried ++ later /\
    arch_fit spec y = inl f /\
    Forall (fun s => exists res, arch_fit s y = inr res) before.
Proof.
  revert tried. induction specs as [|s specs IH]; intros tried; simpl.
  - discriminate.
  - destruct (arch_fit s y) as [f0|res] eqn:E.
    + intros H; inversion H; subst. exists [], s, specs.
      repeat split; auto.
    + destruct (attempts specs y) as [tr fl] eqn:Ea.
      intros H; inversion H; subst.
      destruct (IH tr eq_refl) as (before & spec & later & -> & -> & Hf & Hb).
      exists (s :: before), spec, later. repeat split; auto.
      constructor; [now exists res | assumption].
Qed.

End GarchClaims.

(** ** Claims about fit_garch_models *)

(** C1, as stated, fails: on the sample series, with a library whose
    EGARCH fit does not converge while the GARCH and GJR-GARCH fits
    would succeed, [fit_garch_models] returns nothing: it raises
    ConvergenceError after the EGARCH fit, the GJR-GARCH fit is never
    started, and [main] stops at the same point, before any HMM fit. *)
Lemma egarch_failure_loses_every_result :
  arch_fit (StatsLibs := egarch_fails) garch11_spec sample_y = inr sample_result /\
  arch_fit (StatsLibs := egarch_fails) egarch_spec sample_y = inl NotConverged /\
  arch_fit (StatsLibs := egarch_fails) gjr_spec sample_y = inr sample_result /\
  fit_garch_models (libs := egarch_fails) sample_returns "SPY" "results" "figs" w0 =
    (Raise ConvergenceError,
     extend w0 [Makedirs "results"; Makedirs "figs";
                ArchFit garch11_spec sample_y; ArchFit egarch_spec sample_y]) /\
  main (libs := egarch_fails) (settings := sample_settings)
       sample_returns sample_returns "results" "figs" w0 =
    (Raise ConvergenceError,
     extend w0 [Makedirs "results"; Makedirs "figs";
                ArchFit garch11_spec sample_y; ArchFit egarch_spec sample_y]).
Proof. repeat split; reflexivity. Qed.

(** C3, as stated, fails: the sample series has two values, fewer than
    the ten lags, and no DataError is raised.  With a library that
    answers, the three variants are fit and reported; with a Ljung-Box
    call that raises, the caller gets that ValueError. *)
Lemma short_series_is_not_refused :
  (List.length (dropna sample_returns) < 10)%nat /\
  (exists out w',
     fit_garch_models (libs := all_fit) sample_returns "SPY" "results" "figs" w0 =
       (Ok out, w')) /\
  fst (fit_garch_models (libs := ljungbox_raises) sample_returns "SPY" "results"
         "figs" w0) = Raise ValueError.
Proof.
  split; [simpl; lia|]. split.
  - eexists; eexists. exact all_fit_run.
  - now rewrite ljungbox_raises_run.
Qed.

(** C5: when [fit_garch_models] returns, each of the three variants was
    fit on the non-missing returns multiplied by 100, and the forecast
    emitted for a variant is the square root of the last row, first
    column, of the one-step-ahead variance forecast of that fit: a
    volatility in percent. *)
Theorem forecast_is_root_of_percent_variance
    (libs : StatsLibs) (returns : Series (option R)) (asset_name rd fd : string)
    (w w' : World) models fc cv :
  fit_garch_models returns asset_name rd fd w = (Ok (models, fc, cv), w') ->
  let y := map (fun tv => (fst tv, snd tv * 100)) (dropna returns) in
  exists g e j,
    arch_fit garch11_spec y = inr g /\
    arch_fit egarch_spec y = inr e /\
    arch_fit gjr_spec y = inr j /\
    models = [("GARCH11", g); ("EGARCH", e); ("GJRGARCH", j)] /\
    exists rg re rj,
      fc = [rg; re; rj] /\
      record_of asset_name "GARCH11" g rg /\
      record_of asset_name "EGARCH" e re /\
      record_of asset_name "GJRGARCH" j rj.
Proof.
  intros H. destruct (fit_garch_models_ok _ _ _ _ _ H)
    as (g & e & j & Hg & He & Hj & -> & Hloop).
  intros y. exists g, e, j. repeat (split; [assumption || reflexivity|]).
  apply for_each_cons_ok in Hloop. destruct Hloop as ([fr1 cv1] & w1 & E1 & Hloop).
  apply for_each_cons_ok in Hloop. destruct Hloop as ([fr2 cv2] & w2 & E2 & Hloop).
  apply for_each_cons_ok in Hloop. destruct Hloop as ([fr3 cv3] & w3 & E3 & Hloop).
  inversion Hloop; subst; clear Hloop.
  apply model_report_ok in E1. destruct E1 as (rg & -> & Rg & _).
  apply model_report_ok in E2. destruct E2 as (re & -> & Re & _).
  apply model_report_ok in E3. destruct E3 as (rj & -> & Rj & _).
  exists rg, re, rj. split; [reflexivity|]. split; [assumption|]. split; assumption.
Qed.

Lemma forecast_is_root_witness :
  exists g e j,
    arch_fit (StatsLibs := all_fit) garch11_spec sample_y = inr g /\
    arch_fit (StatsLibs := all_fit) egarch_spec sample_y = inr e /\
    arch_fit (StatsLibs := all_fit) gjr_spec sample_y = inr j /\
    [("GARCH11", sample_result); ("EGARCH", sample_result);
     ("GJRGARCH", sample_result)] = [("GARCH11", g); ("EGARCH", e); ("GJRGARCH", j)] /\
    exists rg re rj,
      [sample_record "GARCH11"; sample_record "EGARCH"; sample_record "GJRGARCH"] =
        [rg; re; rj] /\
      record_of "SPY" "GARCH11" g rg /\
      record_of "SPY" "EGARCH" e re /\
      record_of "SPY" "GJRGARCH" j rj.
Proof.
  exact (@forecast_is_root_of_percent_variance all_fit
           sample_returns "SPY" "results" "figs" w0 _ _ _ _ all_fit_run).
Defined.

(** C9: missing values are dropped without an error.  A cell of the
    cleaned series is a cell of the input that holds a value; a series
    without missing cells is kept as it is; the run is the run on the
    cleaned series; the first fit is started, right after the two
    directories, on the cleaned series times 100; and DataError is never
    raised. *)
Theorem missing_returns_are_dropped_silently
    (libs : StatsLibs) (returns : Series (option R)) (asset_name rd fd : string)
    (w : World) :
  let clean := dropna returns in
  (forall t v, In (t, v) clean <-> In (t, Some v) returns) /\
  (forall s, dropna (present s) = s) /\
  (forall pre t post, returns = pre ++ (t, None) :: post ->
                      clean = dropna pre ++ dropna post) /\
  fit_garch_models returns asset_name rd fd w =
    fit_garch_models (present clean) asset_name rd fd w /\
  (exists rest,
     snd (fit_garch_models returns asset_name rd fd w) =
     extend w ([Makedirs rd; Makedirs fd;
                ArchFit garch11_spec (scale 100 clean)] ++ rest)) /\
  fst (fit_garch_models returns asset_name rd fd w) <> Raise DataError.
Proof.
  intros clean. repeat split.
  - apply dropna_In.
  - apply dropna_In.
  - apply dropna_present.
  - intros pre t post ->. unfold clean. now rewrite dropna_app.
  - unfold fit_garch_models. now rewrite dropna_present.
  - apply fit_garch_models_starts.
  - intros He. destruct (fit_garch_models returns asset_name rd fd w) as [r w'] eqn:E.
    simpl in He; subst r.
    destruct (fit_garch_models_raises returns asset_name rd fd w E)
      as [X|[X|[X|X]]]; discriminate X.
Qed.

(** ** evaluate_forecasts *)

Lemma evaluate_forecasts_run dfs rv a rd fd w :
  evaluate_forecasts dfs rv a rd fd w =
  match pd_concat dfs with
  | Raise e => (Raise e, extend w [Makedirs rd; Makedirs fd])
  | Ok df_all =>
      match last_item (values (dropna rv)) with
      | Raise e => (Raise e, extend w [Makedirs rd; Makedirs fd])
      | Ok last_rv =>
          (Ok (summarize (map (add_errors (last_rv * 100)) df_all)),
           extend w [Makedirs rd; Makedirs fd;
                     Savefig fd (a +++ "_forecast_rmse.png");
                     ToCsv rd (a +++ "_forecast_eval.csv")])
      end
  end.
Proof.
  unfold evaluate_forecasts, makedirs, savefig, to_csv.
  rewrite !bind_emit, !extend_extend. simpl app.
  destruct (pd_concat dfs) as [df|e]; [rewrite bind_lift_ok | now rewrite bind_lift_raise].
  destruct (last_item _) as [v|e]; [rewrite bind_lift_ok | now rewrite bind_lift_raise].
  rewrite !bind_emit, !extend_extend. reflexivity.
Qed.

Lemma pd_concat_ok {A} (dfs : list (list A)) df :
  pd_concat dfs = Ok df -> dfs <> [] /\ df = List.concat dfs.
Proof.
  destruct dfs; simpl; [discriminate|]. intros H; inversion H. split; [discriminate | reflexivity].
Qed.

(** *** Means *)

Lemma rsum_nonneg l : Forall (fun x => 0 <= x) l -> 0 <= rsum l.
Proof. induction 1; simpl; lra. Qed.

Lemma rsum_zero l : Forall (fun x => x = 0) l -> rsum l = 0.
Proof. induction 1; simpl; lra. Qed.

Lemma INR_length_pos {A} (l : list A) : l <> [] -> 0 < INR (List.length l).
Proof.
  destruct l; [congruence|]. intros _. apply lt_0_INR. simpl; lia.
Qed.

Lemma rmean_nonneg l : l <> [] -> Forall (fun x => 0 <= x) l -> 0 <= rmean l.
Proof.
  intros Hne Hl. unfold rmean. apply Rmult_le_pos; [now apply rsum_nonneg|].
  left. apply Rinv_0_lt_compat. now apply INR_length_pos.
Qed.

Lemma rmean_zero l : Forall (fun x => x = 0) l -> rmean l = 0.
Proof. intros Hl. unfold rmean. rewrite (rsum_zero Hl). unfold Rdiv. ring. Qed.

(** *** Groups *)

Section Groups.
Variable A : Type.
Variable key : A -> string.
Variable P : A -> Prop.

Lemma group_insert_ok x g :
  P x -> groups_ok key P g -> groups_ok key P (group_insert (key x) x g).
Proof.
  intros Hx. induction g as [|[k' vs'] g IH]; intros Hg k vs Hin; simpl in Hin.
  - destruct Hin as [H|[]]. inversion H; subst. split; [discriminate|].
    constructor; [split; [assumption | reflexivity] | constructor].
  - destruct (String.compare (key x) k') eqn:Ec.
    + apply String.compare_eq_iff in Ec. destruct Hin as [H|H].
      * inversion H; subst. destruct (Hg (key x) vs' (or_introl eq_refl)) as [Hne Hall].
        split; [now destruct vs'|].
        apply Forall_app; split; [assumption|].
        constructor; [split; [assumption | reflexivity] | constructor].
      * apply Hg. now right.
    + destruct Hin as [H|H].
      * inversion H; subst. split; [discriminate|].
        constructor; [split; [assumption | reflexivity] | constructor].
      * now apply Hg.
    + destruct Hin as [H|H].
      * apply Hg. now left.
      * apply IH; [|assumption]. intros k0 vs0 H0. apply Hg. now right.
Qed.

Lemma fold_groups_ok df g :
  Forall P df -> groups_ok key P g ->
  groups_ok key P (fold_left (fun g row => group_insert (key row) row g) df g).
Proof.
  intros Hdf; revert g. induction Hdf as [|x df Hx _ IH]; intros g Hg; simpl.
  - assumption.
  - apply IH. now apply group_insert_ok.
Qed.

End Groups.

Section GroupKeys.
Variable A : Type.
Variable key : A -> string.

Lemma group_insert_keys x g k :
  In k (map fst (group_insert (key x) x g)) <-> k = key x \/ In k (map fst g).
Proof.
  induction g as [|[k' vs'] g IH]; simpl.
  - intuition congruence.
  - destruct (String.compare (key x) k') eqn:Ec; simpl.
    + apply String.compare_eq_iff in Ec. subst k'. intuition congruence.
    + intuition congruence.
    + rewrite IH. intuition congruence.
Qed.

Lemma fold_groups_keys df g k :
  In k (map fst (fold_left (fun g row => group_insert (key row) row g) df g)) <->
  In k (map key df) \/ In k (map fst g).
Proof.
  revert g. induction df as [|x df IH]; intros g; simpl.
  - split; [auto | intros [ [] | H]; assumption].
  - rewrite IH, group_insert_keys.
    split; [intros [H|[H|H]]; auto | intros [[H|H]|H]; auto].
Qed.

End GroupKeys.

Lemma groupby_ok {A} (key : A -> string) df :
  groups_ok key (fun v => In v df) (groupby key df).
Proof.
  unfold groupby. apply fold_groups_ok.
  - apply Forall_forall. auto.
  - intros k vs [].
Qed.

Lemma groupby_keys {A} (key : A -> string) df k :
  In k (map fst (groupby key df)) <-> In k (map key df).
Proof.
  unfold groupby. rewrite fold_groups_keys. simpl. intuition.
Qed.

Lemma summarize_models df_all name :
  In name (map summary_model (summarize df_all)) <->
  In name (map (fun row => model (forecast row)) df_all).
Proof.
  unfold summarize. rewrite map_map. simpl.
  change (fun x : string * list EvalRow => fst x) with (@fst string (list EvalRow)).
  apply groupby_keys.
Qed.

(** ** Claims about evaluate_forecasts *)

Lemma sample_evaluation :
  evaluate_forecasts [sample_forecasts] sample_rv "SPY" "results" "figs" w0 =
  (Ok (summarize (map (add_errors (2 * 100)) sample_forecasts)),
   extend w0 [Makedirs "results"; Makedirs "figs";
              Savefig "figs" "SPY_forecast_rmse.png";
              ToCsv "results" "SPY_forecast_eval.csv"]).
Proof. reflexivity. Qed.

(** The evaluator returns whenever there is a table and a value. *)
Lemma evaluate_forecasts_returns dfs rv pre t v post a rd fd w :
  dfs <> [] -> rv = pre ++ (t, Some v) :: post -> Forall missing post ->
  fst (evaluate_forecasts dfs rv a rd fd w) =
  Ok (summarize (map (add_errors (v * 100)) (List.concat dfs))).
Proof.
  intros Hdfs -> Hpost. rewrite evaluate_forecasts_run.
  destruct dfs as [|df dfs]; [congruence|]. simpl pd_concat.
  now rewrite (last_present_inv pre t v Hpost).
Qed.

(** C6: when the evaluator returns, the reference is the value of the
    last cell of the realized-volatility series that is not missing,
    times 100; every forecast record of every table gets that one
    scalar as its reference, its absolute and squared errors are taken
    against it, and the summary aggregates exactly these rows. *)
Theorem reference_is_last_realized_volatility
    (dfs : list (list ForecastRecord)) (rv : Series (option R))
    (asset_name rd fd : string) (w w' : World) (summary : list SummaryRow) :
  evaluate_forecasts dfs rv asset_name rd fd w = (Ok summary, w') ->
  exists pre t last_rv post,
    rv = pre ++ (t, Some last_rv) :: post /\ Forall missing post /\
    let tail_rv := last_rv * 100 in
    let df_all := map (add_errors tail_rv) (List.concat dfs) in
    summary = summarize df_all /\
    map forecast df_all = List.concat dfs /\
    Forall (fun row =>
              let f := one_day_ahead_vol_forecast_pct (forecast row) in
              realized_vol_tail_pct row = tail_rv /\
              abs_err row = Rabs (f - tail_rv) /\
              sq_err row = (f - tail_rv) * (f - tail_rv)) df_all.
Proof.
  rewrite evaluate_forecasts_run.
  destruct (pd_concat dfs) as [df|e] eqn:Ec; [|discriminate].
  destruct (last_item (values (dropna rv))) as [v|e] eqn:El; [|discriminate].
  intros H; inversion H; subst; clear H.
  apply pd_concat_ok in Ec. destruct Ec as [_ ->].
  destruct (last_present _ El) as (pre & t & post & Hrv & Hpost).
  exists pre, t, v, post. split; [assumption|]. split; [assumption|].
  cbv zeta. split; [reflexivity|]. split.
  - rewrite map_map. simpl. apply map_id.
  - apply Forall_forall. intros row Hin. apply in_map_iff in Hin.
    destruct Hin as (rec & <- & _). simpl. repeat split; reflexivity.
Qed.

Lemma reference_is_last_witness :
  exists pre t last_rv post,
    sample_rv = pre ++ (t, Some last_rv) :: post /\ Forall missing post /\
    let tail_rv := last_rv * 100 in
    let df_all := map (add_errors tail_rv) (List.concat [sample_forecasts]) in
    summarize (map (add_errors (2 * 100)) sample_forecasts) = summarize df_all /\
    map forecast df_all = List.concat [sample_forecasts] /\
    Forall (fun row =>
              let f := one_day_ahead_vol_forecast_pct (forecast row) in
              realized_vol_tail_pct row = tail_rv /\
              abs_err row = Rabs (f - tail_rv) /\
              sq_err row = (f - tail_rv) * (f - tail_rv)) df_all.
Proof.
  exact (@reference_is_last_realized_volatility [sample_forecasts] sample_rv
           "SPY" "results" "figs" w0 _ _ sample_evaluation).
Defined.

(** C7: in the summary the evaluator returns, the mean absolute error
    and the RMSE of every model are nonnegative; every model of the
    input has a row; and the row of a model whose forecasts all equal
    the reference has mean absolute error 0 and RMSE 0. *)
Theorem errors_nonnegative_and_zero_when_exact
    (dfs : list (list ForecastRecord)) (rv : Series (option R))
    (asset_name rd fd : string) (w w' : World) (summary : list SummaryRow) :
  evaluate_forecasts dfs rv asset_name rd fd w = (Ok summary, w') ->
  Forall (fun row => 0 <= mean_abs_err row /\ 0 <= rmse row) summary /\
  (forall rec, In rec (List.concat dfs) ->
     exists row, In row summary /\ summary_model row = model rec) /\
  forall last_rv name,
    last_item (values (dropna rv)) = Ok last_rv ->
    (forall rec, In rec (List.concat dfs) -> model rec = name ->
                 one_day_ahead_vol_forecast_pct rec = last_rv * 100) ->
    forall row, In row summary -> summary_model row = name ->
                mean_abs_err row = 0 /\ rmse row = 0.
Proof.
  rewrite evaluate_forecasts_run.
  destruct (pd_concat dfs) as [df|e] eqn:Ec; [|discriminate].
  destruct (last_item (values (dropna rv))) as [v|e] eqn:El; [|discriminate].
  intros H; inversion H; subst; clear H.
  apply pd_concat_ok in Ec. destruct Ec as [_ ->].
  set (df_all := map (add_errors (v * 100)) (List.concat dfs)).
  assert (Hg := groupby_ok (fun row => model (forecast row)) df_all).
  split; [|split].
  - apply Forall_forall. intros row Hin. unfold summarize in Hin.
    apply in_map_iff in Hin. destruct Hin as ([k vs] & <- & Hin).
    destruct (Hg k vs Hin) as [Hne Hall]. simpl. split.
    + apply rmean_nonneg.
      * destruct vs; [congruence | discriminate].
      * apply Forall_forall. intros x Hx. apply in_map_iff in Hx.
        destruct Hx as (r & <- & Hr). rewrite Forall_forall in Hall.
        destruct (Hall r Hr) as [Hdf _]. apply in_map_iff in Hdf.
        destruct Hdf as (rec & <- & _). simpl. apply Rabs_pos.
    + apply sqrt_pos.
  - intros rec Hrec.
    assert (Hk : In (model rec) (map summary_model (summarize df_all))).
    { apply summarize_models. apply in_map_iff.
      exists (add_errors (v * 100) rec). split; [reflexivity|].
      unfold df_all. now apply in_map. }
    apply in_map_iff in Hk. destruct Hk as (row & Hm & Hrow). now exists row.
  - intros last_rv name Hl Hexact row Hin Hname.
    inversion Hl; subst last_rv; clear Hl.
    unfold summarize in Hin. apply in_map_iff in Hin.
    destruct Hin as ([k vs] & <- & Hin). simpl in Hname. subst k.
    destruct (Hg name vs Hin) as [Hne Hall]. rewrite Forall_forall in Hall.
    assert (Habs : Forall (fun x => x = 0) (map abs_err vs)).
    { apply Forall_forall. intros x Hx. apply in_map_iff in Hx.
      destruct Hx as (r & <- & Hr). destruct (Hall r Hr) as [Hdf Hkey].
      apply in_map_iff in Hdf. destruct Hdf as (rec & <- & Hrec). simpl in *.
      rewrite (Hexact rec Hrec Hkey). rewrite Rminus_diag. apply Rabs_R0. }
    assert (Hsq : Forall (fun x => x = 0) (map sq_err vs)).
    { apply Forall_forall. intros x Hx. apply in_map_iff in Hx.
      destruct Hx as (r & <- & Hr). destruct (Hall r Hr) as [Hdf Hkey].
      apply in_map_iff in Hdf. destruct Hdf as (rec & <- & Hrec). simpl in *.
      rewrite (Hexact rec Hrec Hkey). unfold sq. ring. }
    simpl. rewrite (rmean_zero Habs), (rmean_zero Hsq). split; [reflexivity | apply sqrt_0].
Qed.

Lemma errors_nonnegative_witness :
  Forall (fun row => 0 <= mean_abs_err row /\ 0 <= rmse row)
    (summarize (map (add_errors (2 * 100)) sample_forecasts)).
Proof.
  exact (proj1 (@errors_nonnegative_and_zero_when_exact [sample_forecasts] sample_rv
                  "SPY" "results" "figs" w0 _ _ sample_evaluation)).
Defined.

(** C10: when the realized-volatility series holds no value that is not
    missing (it is empty, or all of it is missing), the evaluator, given
    its forecast tables, fails at the last element of the cleaned series
    with an IndexError that nothing catches: it returns no summary, and
    writes neither the figure nor the table, only the two directories. *)
Theorem all_missing_realized_volatility_fails
    (dfs : list (list ForecastRecord)) (rv : Series (option R))
    (asset_name rd fd : string) (w : World) :
  dfs <> [] ->
  Forall missing rv ->
  dropna rv = [] /\
  last_item (values (dropna rv)) = Raise IndexError /\
  evaluate_forecasts dfs rv asset_name rd fd w =
    (Raise IndexError, extend w [Makedirs rd; Makedirs fd]).
Proof.
  intros Hdfs Hrv. rewrite evaluate_forecasts_run, (dropna_all_missing Hrv).
  destruct dfs as [|df dfs]; [congruence|].
  repeat split; reflexivity.
Qed.

Lemma all_missing_witness :
  evaluate_forecasts [sample_forecasts] [(1%Z, None); (2%Z, None)]
    "SPY" "results" "figs" w0 =
    (Raise IndexError, extend w0 [Makedirs "results"; Makedirs "figs"]).
Proof.
  apply (@all_missing_realized_volatility_fails [sample_forecasts]
           [(1%Z, None); (2%Z, None)] "SPY" "results" "figs" w0).
  - discriminate.
  - repeat constructor.
Defined.

(** ** fit_hmm_regimes *)

Section RegimeFacts.
Context {settings : GaussianHMM.Settings}.

Lemma fit_transform_run X w :
  fit_transform X w =
  (match X with
   | [] => Raise ValueError
   | _ :: _ => Ok (combine (standardize (map fst X)) (standardize (map snd X)))
   end, extend w [ScalerFit X]).
Proof. unfold fit_transform. rewrite bind_emit. now destruct X. Qed.

Lemma hmm_fit_run hmm X w :
  GaussianHMM.fit hmm X w =
  (if (GaussianHMM.n_components hmm <? 1)%nat then Raise ConfigError
   else if (List.length X <? GaussianHMM.n_components hmm)%nat then Raise DataError
   else GaussianHMM.em_loop (GaussianHMM.n_iter hmm)
          (GaussianHMM.init_guess
             match GaussianHMM.random_state hmm with
             | Some seed => seed
             | None => np_random w
             end (GaussianHMM.n_components hmm) X) X None,
   extend w [HmmFit (GaussianHMM.n_components hmm) X]).
Proof.
  unfold GaussianHMM.fit. rewrite bind_emit.
  destruct (GaussianHMM.n_components hmm <? 1)%nat; [reflexivity|].
  destruct (List.length X <? GaussianHMM.n_components hmm)%nat; [reflexivity|].
  reflexivity.
Qed.

Lemma fit_hmm_regimes_run returns n a rd fd w :
  fit_hmm_regimes returns n a rd fd w =
  match raw_features returns with
  | [] => (Raise ValueError, extend w [Makedirs rd; Makedirs fd; ScalerFit []])
  | _ :: _ =>
      let X := scaled_features returns in
      let w1 := extend w [Makedirs rd; Makedirs fd;
                          ScalerFit (raw_features returns); HmmFit n X] in
      if (n <? 1)%nat then (Raise ConfigError, w1)
      else if (List.length X <? n)%nat then (Raise DataError, w1)
      else
        match GaussianHMM.em_loop 200 (GaussianHMM.init_guess 42%Z n X) X None with
        | Raise e => (Raise e, w1)
        | Ok fitted =>
            match GaussianHMM.predict fitted X with
            | Raise e => (Raise e, w1)
            | Ok hidden_states =>
                match GaussianHMM.predict_proba fitted X with
                | Raise e => (Raise e, w1)
                | Ok posterior =>
                    (Ok (regime_result returns n fitted hidden_states posterior),
                     extend w1 [Savefig fd (a +++ "_regime_probs.png");
                                Savefig fd (a +++ "_regime_scatter.png");
                                Savefig fd (a +++ "_transition_matrix.png")])
                end
            end
        end
  end.
Proof.
  unfold fit_hmm_regimes, makedirs, savefig.
  rewrite !bind_emit, !extend_extend. simpl app.
  fold (raw_features returns).
  unfold bind at 1. rewrite fit_transform_run, extend_extend. simpl app.
  destruct (raw_features returns) as [|x raw] eqn:Eraw; [reflexivity|].
  rewrite <- Eraw. fold (scaled_features returns). cbv zeta.
  set (X := scaled_features returns).
  unfold bind at 1. rewrite hmm_fit_run, extend_extend. simpl app.
  simpl GaussianHMM.n_components. simpl GaussianHMM.n_iter.
  simpl GaussianHMM.random_state.
  destruct (n <? 1)%nat; [reflexivity|].
  destruct (List.length X <? n)%nat; [reflexivity|].
  destruct (GaussianHMM.em_loop 200 _ X None) as [fitted|e]; [|reflexivity].
  destruct (GaussianHMM.predict fitted X) as [hs|e];
    [rewrite bind_lift_ok | now rewrite bind_lift_raise].
  destruct (GaussianHMM.predict_proba fitted X) as [pp|e];
    [rewrite bind_lift_ok | now rewrite bind_lift_raise].
  rewrite !bind_emit, !extend_extend. reflexivity.
Qed.

End RegimeFacts.

(** ** Standardization *)

Lemma rsum_map_div {A} (f : A -> R) c l :
  rsum (map (fun x => f x / c) l) = rsum (map f l) / c.
Proof.
  induction l as [|x l IH]; simpl; [unfold Rdiv; ring|].
  rewrite IH. unfold Rdiv; ring.
Qed.

Lemma rmean_map_div {A} (f : A -> R) c l :
  rmean (map (fun x => f x / c) l) = rmean (map f l) / c.
Proof.
  unfold rmean. rewrite rsum_map_div, !length_map. unfold Rdiv; ring.
Qed.

Lemma rsum_map_minus c l :
  rsum (map (fun x => x - c) l) = rsum l - INR (List.length l) * c.
Proof.
  induction l as [|x l IH]; [simpl; ring|].
  change (rsum (map (fun x => x - c) (x :: l)))
    with (x - c + rsum (map (fun x => x - c) l)).
  change (rsum (x :: l)) with (x + rsum l).
  change (List.length (x :: l)) with (S (List.length l)).
  rewrite IH, S_INR. ring.
Qed.

Lemma rmean_centered l : l <> [] -> rmean (map (fun x => x - rmean l) l) = 0.
Proof.
  intros Hne. assert (Hn := INR_length_pos Hne).
  unfold rmean at 1. rewrite rsum_map_minus, length_map. unfold rmean.
  field. intros E; lra.
Qed.

Lemma rmean_standardize l : l <> [] -> rmean (standardize l) = 0.
Proof.
  intros Hne. unfold standardize.
  rewrite (rmean_map_div (fun x => x - rmean l)), (rmean_centered Hne).
  unfold Rdiv; ring.
Qed.

Lemma sq_nonneg x : 0 <= sq x.
Proof. unfold sq. nra. Qed.

Lemma variance_nonneg l : 0 <= variance l.
Proof.
  unfold variance. destruct l as [|x l].
  - unfold rmean; simpl. unfold Rdiv. rewrite Rmult_0_l. lra.
  - apply rmean_nonneg; [discriminate|].
    apply Forall_forall. intros y Hy. apply in_map_iff in Hy.
    destruct Hy as (z & <- & _). apply sq_nonneg.
Qed.

Lemma variance_nil : variance [] = 0.
Proof. unfold variance, rmean; simpl. unfold Rdiv. now rewrite Rmult_0_l. Qed.

Lemma col_scale_nonconstant l :
  variance l <> 0 -> col_scale l = sqrt (variance l) /\ 0 < col_scale l.
Proof.
  intros Hv. assert (Hpos : 0 < variance l) by (pose proof (variance_nonneg l); lra).
  assert (Hs : 0 < sqrt (variance l)) by now apply sqrt_lt_R0.
  unfold col_scale. destruct (Req_dec_T (sqrt (variance l)) 0) as [E|_]; [lra|].
  split; [reflexivity | assumption].
Qed.

Lemma col_scale_constant l : variance l = 0 -> col_scale l = 1.
Proof.
  intros Hv. unfold col_scale. rewrite Hv, sqrt_0.
  destruct (Req_dec_T 0 0) as [_|N]; [reflexivity | congruence].
Qed.

Lemma variance_standardize l : variance l <> 0 -> variance (standardize l) = 1.
Proof.
  intros Hv.
  assert (Hne : l <> []) by (intros ->; apply Hv, variance_nil).
  destruct (col_scale_nonconstant Hv) as [Hs Hpos].
  unfold variance at 1. rewrite (rmean_standardize Hne).
  unfold standardize. rewrite map_map.
  rewrite (map_ext _ (fun x => sq (x - rmean l) / (col_scale l * col_scale l))).
  2:{ intros x. unfold sq. field. intros E; lra. }
  rewrite (rmean_map_div (fun x => sq (x - rmean l))).
  fold (variance l). rewrite Hs, sqrt_sqrt by apply variance_nonneg.
  field. assumption.
Qed.

Lemma raw_features_eq returns :
  raw_features returns = map (fun v => (v, sq v)) (values (dropna returns)).
Proof.
  unfold raw_features, return_frame, values. now rewrite !map_map.
Qed.

Lemma combine_map_map {A B C} (f : A -> B) (g : A -> C) l :
  combine (map f l) (map g l) = map (fun x => (f x, g x)) l.
Proof. induction l as [|x l IH]; simpl; [reflexivity | now rewrite IH]. Qed.

(** The standardized features, row by row. *)
Lemma scaled_features_rows returns :
  let rets := values (dropna returns) in
  let sqs := map sq rets in
  scaled_features returns =
  map (fun v => ((v - rmean rets) / col_scale rets,
                 (sq v - rmean sqs) / col_scale sqs)) rets.
Proof.
  intros rets sqs. unfold scaled_features. rewrite raw_features_eq.
  fold rets. rewrite !map_map. simpl. rewrite map_id. fold sqs.
  unfold standardize. rewrite (map_map (fun x => sq x)).
  exact (combine_map_map (fun v => (v - rmean rets) / col_scale rets)
           (fun v => (sq v - rmean sqs) / col_scale sqs) rets).
Qed.

Lemma scaled_features_columns returns :
  map fst (scaled_features returns) = standardize (values (dropna returns)) /\
  map snd (scaled_features returns) = standardize (map sq (values (dropna returns))).
Proof.
  rewrite scaled_features_rows. cbv zeta. rewrite !map_map. simpl.
  split; [reflexivity|]. unfold standardize. now rewrite map_map.
Qed.

Lemma rsum_zero_inv l : Forall (fun x => 0 <= x) l -> rsum l = 0 -> Forall (fun x => x = 0) l.
Proof.
  induction 1 as [|x l Hx Hl IH]; simpl; intros Hs; [constructor|].
  pose proof (rsum_nonneg Hl) as Hn.
  constructor; [lra | apply IH; lra].
Qed.

(** A column of variance zero is constant: every entry is the mean. *)
Lemma variance_zero_constant l : variance l = 0 -> Forall (fun x => x = rmean l) l.
Proof.
  intros Hv. destruct l as [|x0 l0]; [constructor|].
  set (l := x0 :: l0) in *.
  assert (Hne : l <> []) by discriminate.
  pose proof (INR_length_pos Hne) as Hn.
  assert (Hsq : Forall (fun x => 0 <= x) (map (fun x => sq (x - rmean l)) l)).
  { apply Forall_forall. intros y Hy. apply in_map_iff in Hy.
    destruct Hy as (z & <- & _). apply sq_nonneg. }
  assert (Hs : rsum (map (fun x => sq (x - rmean l)) l) = 0).
  { unfold variance, rmean at 1 in Hv. rewrite length_map in Hv.
    apply (f_equal (fun z => z * INR (List.length l))) in Hv.
    unfold Rdiv in Hv. rewrite Rmult_assoc, Rinv_l, Rmult_1_r, Rmult_0_l in Hv;
      [assumption | intros E; lra]. }
  pose proof (rsum_zero_inv Hsq Hs) as Hz.
  apply Forall_forall. intros x Hx. rewrite Forall_forall in Hz.
  assert (H0 : sq (x - rmean l) = 0).
  { apply Hz. apply in_map_iff. now exists x. }
  unfold sq in H0. apply Rmult_integral in H0. lra.
Qed.

(** The scaler only centres a constant column: it becomes all zeros. *)
Lemma standardize_constant l :
  variance l = 0 -> Forall (fun z => z = 0) (standardize l) /\ variance (standardize l) = 0.
Proof.
  intros Hv. pose proof (variance_zero_constant Hv) as Hc.
  assert (Hz : Forall (fun z => z = 0) (standardize l)).
  { unfold standardize. apply Forall_forall. intros z Hz. apply in_map_iff in Hz.
    destruct Hz as (x & <- & Hx). rewrite Forall_forall in Hc.
    rewrite <- (Hc x Hx). unfold Rdiv. ring. }
  split; [assumption|].
  unfold variance. apply rmean_zero. apply Forall_forall. intros y Hy.
  apply in_map_iff in Hy. destruct Hy as (z & <- & Hin).
  rewrite Forall_forall in Hz.
  assert (Hm : rmean (standardize l) = 0).
  { apply rmean_zero. apply Forall_forall. exact Hz. }
  rewrite Hm, (Hz z Hin). unfold sq. ring.
Qed.

Lemma sample_features : scaled_features sample_returns = sample_X.
Proof.
  rewrite scaled_features_rows. cbv zeta.
  change (values (dropna sample_returns)) with [1; -1].
  assert (Hm : rmean [1; -1] = 0) by (unfold rmean; simpl; field).
  assert (Hv : variance [1; -1] = 1).
  { unfold variance. rewrite Hm. unfold rmean, sq; simpl. field. }
  assert (Hs : col_scale [1; -1] = 1).
  { destruct (@col_scale_nonconstant [1; -1]) as [E _]; [rewrite Hv; lra|].
    now rewrite E, Hv, sqrt_1. }
  assert (Hm2 : rmean (map sq [1; -1]) = 1) by (unfold rmean, sq; simpl; field).
  assert (Hv2 : variance (map sq [1; -1]) = 0).
  { unfold variance. rewrite Hm2. unfold rmean, sq; simpl. field. }
  rewrite Hm, Hs, Hm2, (col_scale_constant Hv2).
  unfold sample_X, sq. simpl.
  repeat (apply f_equal2; [apply f_equal2; field | ]). reflexivity.
Qed.

Lemma varied_returns_variances :
  variance (values (dropna varied_returns)) = 8 / 3 /\
  variance (map sq (values (dropna varied_returns))) = 128 / 9.
Proof.
  change (values (dropna varied_returns)) with [1; -1; 3].
  assert (Hm : rmean [1; -1; 3] = 1) by (unfold rmean; simpl; field).
  assert (Hm2 : rmean (map sq [1; -1; 3]) = 11 / 3) by (unfold rmean, sq; simpl; field).
  split; unfold variance; [rewrite Hm | rewrite Hm2]; unfold rmean, sq; simpl; field.
Qed.

(** C8, as stated, fails: the two returns of the sample series are 1 and
    -1, so the column of squared returns is constant; the scaler centres
    it and leaves it all zeros, with variance 0 and not 1. *)
Lemma constant_squares_have_no_unit_variance :
  map snd (raw_features sample_returns) = [sq 1; sq (-1)] /\
  variance (map snd (raw_features sample_returns)) = 0 /\
  map snd (scaled_features sample_returns) = [0; 0] /\
  variance (map snd (scaled_features sample_returns)) = 0 /\
  variance (map snd (scaled_features sample_returns)) <> 1.
Proof.
  assert (Hv : variance [0; 0] = 0).
  { unfold variance, rmean, sq; simpl. field. }
  rewrite sample_features. simpl map.
  split; [reflexivity|]. split; [|split; [reflexivity|split] ].
  - unfold variance, rmean, sq; simpl. field.
  - exact Hv.
  - rewrite Hv. lra.
Qed.

(** C8, amended: the regime detector hands to the HMM fit one row per
    day that has a return: the return and its square, each standardized
    with the mean and the deviation of its whole column.  The scaler is
    fit once, on the full matrix, before the HMM fit starts, and nothing
    after it but figures is produced.  Both columns have mean zero; a
    column that is not constant has variance one; a constant column is
    only centred: it becomes all zeros, with variance zero. *)
Theorem features_are_standardized_once
    (settings : GaussianHMM.Settings) (returns : Series (option R)) (n_states : nat)
    (asset_name rd fd : string) (w : World) :
  dropna returns <> [] ->
  let rets := values (dropna returns) in
  let sqs := map sq rets in
  let X := map (fun v => ((v - rmean rets) / col_scale rets,
                          (sq v - rmean sqs) / col_scale sqs)) rets in
  (exists figures,
     snd (fit_hmm_regimes returns n_states asset_name rd fd w) =
       extend w ([Makedirs rd; Makedirs fd;
                  ScalerFit (map (fun v => (v, sq v)) rets);
                  HmmFit n_states X] ++ figures) /\
     Forall is_savefig figures) /\
  List.length X = List.length (dropna returns) /\
  rmean (map fst X) = 0 /\
  rmean (map snd X) = 0 /\
  (variance rets <> 0 ->
     col_scale rets = sqrt (variance rets) /\ variance (map fst X) = 1) /\
  (variance sqs <> 0 ->
     col_scale sqs = sqrt (variance sqs) /\ variance (map snd X) = 1) /\
  (variance rets = 0 ->
     col_scale rets = 1 /\ Forall (fun z => z = 0) (map fst X) /\
     variance (map fst X) = 0) /\
  (variance sqs = 0 ->
     col_scale sqs = 1 /\ Forall (fun z => z = 0) (map snd X) /\
     variance (map snd X) = 0).
Proof.
  intros Hne rets sqs X.
  assert (HX : scaled_features returns = X) by apply scaled_features_rows.
  destruct (scaled_features_columns returns) as [Hfst Hsnd].
  rewrite HX in Hfst, Hsnd. fold rets in Hfst. fold rets sqs in Hsnd.
  assert (Hrets : rets <> []).
  { unfold rets, values. destruct (dropna returns); [congruence | discriminate]. }
  assert (Hsqs : sqs <> []).
  { unfold sqs. destruct rets; [congruence | discriminate]. }
  split; [|split; [|split; [|split; [|split; [|split; [|split] ] ] ] ] ].
  - rewrite fit_hmm_regimes_run, HX, raw_features_eq. fold rets.
    destruct rets as [|r0 rets']; [congruence|].
    change (map (fun v => (v, sq v)) (r0 :: rets'))
      with ((r0, sq r0) :: map (fun v => (v, sq v)) rets').
    cbv iota beta zeta.
    destruct (n_states <? 1)%nat; [exists []; split; [reflexivity | constructor] |].
    destruct (List.length X <? n_states)%nat;
      [exists []; split; [reflexivity | constructor] |].
    destruct (GaussianHMM.em_loop _ _ _ _) as [fitted|e];
      [|exists []; split; [reflexivity | constructor] ].
    destruct (GaussianHMM.predict _ _) as [hs|e];
      [|exists []; split; [reflexivity | constructor] ].
    destruct (GaussianHMM.predict_proba _ _) as [pp|e];
      [|exists []; split; [reflexivity | constructor] ].
    eexists. rewrite extend_extend. split; [reflexivity|].
    repeat constructor.
  - unfold X, rets, values. now rewrite !length_map.
  - rewrite Hfst. now apply rmean_standardize.
  - rewrite Hsnd. now apply rmean_standardize.
  - intros Hv. split; [apply (col_scale_nonconstant Hv)|].
    rewrite Hfst. now apply variance_standardize.
  - intros Hv. split; [apply (col_scale_nonconstant Hv)|].
    rewrite Hsnd. now apply variance_standardize.
  - intros Hv. split; [now apply col_scale_constant|].
    rewrite Hfst. now apply standardize_constant.
  - intros Hv. split; [now apply col_scale_constant|].
    rewrite Hsnd. now apply standardize_constant.
Qed.

Lemma features_are_standardized_witness :
  rmean (map fst (scaled_features varied_returns)) = 0 /\
  rmean (map snd (scaled_features varied_returns)) = 0 /\
  variance (map fst (scaled_features varied_returns)) = 1 /\
  variance (map snd (scaled_features varied_returns)) = 1.
Proof.
  destruct varied_returns_variances as [V1 V2].
  destruct (@features_are_standardized_once sample_settings varied_returns 2
              "SPY" "results" "figs" w0)
    as (_ & _ & M1 & M2 & H1 & H2 & _); [discriminate|].
  rewrite scaled_features_rows. cbv zeta.
  split; [exact M1|]. split; [exact M2|]. split.
  - apply H1. rewrite V1. lra.
  - apply H2. rewrite V2. lra.
Defined.

(** ** The EM engine keeps its probability vectors normalised *)

Lemma normalize_sum v p : GaussianHMM.normalize v = Ok p -> rsum p = 1.
Proof.
  unfold GaussianHMM.normalize.
  destruct (Req_dec_T (rsum v) 0) as [E|N]; [discriminate|].
  intros H; inversion H; subst; clear H.
  rewrite (rsum_map_div (fun x => x)), map_id. now field.
Qed.

Lemma map_result_ok {A B} (f : A -> result B) (P : B -> Prop) l l' :
  GaussianHMM.map_result f l = Ok l' ->
  (forall a b, In a l -> f a = Ok b -> P b) ->
  Forall P l' /\ List.length l' = List.length l.
Proof.
  revert l'. induction l as [|a l IH]; intros l'; simpl.
  - intros H _; inversion H; subst. split; [constructor | reflexivity].
  - destruct (f a) as [b|e] eqn:Ea; [|discriminate].
    destruct (GaussianHMM.map_result f l) as [bs|e]; [|discriminate].
    intros H Hf; inversion H; subst; clear H.
    destruct (IH bs eq_refl) as [Hall Hlen]; [intros; eapply Hf; eauto|].
    split; [constructor; [eapply Hf; eauto | assumption] | simpl; now rewrite Hlen].
Qed.

Lemma zip_with_length {A B C} (f : A -> B -> C) u v :
  List.length (GaussianHMM.zip_with f u v) = Nat.min (List.length u) (List.length v).
Proof.
  revert v. induction u as [|a u IH]; intros [|b v]; simpl; auto.
Qed.

Lemma forward_from_length m alpha xs :
  List.length (GaussianHMM.forward_from m alpha xs) = List.length xs.
Proof.
  revert alpha. induction xs as [|x xs IH]; intros alpha; simpl; auto.
Qed.

Lemma forward_length m X : List.length (GaussianHMM.forward m X) = List.length X.
Proof.
  destruct X as [|x xs]; simpl; [reflexivity|]. now rewrite forward_from_length.
Qed.

Lemma backward_length m X : List.length (GaussianHMM.backward m X) = List.length X.
Proof.
  induction X as [|x xs IH]; [reflexivity|].
  simpl. destruct xs as [|x' xs']; [reflexivity|].
  simpl List.length in *. now rewrite IH.
Qed.

(** Every posterior the engine returns sums to one, and there is one
    per observation. *)
Lemma posteriors_normalised m X gammas :
  GaussianHMM.posteriors m X = Ok gammas ->
  Forall (fun g => rsum g = 1) gammas /\ List.length gammas = List.length X.
Proof.
  unfold GaussianHMM.posteriors. intros H.
  destruct (map_result_ok _ (fun g => rsum g = 1) _ H) as [Hall Hlen].
  - intros a b _. apply normalize_sum.
  - split; [assumption|].
    rewrite Hlen, zip_with_length, forward_length, backward_length.
    apply Nat.min_id.
Qed.

Section EngineFacts.
Context {settings : GaussianHMM.Settings}.

Lemma em_step_row_stochastic m X m' :
  GaussianHMM.em_step m X = Ok m' -> row_stochastic (GaussianHMM.transmat_ m').
Proof.
  unfold GaussianHMM.em_step.
  destruct (GaussianHMM.posteriors m X) as [gammas|e]; [|discriminate].
  destruct (GaussianHMM.transition_counts _ _ _ _) as [counts|e]; [|discriminate].
  destruct (GaussianHMM.map_result GaussianHMM.normalize counts) as [A|e] eqn:EA;
    [|discriminate].
  destruct (GaussianHMM.map_result _ (seq _ _)) as [moments|e]; [|discriminate].
  intros H; inversion H; subst; clear H. simpl.
  apply (map_result_ok _ (fun row => rsum row = 1) _ EA).
  intros a b _. apply normalize_sum.
Qed.

Lemma em_loop_row_stochastic budget : forall m X prev m',
  GaussianHMM.em_loop budget m X prev = Ok m' ->
  row_stochastic (GaussianHMM.transmat_ m) ->
  row_stochastic (GaussianHMM.transmat_ m').
Proof.
  induction budget as [|budget IH]; intros m X prev m'; simpl.
  - intros H; inversion H; subst. auto.
  - destruct (GaussianHMM.em_step m X) as [m1|e] eqn:E1; [|discriminate].
    apply em_step_row_stochastic in E1. intros H _.
    destruct prev as [ll_prev|].
    + destruct (Rlt_dec _ _); [inversion H; subst; assumption|].
      exact (IH _ _ _ _ H E1).
    + exact (IH _ _ _ _ H E1).
Qed.

(** A fit with a budget of at least one iteration ends on the result
    of an M-step, whatever the initial guess was. *)
Lemma em_loop_result_row_stochastic budget m X prev m' :
  GaussianHMM.em_loop (S budget) m X prev = Ok m' ->
  row_stochastic (GaussianHMM.transmat_ m').
Proof.
  simpl. destruct (GaussianHMM.em_step m X) as [m1|e] eqn:E1; [|discriminate].
  apply em_step_row_stochastic in E1. intros H.
  destruct prev as [ll_prev|].
  - destruct (Rlt_dec _ _); [inversion H; subst; assumption|].
    exact (em_loop_row_stochastic _ _ _ _ H E1).
  - exact (em_loop_row_stochastic _ _ _ _ H E1).
Qed.

(** Once a model is a fixed point of the EM iteration, the loop returns
    it, whatever the budget. *)
Lemma em_loop_fixed_point budget : forall m X prev,
  GaussianHMM.em_step m X = Ok m -> GaussianHMM.em_loop budget m X prev = Ok m.
Proof.
  induction budget as [|budget IH]; intros m X prev Hfix; simpl; [reflexivity|].
  rewrite Hfix. destruct prev as [ll_prev|].
  - destruct (Rlt_dec _ _); [reflexivity | now apply IH].
  - now apply IH.
Qed.

End EngineFacts.

Lemma gauss_pdf_pos mu S x : 0 < GaussianHMM.det S -> 0 < GaussianHMM.gauss_pdf mu S x.
Proof.
  intros Hd. unfold GaussianHMM.gauss_pdf. destruct S as [[a b] [c d]].
  apply Rdiv_lt_0_compat; [apply exp_pos|].
  apply Rmult_lt_0_compat; [|now apply sqrt_lt_R0].
  pose proof PI_RGT_0. lra.
Qed.

(** ** The shape of the fitted model *)

Lemma zip_with_In {A B C} (f : A -> B -> C) u v c :
  In c (GaussianHMM.zip_with f u v) -> exists a b, In a u /\ In b v /\ c = f a b.
Proof.
  revert v. induction u as [|a u IH]; intros [|b v]; simpl; try tauto.
  intros [<-|H].
  - exists a, b. auto.
  - destruct (IH _ H) as (a' & b' & Ha & Hb & ->). exists a', b'. auto.
Qed.

Lemma normalize_length v p :
  GaussianHMM.normalize v = Ok p -> List.length p = List.length v.
Proof.
  unfold GaussianHMM.normalize. destruct (Req_dec_T (rsum v) 0); [discriminate|].
  intros H; injection H as <-. apply length_map.
Qed.

Lemma normalize_matrix_shape K a b :
  GaussianHMM.normalize_matrix a = Ok b -> square K a -> square K b.
Proof.
  unfold GaussianHMM.normalize_matrix.
  destruct (Req_dec_T _ 0); [discriminate|].
  intros H; injection H as <-. intros [Hlen Hrows]. split.
  - now rewrite length_map.
  - apply Forall_forall. intros row Hin. apply in_map_iff in Hin.
    destruct Hin as (row0 & <- & Hin0). rewrite length_map.
    rewrite Forall_forall in Hrows. now apply Hrows.
Qed.

Lemma repeat_square K (x : R) : square K (repeat (repeat x K) K).
Proof.
  split; [apply repeat_length|]. apply Forall_forall. intros row Hin.
  apply repeat_spec in Hin. subst row. apply repeat_length.
Qed.

Lemma madd_square K a b : square K a -> square K b -> square K (GaussianHMM.madd a b).
Proof.
  intros [Ha Hra] [Hb Hrb]. unfold GaussianHMM.madd. split.
  - rewrite zip_with_length. lia.
  - apply Forall_forall. intros row Hin. apply zip_with_In in Hin.
    destruct Hin as (ra & rb & Hina & Hinb & ->).
    rewrite Forall_forall in Hra, Hrb. unfold GaussianHMM.vadd.
    rewrite zip_with_length, (Hra _ Hina), (Hrb _ Hinb). lia.
Qed.

Section Shapes.
Variable K : nat.
Variable m : GaussianHMM.Model.
Hypothesis Hm : has_states K m.

Lemma emission_length x : List.length (GaussianHMM.emission m x) = K.
Proof.
  pose proof Hm as (_ & _ & Hmu & Hcov). unfold GaussianHMM.emission.
  rewrite zip_with_length. lia.
Qed.

Lemma forward_from_shape alpha xs :
  Forall (fun a => List.length a = K) (GaussianHMM.forward_from m alpha xs).
Proof.
  revert alpha. induction xs as [|x xs IH]; intros alpha; simpl; constructor.
  - unfold GaussianHMM.vmul, GaussianHMM.vecmat.
    rewrite zip_with_length, length_map, length_seq, emission_length.
    pose proof Hm as (Hpi & _). lia.
  - apply IH.
Qed.

Lemma forward_shape X :
  Forall (fun a => List.length a = K) (GaussianHMM.forward m X).
Proof.
  destruct X as [|x xs]; simpl; constructor.
  - unfold GaussianHMM.vmul. rewrite zip_with_length, emission_length.
    pose proof Hm as (Hpi & _). lia.
  - apply forward_from_shape.
Qed.

Lemma backward_shape X :
  Forall (fun b => List.length b = K) (GaussianHMM.backward m X).
Proof.
  induction X as [|x xs IH]; [constructor|].
  simpl. destruct xs as [|x' xs'].
  - constructor; [|constructor]. rewrite repeat_length. now pose proof Hm as (Hpi & _).
  - constructor; [|exact IH].
    unfold GaussianHMM.matvec. rewrite length_map. now pose proof Hm as (_ & [HA _] & _).
Qed.

Lemma posteriors_shape X gammas :
  GaussianHMM.posteriors m X = Ok gammas ->
  Forall (fun g => List.length g = K) gammas.
Proof.
  unfold GaussianHMM.posteriors. intros H.
  apply (map_result_ok _ (fun g => List.length g = K) _ H).
  intros a b Hin Hn. apply normalize_length in Hn. rewrite Hn.
  apply zip_with_In in Hin. destruct Hin as (al & be & Hal & Hbe & ->).
  pose proof (forward_shape X) as HF. pose proof (backward_shape X) as HB.
  rewrite Forall_forall in HF, HB. unfold GaussianHMM.vmul.
  rewrite zip_with_length, (HF _ Hal), (HB _ Hbe). lia.
Qed.

Lemma xi_shape alpha x beta M :
  List.length alpha = K -> List.length beta = K ->
  GaussianHMM.xi m alpha x beta = Ok M -> square K M.
Proof.
  intros Hal Hbe H. unfold GaussianHMM.xi in H.
  apply (normalize_matrix_shape H).
  pose proof Hm as (_ & [HA Hrows] & _). split.
  - rewrite zip_with_length. lia.
  - apply Forall_forall. intros row Hin. apply zip_with_In in Hin.
    destruct Hin as (ai & row0 & _ & Hrow0 & ->).
    rewrite Forall_forall in Hrows. unfold GaussianHMM.vmul.
    rewrite !zip_with_length, (Hrows _ Hrow0), emission_length, Hbe. lia.
Qed.

Lemma transition_counts_shape alphas : forall xs betas C,
  Forall (fun a => List.length a = K) alphas ->
  Forall (fun b => List.length b = K) betas ->
  GaussianHMM.transition_counts m alphas xs betas = Ok C -> square K C.
Proof.
  assert (Hz : square K (repeat (repeat 0 (List.length (GaussianHMM.startprob_ m)))
                           (List.length (GaussianHMM.startprob_ m)))).
  { pose proof Hm as (Hpi & _). rewrite Hpi. apply repeat_square. }
  induction alphas as [|alpha alphas IH]; intros xs betas C Ha Hb; simpl.
  - intros H; injection H as <-. exact Hz.
  - destruct xs as [|x xs]; [intros H; injection H as <-; exact Hz|].
    destruct betas as [|beta betas]; [intros H; injection H as <-; exact Hz|].
    apply Forall_cons_iff in Ha, Hb. destruct Ha as [Hal Has], Hb as [Hbl Hbs].
    destruct (GaussianHMM.xi m alpha x beta) as [xi_t|e] eqn:Exi; [|discriminate].
    destruct (GaussianHMM.transition_counts m alphas xs betas) as [rest|e] eqn:Er;
      [|discriminate].
    intros H; injection H as <-.
    apply madd_square; [exact (@xi_shape alpha x beta xi_t Hal Hbl Exi) | exact (IH _ _ _ Has Hbs Er)].
Qed.

End Shapes.

Section FitShape.
Context {settings : GaussianHMM.Settings}.

Lemma em_step_shape K m X m' :
  X <> [] -> has_states K m -> GaussianHMM.em_step m X = Ok m' -> has_states K m'.
Proof.
  intros HX Hm. unfold GaussianHMM.em_step.
  destruct (GaussianHMM.posteriors m X) as [gammas|e] eqn:Eg; [|discriminate].
  destruct (GaussianHMM.transition_counts _ _ _ _) as [counts|e] eqn:Ec; [|discriminate].
  destruct (GaussianHMM.map_result GaussianHMM.normalize counts) as [A|e] eqn:EA;
    [|discriminate].
  destruct (GaussianHMM.map_result _ (seq _ _)) as [moments|e] eqn:Em; [|discriminate].
  intros H; injection H as <-.
  pose proof (@posteriors_shape K m Hm X gammas Eg) as Hg.
  destruct (posteriors_normalised _ _ Eg) as [_ Hlen].
  assert (Hc : square K counts).
  { refine (@transition_counts_shape K m Hm _ _ _ _ (@forward_shape K m Hm X) _ Ec).
    pose proof (@backward_shape K m Hm X) as HB.
    destruct (GaussianHMM.backward m X) as [|b bs]; [constructor|].
    now apply Forall_cons_iff in HB. }
  destruct Hc as [Hclen Hcrows].
  destruct (map_result_ok _ (fun row => List.length row = K) _ EA) as [HArows HAlen].
  { intros a b Hin Hn. apply normalize_length in Hn. rewrite Hn.
    rewrite Forall_forall in Hcrows. now apply Hcrows. }
  destruct (map_result_ok _ (fun _ => True) _ Em) as [_ Hmlen]; [auto|].
  rewrite length_seq in Hmlen.
  destruct Hm as (Hpi & _).
  unfold has_states, square; simpl. repeat split.
  - destruct gammas as [|g gs].
    + destruct X; [congruence | discriminate].
    + now inversion Hg.
  - lia.
  - assumption.
  - now rewrite length_map, Hmlen.
  - now rewrite length_map, Hmlen.
Qed.

Lemma em_loop_shape K budget : forall m X prev m',
  X <> [] -> has_states K m -> GaussianHMM.em_loop budget m X prev = Ok m' ->
  has_states K m'.
Proof.
  induction budget as [|budget IH]; intros m X prev m' HX Hm; simpl.
  - intros H; injection H as <-. exact Hm.
  - destruct (GaussianHMM.em_step m X) as [m1|e] eqn:E1; [|discriminate].
    pose proof (em_step_shape HX Hm E1) as H1.
    destruct prev as [ll_prev|].
    + destruct (Rlt_dec _ _); [intros H; injection H as <-; exact H1|].
      now apply IH.
    + now apply IH.
Qed.

(** Two iterations are enough when the first one lands on a fixed
    point: the loop returns it, whatever the likelihoods. *)
Lemma em_loop_reaches_fixed_point budget m m1 X :
  GaussianHMM.em_step m X = Ok m1 -> GaussianHMM.em_step m1 X = Ok m1 ->
  GaussianHMM.em_loop (S (S budget)) m X None = Ok m1.
Proof.
  intros H0 H1. cbn [GaussianHMM.em_loop]. rewrite H0, H1.
  destruct (Rlt_dec _ _); [reflexivity|]. now apply em_loop_fixed_point.
Qed.

End FitShape.

(** ** A fit of two states *)

Lemma normalize_pair a b :
  a = b -> 0 < a -> GaussianHMM.normalize [a; b] = Ok [1 / 2; 1 / 2].
Proof.
  intros <- Ha. unfold GaussianHMM.normalize. simpl rsum.
  destruct (Req_dec_T (a + (a + 0)) 0) as [E|N]; [exfalso; lra|].
  simpl. apply f_equal. apply f_equal2; [|apply f_equal2; [|reflexivity] ]; field; lra.
Qed.

Ltac positive :=
  rewrite ?Rplus_0_r, ?Rmult_1_r;
  repeat first [ apply Rmult_lt_0_compat | apply Rplus_lt_0_compat ];
  first [ assumption | lra ].

Ltac cbn_em :=
  cbn -[GaussianHMM.gauss_pdf GaussianHMM.normalize GaussianHMM.normalize_matrix
        GaussianHMM.weighted_moments IZR Rplus Rmult Rdiv Rminus Ropp Rinv].

Lemma normalize_matrix_square a b c d :
  a = b -> a = c -> a = d -> 0 < a ->
  GaussianHMM.normalize_matrix [[a; b]; [c; d]] =
  Ok [[1 / 4; 1 / 4]; [1 / 4; 1 / 4]].
Proof.
  intros <- <- <- Ha. unfold GaussianHMM.normalize_matrix. simpl rsum.
  destruct (Req_dec_T _ 0) as [E|N]; [exfalso; lra|].
  simpl. apply f_equal.
  apply f_equal2; [|apply f_equal2; [|reflexivity] ];
    (apply f_equal2; [|apply f_equal2; [|reflexivity] ]); field; lra.
Qed.

Lemma uniform_moments k :
  (k < 2)%nat ->
  GaussianHMM.weighted_moments (settings := uniform_settings)
    [[1 / 2; 1 / 2]; [1 / 2; 1 / 2]] sample_X k =
  Ok ((0, 0), ((1 + 1 / 1000, 0), (0, 1 / 1000))).
Proof.
  intros Hk.
  assert (Hn : nth k [1 / 2; 1 / 2] 0 = 1 / 2).
  { destruct k as [|[|k]]; [reflexivity | reflexivity | lia]. }
  unfold GaussianHMM.weighted_moments, sample_X, GaussianHMM.dot, GaussianHMM.vmul.
  cbn -[IZR Rplus Rmult Rdiv Rminus Ropp Rinv Req_dec_T nth].
  rewrite Hn.
  destruct (Req_dec_T (1 / 2 + (1 / 2 + 0)) 0) as [E|N]; [exfalso; lra|].
  match goal with |- context [Req_dec_T ?d 0] => destruct (Req_dec_T d 0) as [E|N'] end.
  - exfalso. lra.
  - apply f_equal.
    apply f_equal2; [apply f_equal2 | apply f_equal2; apply f_equal2]; field.
Qed.

(** One EM iteration from a model whose two states are alike ends on
    the model with the moments of the data. *)
Lemma symmetric_step p mu S :
  0 < p -> 0 < GaussianHMM.det S ->
  GaussianHMM.em_step (settings := uniform_settings) (symmetric_model p mu S) sample_X =
  Ok two_state_fit.
Proof.
  intros Hp HS.
  pose proof (@gauss_pdf_pos mu S (1, 0) HS) as H1.
  pose proof (@gauss_pdf_pos mu S (-1, 0) HS) as H2.
  unfold GaussianHMM.em_step, GaussianHMM.posteriors, symmetric_model.
  generalize (@uniform_moments 0 ltac:(lia)) (@uniform_moments 1 ltac:(lia)).
  unfold sample_X. intros M0 M1.
  cbn_em.
  set (d1 := GaussianHMM.gauss_pdf mu S (1, 0)) in *.
  set (d2 := GaussianHMM.gauss_pdf mu S (-1, 0)) in *.
  rewrite !normalize_pair by first [reflexivity | positive].
  unfold GaussianHMM.xi. cbn_em. fold d2.
  rewrite normalize_matrix_square by first [reflexivity | positive].
  cbn_em.
  rewrite !normalize_pair by first [reflexivity | positive].
  rewrite M0, M1. reflexivity.
Qed.

Lemma symmetric_posteriors p mu S :
  0 < p -> 0 < GaussianHMM.det S ->
  GaussianHMM.posteriors (symmetric_model p mu S) sample_X =
  Ok [[1 / 2; 1 / 2]; [1 / 2; 1 / 2]].
Proof.
  intros Hp HS.
  pose proof (@gauss_pdf_pos mu S (1, 0) HS) as H1.
  pose proof (@gauss_pdf_pos mu S (-1, 0) HS) as H2.
  unfold GaussianHMM.posteriors, symmetric_model, sample_X.
  cbn_em.
  set (d1 := GaussianHMM.gauss_pdf mu S (1, 0)) in *.
  set (d2 := GaussianHMM.gauss_pdf mu S (-1, 0)) in *.
  rewrite !normalize_pair by first [reflexivity | positive].
  reflexivity.
Qed.

Lemma two_state_fit_det :
  0 < GaussianHMM.det ((1 + 1 / 1000, 0), (0, 1 / 1000)).
Proof. simpl. lra. Qed.

Lemma two_state_regimes :
  fit_hmm_regimes (settings := uniform_settings) sample_returns 2
    "SPY" "results" "figs" w0 =
  (Ok (regime_result sample_returns 2 two_state_fit [0; 0]%nat
         [[1 / 2; 1 / 2]; [1 / 2; 1 / 2]]),
   extend w0 [Makedirs "results"; Makedirs "figs";
              ScalerFit (raw_features sample_returns); HmmFit 2 sample_X;
              Savefig "figs" "SPY_regime_probs.png";
              Savefig "figs" "SPY_regime_scatter.png";
              Savefig "figs" "SPY_transition_matrix.png"]).
Proof.
  rewrite fit_hmm_regimes_run, sample_features.
  change (raw_features sample_returns) with [(1, sq 1); (-1, sq (-1))].
  cbv iota zeta.
  change (2 <? 1)%nat with false.
  change (List.length sample_X <? 2)%nat with false. cbv iota.
  change (GaussianHMM.init_guess (Settings := uniform_settings) 42%Z 2 sample_X)
    with (symmetric_model (1 / INR 2) (0, 0) ((1, 0), (0, 1))).
  assert (Hp : 0 < 1 / INR 2) by (simpl; lra).
  assert (HI : 0 < GaussianHMM.det ((1, 0), (0, 1))) by (simpl; lra).
  assert (Hh : 0 < 1 / 2) by lra.
  rewrite (@em_loop_reaches_fixed_point uniform_settings 198 _ _ _
             (@symmetric_step _ (0, 0) _ Hp HI)
             (@symmetric_step _ (0, 0) _ Hh two_state_fit_det)).
  unfold GaussianHMM.predict, GaussianHMM.predict_proba.
  unfold two_state_fit at 1 2.
  rewrite (@symmetric_posteriors _ (0, 0) _ Hh two_state_fit_det).
  assert (Ha : GaussianHMM.argmax [1 / 2; 1 / 2] = 0%nat).
  { unfold GaussianHMM.argmax, GaussianHMM.argmax_from.
    destruct (Rlt_dec (1 / 2) (1 / 2)) as [L|_]; [exfalso; lra | reflexivity]. }
  cbn [map]. rewrite Ha. rewrite extend_extend. reflexivity.
Qed.

Lemma uniform_guess_has_states rng n X :
  has_states n (GaussianHMM.init_guess (Settings := uniform_settings) rng n X).
Proof.
  unfold has_states, square; simpl. rewrite !repeat_length.
  repeat split; try reflexivity.
  apply Forall_forall. intros row Hin. apply repeat_spec in Hin. subst row.
  apply repeat_length.
Qed.

(** ** Claims about the fitted HMM *)

(** C2: when the regime detector returns, for a state count K and an
    initial guess that is a model of K states: the posterior table has
    one row per day that has a return and one column per state; every
    row is a vector over the K states that sums to 1 (so within 1e-6 of
    1); the returned transition matrix is the fitted model's, it has K
    rows of K entries, and each of its rows sums to 1. *)
Theorem fitted_hmm_is_normalised
    (settings : GaussianHMM.Settings) (returns : Series (option R)) (n_states : nat)
    (asset_name rd fd : string) (w w' : World) (out : RegimeResult) :
  (forall rng X, has_states n_states (GaussianHMM.init_guess rng n_states X)) ->
  fit_hmm_regimes returns n_states asset_name rd fd w = (Ok out, w') ->
  let posterior := df_values (posterior_probs out) in
  (1 <= n_states)%nat /\
  df_index (posterior_probs out) = index (dropna returns) /\
  List.length posterior = List.length (dropna returns) /\
  List.length (df_columns (posterior_probs out)) = n_states /\
  Forall (fun probs => List.length probs = n_states /\
                       Rabs (rsum probs - 1) <= 1 / 1000000) posterior /\
  trans_mat out = GaussianHMM.transmat_ (snd (hmm_model out)) /\
  List.length (trans_mat out) = n_states /\
  Forall (fun row => List.length row = n_states /\ rsum row = 1) (trans_mat out).
Proof.
  intros Hguess. rewrite fit_hmm_regimes_run.
  destruct (raw_features returns) as [|x raw] eqn:Eraw; [discriminate|]. cbv zeta.
  destruct (n_states <? 1)%nat eqn:En; [discriminate|].
  destruct (List.length _ <? n_states)%nat eqn:El; [discriminate|].
  destruct (GaussianHMM.em_loop 200 _ _ None) as [fitted|e] eqn:Efit; [|discriminate].
  destruct (GaussianHMM.predict fitted _) as [hs|e]; [|discriminate].
  destruct (GaussianHMM.predict_proba fitted _) as [pp|e] eqn:Epp; [|discriminate].
  intros H; inversion H; subst; clear H. simpl.
  apply Nat.ltb_ge in En, El.
  assert (HX : scaled_features returns <> []).
  { intros E. rewrite E in El. simpl in El. lia. }
  assert (Hfit : has_states n_states fitted).
  { exact (em_loop_shape _ _ HX (Hguess 42%Z (scaled_features returns)) Efit). }
  pose proof Hfit as (_ & [HAlen HArows] & _).
  pose proof (@posteriors_shape n_states fitted Hfit _ _ Epp) as Hshape.
  apply posteriors_normalised in Epp. destruct Epp as [Hsum Hlen].
  pose proof (em_loop_result_row_stochastic _ _ _ _ Efit) as Hrows.
  split; [exact En|]. split.
  { unfold index, return_frame. rewrite map_map. reflexivity. }
  split.
  { rewrite Hlen, scaled_features_rows. unfold values. now rewrite !length_map. }
  split; [now rewrite length_map, length_seq|].
  split.
  { rewrite Forall_forall in Hsum, Hshape. apply Forall_forall. intros g Hg.
    split; [now apply Hshape|]. rewrite (Hsum g Hg), Rminus_diag, Rabs_R0. lra. }
  split; [reflexivity|]. split; [exact HAlen|].
  unfold row_stochastic in Hrows. rewrite Forall_forall in Hrows, HArows.
  apply Forall_forall. intros row Hrow. split; [now apply HArows | now apply Hrows].
Qed.

Lemma fitted_hmm_is_normalised_witness :
  Forall (fun probs => List.length probs = 2%nat /\
                       Rabs (rsum probs - 1) <= 1 / 1000000)
    [[1 / 2; 1 / 2]; [1 / 2; 1 / 2]] /\
  List.length (GaussianHMM.transmat_ two_state_fit) = 2%nat /\
  Forall (fun row => List.length row = 2%nat /\ rsum row = 1)
    (GaussianHMM.transmat_ two_state_fit).
Proof.
  destruct (@fitted_hmm_is_normalised uniform_settings sample_returns 2
              "SPY" "results" "figs" w0 _ _
              (fun rng X => uniform_guess_has_states rng 2 X) two_state_regimes)
    as (_ & _ & _ & _ & Hp & _ & Hl & Hr).
  split; [exact Hp|]. split; [exact Hl | exact Hr].
Defined.

Section WorldIndependence.
Context {libs : StatsLibs}.

Lemma independent_model_report a fd it acc :
  world_independent (model_report a fd it acc).
Proof.
  destruct it as [name res], acc as [fr cv]. unfold model_report, savefig.
  apply independent_bind; [apply independent_lift|]. intros v.
  apply independent_bind; [apply independent_lift|]. intros d.
  apply independent_bind; [apply independent_emit|]. intros _.
  apply independent_bind.
  { unfold ljungbox. destruct (acorr_ljungbox _ _);
      [apply independent_ret | apply independent_raise]. }
  intros [lb_stat lb_p].
  apply independent_bind; [apply independent_lift|]. intros _.
  apply independent_bind; [apply independent_emit|]. intros _.
  apply independent_ret.
Qed.

End WorldIndependence.


(** * Further properties *)

(** ** realized_volatility *)

Lemma all_present_Some l ws :
  all_present l = Some ws <-> l = map Some ws.
Proof.
  revert ws. induction l as [|o l IH]; intros ws.
  - simpl. destruct ws; simpl; split; intros H;
      try reflexivity; discriminate.
  - destruct o as [x|]; simpl.
    + destruct ws as [|y ys]; simpl.
      * destruct (all_present l); split; discriminate.
      * specialize (IH ys). destruct (all_present l) as [xs|].
        -- split; intros H.
           ++ injection H as -> ->. f_equal. now apply IH.
           ++ injection H as -> Hl. apply IH in Hl. now injection Hl as ->.
        -- split; intros H; [discriminate|].
           injection H as _ Hl. apply IH in Hl. discriminate.
    + split; [discriminate|]. destruct ws; discriminate.
Qed.

Lemma lastn_length {A} n (l : list A) :
  List.length (lastn n l) = Nat.min n (List.length l).
Proof. unfold lastn. rewrite length_skipn. lia. Qed.

Lemma lastn_map {A B} (f : A -> B) n l : lastn n (map f l) = map f (lastn n l).
Proof. unfold lastn. now rewrite length_map, skipn_map. Qed.

Lemma map_Some_inj {A} (us us' : list A) : map Some us = map Some us' -> us = us'.
Proof.
  revert us'. induction us as [|u us IH]; intros [|u' us'] H;
    try discriminate; [reflexivity|].
  simpl in H. injection H as -> H. f_equal. now apply IH.
Qed.

Lemma map_option_sq_present l vs :
  map (option_map sq) l = map Some vs <->
  exists us, l = map Some us /\ vs = map sq us.
Proof.
  revert vs. induction l as [|o l IH]; intros vs.
  - simpl. split.
    + destruct vs; [|discriminate]. intros _. now exists [].
    + intros (us & Hl & ->). destruct us; [reflexivity | discriminate].
  - destruct vs as [|v vs]; simpl.
    + split; [discriminate|]. intros (us & Hl & Hv).
      destruct us; discriminate.
    + specialize (IH vs). split.
      * intros H. destruct o as [x|]; [|discriminate]. simpl in H.
        injection H as <- H. apply IH in H. destruct H as (us & -> & ->).
        now exists (x :: us).
      * intros (us & Hl & Hv). destruct us as [|u us]; [discriminate|].
        simpl in Hl, Hv. injection Hl as -> ->. injection Hv as -> ->.
        simpl. f_equal. apply IH. now exists us.
Qed.

(** When a window of squared returns has a sum. *)
Lemma window_sum_squares window l y :
  window_sum window (map (option_map sq) l) = Some y <->
  exists us, List.length us = window /\ lastn window l = map Some us /\
             y = rsum (map sq us).
Proof.
  unfold window_sum. rewrite lastn_map.
  destruct (List.length (map (option_map sq) (lastn window l)) <? window)%nat eqn:El.
  - apply Nat.ltb_lt in El. rewrite length_map in El.
    split; [discriminate|]. intros (us & Hlen & Hl & _).
    rewrite Hl, length_map in El. lia.
  - apply Nat.ltb_ge in El. rewrite length_map, lastn_length in El.
    destruct (all_present (map (option_map sq) (lastn window l))) as [ws|] eqn:Ep; simpl.
    + apply all_present_Some in Ep. apply map_option_sq_present in Ep.
      destruct Ep as (us & Hl & ->). split.
      * intros H; inversion H; subst. exists us. repeat split; try assumption.
        apply (f_equal (@List.length _)) in Hl.
        rewrite lastn_length, length_map in Hl. lia.
      * intros (us' & _ & Hl' & ->). rewrite Hl in Hl'.
        apply map_Some_inj in Hl'. now subst.
    + split; [discriminate|]. intros (us & _ & Hl & _).
      assert (X : all_present (map (option_map sq) (lastn window l)) =
                  Some (map sq us)).
      { apply all_present_Some. apply map_option_sq_present. now exists us. }
      rewrite Ep in X. discriminate X.
Qed.

Lemma rolling_sum_from_app window seen s1 s2 :
  rolling_sum_from window seen (s1 ++ s2) =
  rolling_sum_from window seen s1 ++ rolling_sum_from window (seen ++ values s1) s2.
Proof.
  revert seen. induction s1 as [|[t v] s1 IH]; intros seen; simpl.
  - now rewrite app_nil_r.
  - rewrite IH. now rewrite <- app_assoc.
Qed.

Lemma rolling_sum_from_length window seen s :
  List.length (rolling_sum_from window seen s) = List.length s.
Proof.
  revert seen. induction s as [|[t v] s IH]; intros seen; simpl; [reflexivity|].
  now rewrite IH.
Qed.

Lemma rolling_sum_from_index window seen s :
  index (rolling_sum_from window seen s) = index s.
Proof.
  revert seen. induction s as [|[t v] s IH]; intros seen; simpl; [reflexivity|].
  now rewrite IH.
Qed.

Lemma series_map_index f s : index (series_map f s) = index s.
Proof. unfold index, series_map. rewrite map_map. reflexivity. Qed.

Lemma series_map_values f s : values (series_map f s) = map (option_map f) (values s).
Proof. unfold values, series_map. now rewrite !map_map. Qed.

Lemma series_map_app f s1 s2 :
  series_map f (s1 ++ s2) = series_map f s1 ++ series_map f s2.
Proof. unfold series_map. apply map_app. Qed.

(** The cell of [realized_volatility] at a given day. *)
Lemma realized_volatility_at s1 t v s2 window :
  nth_error (realized_volatility (s1 ++ (t, v) :: s2) window) (List.length s1) =
  Some (t, option_map sqrt
             (window_sum window (map (option_map sq) (values s1 ++ [v])))).
Proof.
  unfold realized_volatility, rolling_sum.
  rewrite series_map_app, rolling_sum_from_app, series_map_app.
  rewrite nth_error_app2.
  2:{ unfold series_map. rewrite length_map, rolling_sum_from_length, length_map. lia. }
  replace (List.length s1 - List.length _)%nat with 0%nat.
  2:{ unfold series_map. rewrite length_map, rolling_sum_from_length, length_map. lia. }
  simpl. rewrite series_map_values, map_app. reflexivity.
Qed.

(** X1: the realized volatility keeps the dates of the returns; at each
    day it holds a value exactly when the last [window] returns up to
    that day are all present, and the value is then the square root of
    the sum of their squares. *)
Theorem realized_volatility_cell
    (returns : Series (option R)) (window : nat) s1 t v s2 :
  (1 <= window)%nat ->
  returns = s1 ++ (t, v) :: s2 ->
  index (realized_volatility returns window) = index returns /\
  exists cell,
    nth_error (realized_volatility returns window) (List.length s1) = Some (t, cell) /\
    forall x,
      cell = Some x <->
      exists us, List.length us = window /\
                 lastn window (values s1 ++ [v]) = map Some us /\
                 x = sqrt (rsum (map sq us)).
Proof.
  intros _ ->. split.
  - unfold realized_volatility, rolling_sum.
    now rewrite series_map_index, rolling_sum_from_index, series_map_index.
  - eexists. split; [apply realized_volatility_at|].
    intros x. destruct (window_sum _ _) as [y|] eqn:Ew; simpl.
    + apply window_sum_squares in Ew. destruct Ew as (us & Hlen & Hl & ->). split.
      * intros H; injection H as <-. now exists us.
      * intros (us' & _ & Hl' & ->). rewrite Hl in Hl'.
        apply map_Some_inj in Hl'. now subst.
    + split; [discriminate|]. intros (us & Hlen & Hl & _).
      assert (X : window_sum window (map (option_map sq) (values s1 ++ [v])) =
                  Some (rsum (map sq us))).
      { apply window_sum_squares. now exists us. }
      rewrite Ew in X. discriminate X.
Qed.

Lemma realized_volatility_cell_witness :
  index (realized_volatility sample_returns 1) = index sample_returns.
Proof.
  apply (@realized_volatility_cell sample_returns 1 [] 1%Z (Some 1)
           [(2%Z, None); (3%Z, Some (-1))]); [lia | reflexivity].
Defined.

Lemma nth_error_split_series {A} (l : list A) i c :
  nth_error l i = Some c -> exists l1 l2, l = l1 ++ c :: l2 /\ List.length l1 = i.
Proof. apply nth_error_split. Qed.

Lemma realized_volatility_length returns window :
  List.length (realized_volatility returns window) = List.length returns.
Proof.
  unfold realized_volatility, rolling_sum, series_map.
  now rewrite length_map, rolling_sum_from_length, length_map.
Qed.

(** A cell of the realized volatility, with the day of the returns it
    stands for. *)
Lemma realized_volatility_cell_inv returns window i c :
  nth_error (realized_volatility returns window) i = Some c ->
  exists s1 t v s2,
    returns = s1 ++ (t, v) :: s2 /\ List.length s1 = i /\
    c = (t, option_map sqrt
              (window_sum window (map (option_map sq) (values s1 ++ [v])))).
Proof.
  intros Hc.
  assert (Hi : (i < List.length returns)%nat).
  { rewrite <- (realized_volatility_length returns window).
    apply nth_error_Some. congruence. }
  destruct (nth_error returns i) as [[t v]|] eqn:Er;
    [|apply nth_error_None in Er; lia].
  destruct (nth_error_split _ _ Er) as (s1 & s2 & -> & Hlen).
  exists s1, t, v, s2. repeat split; try assumption.
  rewrite <- Hlen, realized_volatility_at in Hc. congruence.
Qed.

(** X2: the warm-up.  A day that has fewer than [window] days up to it
    holds no realized volatility; a series shorter than the window has
    none at all. *)
Theorem realized_volatility_warm_up
    (returns : Series (option R)) (window : nat) :
  (1 <= window)%nat ->
  (forall i c, (i + 1 < window)%nat ->
     nth_error (realized_volatility returns window) i = Some c -> missing c) /\
  ((List.length returns < window)%nat ->
     Forall missing (realized_volatility returns window)).
Proof.
  intros _.
  assert (H : forall i c, (i + 1 < window)%nat ->
     nth_error (realized_volatility returns window) i = Some c -> missing c).
  { intros i c Hi Hc.
    destruct (realized_volatility_cell_inv _ _ _ Hc) as (s1 & t & v & s2 & -> & Hlen & ->).
    unfold missing; simpl.
    destruct (window_sum _ _) as [y|] eqn:Ew; [|reflexivity].
    apply window_sum_squares in Ew. destruct Ew as (us & Hus & Hl & _).
    apply (f_equal (@List.length _)) in Hl.
    rewrite lastn_length, length_map, length_app in Hl. unfold values in Hl.
    rewrite length_map in Hl. simpl in Hl. lia. }
  split; [exact H|].
  intros Hshort. apply Forall_forall. intros c Hin.
  destruct (In_nth_error _ _ Hin) as [i Hi].
  apply (H i c); [|assumption].
  assert ((i < List.length (realized_volatility returns window))%nat)
    by (apply nth_error_Some; congruence).
  rewrite realized_volatility_length in *. lia.
Qed.

Lemma realized_volatility_warm_up_witness :
  Forall missing (realized_volatility sample_returns 5).
Proof.
  apply (@realized_volatility_warm_up sample_returns 5); [lia | simpl; lia].
Defined.

(** X3: no look-ahead.  The realized volatility of the first days of a
    series is the beginning of the realized volatility of the whole
    series. *)
Theorem realized_volatility_of_prefix
    (s1 s2 : Series (option R)) (window : nat) :
  (1 <= window)%nat ->
  firstn (List.length s1) (realized_volatility (s1 ++ s2) window) =
  realized_volatility s1 window.
Proof.
  intros _. unfold realized_volatility, rolling_sum.
  rewrite series_map_app, rolling_sum_from_app, series_map_app.
  rewrite firstn_app.
  assert (Hlen : List.length (series_map sqrt (rolling_sum_from window []
                                 (series_map sq s1))) = List.length s1).
  { unfold series_map. now rewrite length_map, rolling_sum_from_length, length_map. }
  rewrite <- Hlen at 1. rewrite firstn_all, Hlen, Nat.sub_diag. simpl.
  apply app_nil_r.
Qed.

Lemma realized_volatility_of_prefix_witness :
  firstn 2 (realized_volatility sample_returns 2) =
  realized_volatility [(1%Z, Some 1); (2%Z, None)] 2.
Proof.
  apply (@realized_volatility_of_prefix [(1%Z, Some 1); (2%Z, None)]
           [(3%Z, Some (-1))] 2).
  lia.
Defined.

(** ** The order of the summary *)

Lemma string_compare_refl s : String.compare s s = Eq.
Proof.
  pose proof (String.compare_antisym s s) as H.
  destruct (String.compare s s); simpl in H; congruence.
Qed.

Lemma ascii_compare_lt_trans a b c :
  Ascii.compare a b = Lt -> Ascii.compare b c = Lt -> Ascii.compare a c = Lt.
Proof. unfold Ascii.compare. rewrite !N.compare_lt_iff. apply N.lt_trans. Qed.

Lemma string_lt_trans a b c : string_lt a b -> string_lt b c -> string_lt a c.
Proof.
  unfold string_lt. revert b c.
  induction a as [|x a IH]; intros [|y b] [|z c]; simpl; try discriminate; auto.
  destruct (Ascii.compare x y) eqn:Exy; try discriminate.
  - apply Ascii.compare_eq_iff in Exy. subst y.
    destruct (Ascii.compare x z); try discriminate; auto. apply IH.
  - intros _. destruct (Ascii.compare y z) eqn:Eyz; try discriminate.
    + apply Ascii.compare_eq_iff in Eyz. subst z. now rewrite Exy.
    + intros _. now rewrite (ascii_compare_lt_trans _ _ _ Exy Eyz).
Qed.

Lemma string_lt_irrefl a : ~ string_lt a a.
Proof. unfold string_lt. rewrite string_compare_refl. discriminate. Qed.

Lemma string_gt_lt a b : String.compare a b = Gt -> string_lt b a.
Proof.
  unfold string_lt. intros H. rewrite String.compare_antisym, H. reflexivity.
Qed.

Section SortedGroups.
Variable A : Type.

Lemma group_insert_keys_of k (x : A) g k0 :
  In k0 (map fst (group_insert k x g)) <-> k0 = k \/ In k0 (map fst g).
Proof. exact (group_insert_keys (fun _ : A => k) x g k0). Qed.

Lemma group_insert_sorted k (x : A) g :
  StronglySorted string_lt (map fst g) ->
  StronglySorted string_lt (map fst (group_insert k x g)).
Proof.
  induction g as [|[k' vs] g IH]; simpl; intros Hs.
  - constructor; constructor.
  - inversion Hs as [|? ? Hs' Hall]; subst.
    destruct (String.compare k k') eqn:Ec; simpl.
    + assumption.
    + constructor; [assumption|]. constructor; [exact Ec|].
      eapply Forall_impl; [|exact Hall]. intros b Hb.
      exact (@string_lt_trans _ _ _ Ec Hb).
    + constructor; [now apply IH|].
      apply Forall_forall. intros b Hb. apply group_insert_keys_of in Hb.
      destruct Hb as [->|Hb]; [now apply string_gt_lt|].
      rewrite Forall_forall in Hall. now apply Hall.
Qed.

Lemma group_of_absent k (g : list (string * list A)) :
  ~ In k (map fst g) -> group_of k g = [].
Proof.
  induction g as [|[k' vs] g IH]; simpl; intros Hn; [reflexivity|].
  destruct (String.eqb_spec k k') as [->|Hne]; [exfalso; apply Hn; now left|].
  apply IH. intros H; apply Hn; now right.
Qed.

Lemma sorted_below_absent k ks :
  Forall (string_lt k) ks -> ~ In k ks.
Proof.
  intros Hall Hin. rewrite Forall_forall in Hall.
  exact (@string_lt_irrefl _ (Hall _ Hin)).
Qed.

Lemma group_of_insert k kx (x : A) g :
  StronglySorted string_lt (map fst g) ->
  group_of k (group_insert kx x g) =
  if String.eqb k kx then group_of k g ++ [x] else group_of k g.
Proof.
  induction g as [|[k' vs] g IH]; simpl; intros Hs.
  - now destruct (String.eqb k kx).
  - inversion Hs as [|? ? Hs' Hall]; subst.
    destruct (String.compare kx k') eqn:Ec; simpl.
    + apply String.compare_eq_iff in Ec. subst k'.
      now destruct (String.eqb k kx).
    + destruct (String.eqb_spec k kx) as [->|Hne]; [|reflexivity].
      destruct (String.eqb_spec kx k') as [->|Hne'].
      * exfalso. exact (@string_lt_irrefl _ Ec).
      * rewrite group_of_absent; [reflexivity|].
        apply sorted_below_absent.
        eapply Forall_impl; [|exact Hall]. intros b Hb.
        exact (@string_lt_trans _ _ _ Ec Hb).
    + destruct (String.eqb_spec k k') as [->|Hne].
      * destruct (String.eqb_spec k' kx) as [->|Hne']; [|reflexivity].
        rewrite string_compare_refl in Ec. discriminate.
      * now apply IH.
Qed.

Lemma group_of_member k vs (g : list (string * list A)) :
  StronglySorted string_lt (map fst g) -> In (k, vs) g -> group_of k g = vs.
Proof.
  induction g as [|[k' vs'] g IH]; simpl; intros Hs Hin; [contradiction|].
  inversion Hs as [|? ? Hs' Hall]; subst.
  destruct Hin as [H|H].
  - injection H as -> ->. now rewrite String.eqb_refl.
  - destruct (String.eqb_spec k k') as [->|Hne]; [|now apply IH].
    exfalso. apply (@sorted_below_absent k' _ Hall).
    apply in_map_iff. now exists (k', vs).
Qed.

Variable key : A -> string.

Lemma fold_groups_sorted df : forall g,
  StronglySorted string_lt (map fst g) ->
  StronglySorted string_lt
    (map fst (fold_left (fun g row => group_insert (key row) row g) df g)) /\
  forall k,
    group_of k (fold_left (fun g row => group_insert (key row) row g) df g) =
    group_of k g ++ filter (fun row => String.eqb (key row) k) df.
Proof.
  induction df as [|x df IH]; intros g Hs; simpl.
  - split; [assumption|]. intros k. now rewrite app_nil_r.
  - destruct (IH (group_insert (key x) x g) (@group_insert_sorted (key x) x g Hs))
      as [Hsorted Hgroups].
    split; [assumption|]. intros k. rewrite Hgroups, (@group_of_insert k (key x) x g Hs).
    rewrite (String.eqb_sym (key x) k).
    destruct (String.eqb k (key x)); [|reflexivity].
    now rewrite <- app_assoc.
Qed.

(** [groupby]: the keys in strictly increasing order, and under each key
    the rows of that key in their order in the table. *)
Lemma groupby_sorted df :
  StronglySorted string_lt (map fst (groupby key df)) /\
  forall k vs, In (k, vs) (groupby key df) ->
    vs = filter (fun row => String.eqb (key row) k) df.
Proof.
  unfold groupby.
  destruct (@fold_groups_sorted df [] (SSorted_nil _)) as [Hs Hg].
  split; [assumption|]. intros k vs Hin.
  rewrite <- (@group_of_member k vs _ Hs Hin), Hg. reflexivity.
Qed.

End SortedGroups.

(** ** More about evaluate_forecasts *)

Lemma filter_map_comm {A B} (f : A -> B) (p : B -> bool) l :
  filter p (map f l) = map f (filter (fun x => p (f x)) l).
Proof.
  induction l as [|x l IH]; simpl; [reflexivity|].
  destruct (p (f x)); simpl; now rewrite IH.
Qed.

(** The rows of a summary: the models in strictly increasing order, and
    for each the means over the records of that model. *)
Lemma summarize_rows tail_rv df :
  StronglySorted string_lt
    (map summary_model (summarize (map (add_errors tail_rv) df))) /\
  forall row, In row (summarize (map (add_errors tail_rv) df)) ->
    let errs := errors_against tail_rv (records_of (summary_model row) df) in
    errs <> [] /\
    mean_abs_err row = rmean (map Rabs errs) /\
    rmse row = sqrt (rmean (map sq errs)).
Proof.
  set (rows := map (add_errors tail_rv) df).
  destruct (groupby_sorted (fun row => model (forecast row)) rows) as [Hs Hg].
  split.
  - unfold summarize. rewrite map_map. simpl.
    change (fun x : string * list EvalRow => fst x) with (@fst string (list EvalRow)).
    exact Hs.
  - intros row Hin. unfold summarize in Hin. apply in_map_iff in Hin.
    destruct Hin as ([k vs] & <- & Hin). simpl.
    pose proof (Hg k vs Hin) as Hvs.
    destruct (groupby_ok (fun row => model (forecast row)) rows k vs Hin) as [Hne _].
    unfold rows in Hvs. rewrite filter_map_comm in Hvs. simpl in Hvs.
    fold (records_of k df) in Hvs.
    unfold errors_against. subst vs. split; [|split].
    + destruct (records_of k df); [exfalso; now apply Hne | discriminate].
    + now rewrite !map_map.
    + now rewrite !map_map.
Qed.

Lemma dropna_nil_all_missing s : dropna s = [] -> Forall missing s.
Proof.
  induction s as [|[t [v|]] s IH]; simpl; intros H.
  - constructor.
  - discriminate.
  - constructor; [reflexivity | now apply IH].
Qed.

Lemma last_item_raises {A} (l : list A) e : last_item l = Raise e -> l = [] /\ e = IndexError.
Proof.
  unfold last_item. destruct (rev l) eqn:E; [|discriminate].
  intros H; injection H as <-. split; [|reflexivity].
  apply (f_equal (@rev A)) in E. now rewrite rev_involutive in E.
Qed.

(** X4: the summary lists the models of the input in strictly
    increasing order of their names: every model that has a record in
    one of the tables has a row, no other name has one, and no name has
    two; the row of a model holds the mean absolute error and the root
    of the mean squared error over all the records of that model in all
    the tables, taken against the reference. *)
Theorem summary_is_sorted_by_model
    (dfs : list (list ForecastRecord)) (rv : Series (option R))
    (asset_name rd fd : string) (w w' : World) (summary : list SummaryRow) :
  evaluate_forecasts dfs rv asset_name rd fd w = (Ok summary, w') ->
  exists last_rv,
    last_item (values (dropna rv)) = Ok last_rv /\
    (forall name, In name (map summary_model summary) <->
                  In name (map model (List.concat dfs))) /\
    StronglySorted string_lt (map summary_model summary) /\
    forall row, In row summary ->
      let errs := errors_against (last_rv * 100)
                    (records_of (summary_model row) (List.concat dfs)) in
      errs <> [] /\
      mean_abs_err row = rmean (map Rabs errs) /\
      rmse row = sqrt (rmean (map sq errs)).
Proof.
  rewrite evaluate_forecasts_run.
  destruct (pd_concat dfs) as [df|e] eqn:Ec; [|discriminate].
  destruct (last_item (values (dropna rv))) as [v|e] eqn:El; [|discriminate].
  intros H; injection H as <- _.
  apply pd_concat_ok in Ec. destruct Ec as [_ ->].
  exists v. split; [reflexivity|]. split; [|apply summarize_rows].
  intros name. rewrite summarize_models, map_map. reflexivity.
Qed.

Lemma summary_is_sorted_witness :
  exists last_rv,
    last_item (values (dropna sample_rv)) = Ok last_rv /\
    (forall name,
       In name (map summary_model
                  (summarize (map (add_errors (2 * 100)) sample_forecasts))) <->
       In name (map model (List.concat [sample_forecasts]))) /\
    StronglySorted string_lt
      (map summary_model (summarize (map (add_errors (2 * 100)) sample_forecasts))) /\
    forall row, In row (summarize (map (add_errors (2 * 100)) sample_forecasts)) ->
      let errs := errors_against (last_rv * 100)
                    (records_of (summary_model row) (List.concat [sample_forecasts])) in
      errs <> [] /\
      mean_abs_err row = rmean (map Rabs errs) /\
      rmse row = sqrt (rmean (map sq errs)).
Proof.
  exact (@summary_is_sorted_by_model [sample_forecasts] sample_rv
           "SPY" "results" "figs" w0 _ _ sample_evaluation).
Defined.

(** X6: the evaluator returns exactly when it is given a table and the
    realized volatility holds a value; it has then saved one figure and
    one table.  Otherwise it raises ValueError (no table) or IndexError
    (a table, but no value), and has written neither. *)
Theorem evaluate_forecasts_success_condition
    (dfs : list (list ForecastRecord)) (rv : Series (option R))
    (asset_name rd fd : string) (w : World) :
  match evaluate_forecasts dfs rv asset_name rd fd w with
  | (Ok _, w') =>
      dfs <> [] /\ (exists t v, In (t, Some v) rv) /\
      w' = extend w [Makedirs rd; Makedirs fd;
                     Savefig fd (asset_name +++ "_forecast_rmse.png");
                     ToCsv rd (asset_name +++ "_forecast_eval.csv")]
  | (Raise e, w') =>
      w' = extend w [Makedirs rd; Makedirs fd] /\
      ((dfs = [] /\ e = ValueError) \/
       (dfs <> [] /\ Forall missing rv /\ e = IndexError))
  end.
Proof.
  rewrite evaluate_forecasts_run.
  destruct dfs as [|df dfs]; simpl pd_concat.
  - split; [reflexivity|]. now left.
  - destruct (last_item (values (dropna rv))) as [v|e] eqn:El.
    + split; [discriminate|]. split; [|reflexivity].
      destruct (last_present _ El) as (pre & t & post & -> & _).
      exists t, v. apply in_or_app. right. now left.
    + split; [reflexivity|]. right. split; [discriminate|].
      apply last_item_raises in El. destruct El as [Hnil ->].
      split; [|reflexivity]. apply dropna_nil_all_missing.
      unfold values in Hnil. now apply map_eq_nil in Hnil.
Qed.

(** ** The evaluator on the realized volatility of a series *)

Lemma realized_volatility_snoc s1 t v window :
  realized_volatility (s1 ++ [(t, v)]) window =
  realized_volatility s1 window ++
  [(t, option_map sqrt (window_sum window (map (option_map sq) (values s1 ++ [v]))))].
Proof.
  unfold realized_volatility, rolling_sum.
  rewrite series_map_app, rolling_sum_from_app, series_map_app. simpl.
  now rewrite series_map_values, map_app.
Qed.

Lemma lastn_app_exact {A} n (l1 l2 : list A) :
  List.length l2 = n -> lastn n (l1 ++ l2) = l2.
Proof.
  intros <-. unfold lastn. rewrite length_app.
  replace (List.length l1 + List.length l2 - List.length l2)%nat
    with (List.length l1 + 0)%nat by lia.
  rewrite skipn_app, Nat.add_0_r, skipn_all.
  replace (List.length l1 - List.length l1)%nat with 0%nat by lia.
  reflexivity.
Qed.

(** X7: from a return series shorter than the window no forecast can be
    evaluated: given a table, the evaluator raises IndexError on the
    realized volatility of the series, having written nothing. *)
Theorem short_series_cannot_be_evaluated
    (returns : Series (option R)) (window : nat)
    (dfs : list (list ForecastRecord)) (asset_name rd fd : string) (w : World) :
  (1 <= window)%nat ->
  (List.length returns < window)%nat ->
  dfs <> [] ->
  evaluate_forecasts dfs (realized_volatility returns window) asset_name rd fd w =
    (Raise IndexError, extend w [Makedirs rd; Makedirs fd]).
Proof.
  intros Hw Hshort Hdfs. rewrite evaluate_forecasts_run.
  destruct dfs as [|df dfs]; [congruence|]. simpl pd_concat.
  assert (Hm : Forall missing (realized_volatility returns window)).
  { apply Forall_forall. intros c Hin.
    destruct (In_nth_error _ _ Hin) as [i Hi].
    destruct (realized_volatility_cell_inv _ _ _ Hi)
      as (s1 & t & v & s2 & -> & Hlen & ->).
    unfold missing; simpl.
    destruct (window_sum _ _) as [y|] eqn:Ew; [|reflexivity].
    apply window_sum_squares in Ew. destruct Ew as (us & Hus & Hl & _).
    apply (f_equal (@List.length _)) in Hl.
    rewrite lastn_length, length_map, length_app in Hl. unfold values in Hl.
    rewrite length_map in Hl. rewrite length_app in Hshort. simpl in Hl, Hshort. lia. }
  now rewrite (dropna_all_missing Hm).
Qed.

Lemma short_series_cannot_be_evaluated_witness :
  evaluate_forecasts [sample_forecasts] (realized_volatility sample_returns 5)
    "SPY" "results" "figs" w0 =
    (Raise IndexError, extend w0 [Makedirs "results"; Makedirs "figs"]).
Proof.
  apply (@short_series_cannot_be_evaluated sample_returns 5 [sample_forecasts]
           "SPY" "results" "figs" w0); [lia | simpl; lia | discriminate].
Defined.

(** X8: when the last [window] days of the series all have a return,
    the reference of the evaluation is 100 times the square root of the
    sum of the squares of these returns. *)
Theorem reference_of_last_full_window
    (returns before win : Series (option R)) (us : list R) (window : nat)
    (dfs : list (list ForecastRecord)) (asset_name rd fd : string) (w : World) :
  (1 <= window)%nat ->
  returns = before ++ win ->
  values win = map Some us ->
  List.length us = window ->
  dfs <> [] ->
  fst (evaluate_forecasts dfs (realized_volatility returns window)
         asset_name rd fd w) =
  Ok (summarize (map (add_errors (sqrt (rsum (map sq us)) * 100)) (List.concat dfs))).
Proof.
  intros Hw -> Hvals Hlen Hdfs.
  assert (Hwin : List.length win = window).
  { apply (f_equal (@List.length _)) in Hvals. unfold values in Hvals.
    rewrite !length_map in Hvals. lia. }
  destruct win as [|c win] using rev_ind; [simpl in Hwin; lia|]. clear IHwin.
  destruct c as [t v]. rewrite app_assoc, realized_volatility_snoc.
  assert (Hcell : window_sum window
                    (map (option_map sq) (values (before ++ win) ++ [v])) =
                  Some (rsum (map sq us))).
  { apply window_sum_squares. exists us. split; [assumption|]. split; [|reflexivity].
    unfold values in *. rewrite map_app, <- app_assoc.
    change [v] with (map snd [(t, v)]). rewrite <- (map_app snd win).
    rewrite <- Hvals. apply lastn_app_exact. now rewrite length_map. }
  rewrite Hcell. simpl option_map.
  apply (@evaluate_forecasts_returns dfs _
           (realized_volatility (before ++ win) window) t _ [] asset_name rd fd w);
    [assumption | reflexivity | constructor].
Qed.

Lemma reference_of_last_full_window_witness :
  fst (evaluate_forecasts [sample_forecasts]
         (realized_volatility sample_returns 1) "SPY" "results" "figs" w0) =
  Ok (summarize (map (add_errors (sqrt (rsum (map sq [-1])) * 100))
                   (List.concat [sample_forecasts]))).
Proof.
  apply (@reference_of_last_full_window sample_returns
           [(1%Z, Some 1); (2%Z, None)] [(3%Z, Some (-1))] [-1] 1
           [sample_forecasts] "SPY" "results" "figs" w0);
    [lia | reflexivity | reflexivity | reflexivity | discriminate].
Defined.

(** ** More about fit_garch_models *)

Section GarchMore.
Context {libs : StatsLibs}.

Lemma model_report_run a fd name res fr cv w :
  model_report a fd (name, res) (fr, cv) w =
  match last_row_item (forecast_variance res 1 false) 0 with
  | Raise e => (Raise e, w)
  | Ok var_fcast =>
      match last_item (index (conditional_volatility res)) with
      | Raise e => (Raise e, w)
      | Ok date =>
          let w1 := extend w [Savefig fd (a +++ "_" +++ name +++ "_volatility.png")] in
          match acorr_ljungbox (values (dropna (std_resid res))) [10%nat] with
          | None => (Raise ValueError, w1)
          | Some (lb_stat, lb_p) =>
              match item lb_p 0 with
              | Raise e => (Raise e, w1)
              | Ok _ =>
                  (Ok (fr ++ [ {| asset := a; model := name; last_date := date;
                                  one_day_ahead_vol_forecast_pct := sqrt var_fcast |} ],
                       dict_set cv name (conditional_volatility res)),
                   extend w (model_figures a fd name))
              end
          end
      end
  end.
Proof.
  unfold model_report, ljungbox, savefig, model_figures.
  destruct (last_row_item _ 0) as [v|e]; [rewrite bind_lift_ok | now rewrite bind_lift_raise].
  destruct (last_item _) as [d|e]; [rewrite bind_lift_ok | now rewrite bind_lift_raise].
  rewrite bind_emit. cbv zeta.
  destruct (acorr_ljungbox _ _) as [[lb_stat lb_p]|]; [|reflexivity].
  unfold bind at 1. unfold ret at 1.
  destruct (item lb_p 0) as [p0|e]; [rewrite bind_lift_ok | now rewrite bind_lift_raise].
  rewrite bind_emit, extend_extend. reflexivity.
Qed.

Lemma model_report_reportable a fd name res fr cv w :
  reportable res ->
  exists date var_fcast,
    last_item (index (conditional_volatility res)) = Ok date /\
    last_row_item (forecast_variance res 1 false) 0 = Ok var_fcast /\
    model_report a fd (name, res) (fr, cv) w =
    (Ok (fr ++ [ {| asset := a; model := name; last_date := date;
                    one_day_ahead_vol_forecast_pct := sqrt var_fcast |} ],
         dict_set cv name (conditional_volatility res)),
     extend w (model_figures a fd name)).
Proof.
  intros ((v & Hv) & Hcv & (lb_stat & p0 & lb_p & Hlb)).
  destruct (last_item (index (conditional_volatility res))) as [d|e] eqn:Ed.
  - exists d, v. repeat split; try assumption.
    rewrite model_report_run, Hv, Ed, Hlb. reflexivity.
  - exfalso. apply last_item_raises in Ed. destruct Ed as [Hnil _].
    unfold index in Hnil. apply map_eq_nil in Hnil. contradiction.
Qed.

Lemma model_report_ok_reportable a fd name res fr cv w out w' :
  model_report a fd (name, res) (fr, cv) w = (Ok out, w') ->
  reportable res /\ w' = extend w (model_figures a fd name).
Proof.
  rewrite model_report_run.
  destruct (last_row_item _ 0) as [v|e] eqn:Ev; [|discriminate].
  destruct (last_item _) as [d|e] eqn:Ed; [|discriminate]. cbv zeta.
  destruct (acorr_ljungbox _ _) as [[lb_stat lb_p]|] eqn:Elb; [|discriminate].
  destruct (item lb_p 0) as [p0|e] eqn:Ep; [|discriminate].
  intros H; injection H as _ <-. split; [|reflexivity].
  split; [now exists v|]. split.
  - intros Hnil. rewrite Hnil in Ed. discriminate.
  - unfold item in Ep. destruct lb_p as [|p lb_p]; [discriminate|].
    now exists lb_stat, p, lb_p.
Qed.

Lemma report_loop_returns a fd items :
  Forall (fun it => reportable (snd it)) items ->
  forall fr cv w,
  exists fr' cv',
    for_each items (model_report a fd) (fr, cv) w =
      (Ok (fr', cv'),
       extend w (flat_map (fun it => model_figures a fd (fst it)) items)) /\
    map model fr' = map model fr ++ map fst items /\
    cv' = fold_left (fun d it => dict_set d (fst it) (conditional_volatility (snd it)))
            items cv.
Proof.
  induction 1 as [|[name res] items Hr _ IH]; intros fr cv w.
  - exists fr, cv. simpl. rewrite extend_nil, app_nil_r. repeat split; reflexivity.
  - destruct (model_report_reportable a fd name fr cv w Hr) as (d & v & _ & _ & E).
    match type of E with _ = (Ok (?fr1, ?cv1), ?w1) =>
      destruct (IH fr1 cv1 w1) as (fr' & cv' & Eloop & Hm & Hcv) end.
    exists fr', cv'. split; [|split].
    + change (for_each ((name, res) :: items) (model_report a fd) (fr, cv) w)
        with (bind (model_report a fd (name, res) (fr, cv))
                (fun acc => for_each items (model_report a fd) acc) w).
      rewrite (bind_ok _ _ _ E), Eloop, extend_extend. reflexivity.
    + rewrite Hm, map_app. simpl. now rewrite <- app_assoc.
    + exact Hcv.
Qed.

Lemma fit_garch_models_after_fits returns a rd fd w g e j :
  arch_fit garch11_spec (scale 100 (dropna returns)) = inr g ->
  arch_fit egarch_spec (scale 100 (dropna returns)) = inr e ->
  arch_fit gjr_spec (scale 100 (dropna returns)) = inr j ->
  fit_garch_models returns a rd fd w =
  match for_each [("GARCH11", g); ("EGARCH", e); ("GJRGARCH", j)]
          (model_report a fd) ([], [])
          (extend w ([Makedirs rd; Makedirs fd] ++
                     map (fun spec => ArchFit spec (scale 100 (dropna returns)))
                       variants)) with
  | (Ok (fr, cv), w') =>
      (Ok ([("GARCH11", g); ("EGARCH", e); ("GJRGARCH", j)], fr, cv), w')
  | (Raise err, w') => (Raise err, w')
  end.
Proof.
  intros Hg He Hj. unfold fit_garch_models, makedirs.
  rewrite !bind_emit, !extend_extend. simpl app.
  unfold bind at 1. rewrite fit_run, Hg.
  unfold bind at 1. rewrite fit_run, He.
  unfold bind at 1. rewrite fit_run, Hj.
  rewrite !extend_extend. simpl app. simpl dict_set.
  unfold bind at 1.
  destruct (for_each _ _ _ _) as [[[fr cv]|err] w']; reflexivity.
Qed.

(** A call that returns has fit the three variants, and each result
    could be reported. *)
Lemma returned_fits_are_reportable returns a rd fd w out w' :
  fit_garch_models returns a rd fd w = (Ok out, w') ->
  forall spec, In spec variants ->
    exists res, arch_fit spec (scale 100 (dropna returns)) = inr res /\
                reportable res.
Proof.
  destruct out as [[models fc] cv]. intros H.
  destruct (fit_garch_models_ok _ _ _ _ _ H) as (g & e & j & Hg & He & Hj & -> & Hloop).
  apply for_each_cons_ok in Hloop. destruct Hloop as ([fr1 cv1] & w1 & E1 & Hloop).
  apply for_each_cons_ok in Hloop. destruct Hloop as ([fr2 cv2] & w2 & E2 & Hloop).
  apply for_each_cons_ok in Hloop. destruct Hloop as ([fr3 cv3] & w3 & E3 & Hloop).
  apply model_report_ok_reportable in E1, E2, E3.
  intros spec [<-|[<-|[<-|[]]]]; eexists; split; try eassumption; tauto.
Qed.

(** Three fits that succeed with results that can be reported make the
    call return. *)
Lemma reportable_fits_return returns a rd fd w :
  (forall spec, In spec variants ->
     exists res, arch_fit spec (scale 100 (dropna returns)) = inr res /\
                 reportable res) ->
  exists out w', fit_garch_models returns a rd fd w = (Ok out, w').
Proof.
  intros Hall.
  destruct (Hall garch11_spec) as (g & Hg & Rg); [simpl; auto|].
  destruct (Hall egarch_spec) as (e & He & Re); [simpl; auto|].
  destruct (Hall gjr_spec) as (j & Hj & Rj); [simpl; auto|].
  rewrite (fit_garch_models_after_fits returns a rd fd w Hg He Hj).
  assert (HR : Forall (fun it : string * ARCHModelResult => reportable (snd it))
                 [("GARCH11", g); ("EGARCH", e); ("GJRGARCH", j)]).
  { repeat (apply Forall_cons; [assumption|]). apply Forall_nil. }
  match goal with |- context [for_each ?l ?b (?fr0, ?cv0) ?w1] =>
    destruct (@report_loop_returns a fd l HR fr0 cv0 w1)
      as (fr' & cv' & Eloop & _);
    destruct (for_each l b (fr0, cv0) w1) as [[[fr cv]|err] wz] eqn:E;
    pose proof (eq_trans (eq_sym E) Eloop) as X
  end.
  - eexists. eexists. reflexivity.
  - discriminate X.
Qed.

End GarchMore.

(** X9: [fit_garch_models] returns exactly when each of the three fits
    succeeds and gives a result the report loop can use: a variance
    forecast with a last row and a first column, a conditional
    volatility that is not empty, and a Ljung-Box answer with a first
    p-value. *)
Theorem fit_garch_models_returns_iff
    (libs : StatsLibs) (returns : Series (option R)) (asset_name rd fd : string)
    (w : World) :
  (exists out w', fit_garch_models returns asset_name rd fd w = (Ok out, w')) <->
  (forall spec, In spec variants ->
     exists res, arch_fit spec (scale 100 (dropna returns)) = inr res /\
                 reportable res).
Proof.
  split.
  - intros (out & w' & H). exact (returned_fits_are_reportable _ _ _ _ _ H).
  - apply reportable_fits_return.
Qed.

(** X10: what [fit_garch_models] hands back and leaves behind when it
    returns: the three models under the names GARCH11, EGARCH, GJRGARCH
    in this order, one forecast record per model in the same order, the
    conditional volatility of each fit under its name, and, after the
    two directories and the three fits, the volatility figure and the
    QQ-plot of each model, model by model. *)
Theorem fit_garch_models_outputs
    (libs : StatsLibs) (returns : Series (option R)) (asset_name rd fd : string)
    (w w' : World) models fc cv :
  fit_garch_models returns asset_name rd fd w = (Ok (models, fc, cv), w') ->
  map fst models = model_names /\
  map model fc = model_names /\
  cv = map (fun it => (fst it, conditional_volatility (snd it))) models /\
  w' = extend w
         ([Makedirs rd; Makedirs fd] ++
          map (fun spec => ArchFit spec (scale 100 (dropna returns))) variants ++
          flat_map (model_figures asset_name fd) model_names).
Proof.
  intros H.
  destruct (fit_garch_models_ok _ _ _ _ _ H) as (g & e & j & Hg & He & Hj & -> & Hloop).
  apply for_each_cons_ok in Hloop. destruct Hloop as ([fr1 cv1] & w1 & E1 & Hloop).
  apply for_each_cons_ok in Hloop. destruct Hloop as ([fr2 cv2] & w2 & E2 & Hloop).
  apply for_each_cons_ok in Hloop. destruct Hloop as ([fr3 cv3] & w3 & E3 & Hloop).
  injection Hloop as <- <- <-.
  pose proof E1 as R1. apply model_report_ok_reportable in R1. destruct R1 as [_ ->].
  pose proof E2 as R2. apply model_report_ok_reportable in R2. destruct R2 as [_ ->].
  pose proof E3 as R3. apply model_report_ok_reportable in R3. destruct R3 as [_ ->].
  apply model_report_ok in E1. destruct E1 as (rg & -> & (_ & Mg & _) & ->).
  apply model_report_ok in E2. destruct E2 as (re & -> & (_ & Me & _) & ->).
  apply model_report_ok in E3. destruct E3 as (rj & -> & (_ & Mj & _) & ->).
  split; [reflexivity|]. split; [simpl; now rewrite Mg, Me, Mj|].
  split; [reflexivity|].
  rewrite !extend_extend. reflexivity.
Qed.

Lemma fit_garch_models_outputs_witness :
  map model [sample_record "GARCH11"; sample_record "EGARCH";
             sample_record "GJRGARCH"] = model_names.
Proof.
  exact (proj1 (proj2 (@fit_garch_models_outputs all_fit sample_returns
                         "SPY" "results" "figs" w0 _ _ _ _ all_fit_run))).
Defined.

(** X12: the evaluation of the forecasts of one call of
    [fit_garch_models], as [main] does it: the summary has the three
    rows EGARCH, GARCH11, GJRGARCH in this order, and in each the mean
    absolute error and the RMSE are both the distance of that model's
    forecast to the reference. *)
Theorem evaluation_of_one_fit
    (libs : StatsLibs) (returns rv : Series (option R))
    (asset_name rd fd asset_name' rd' fd' : string) (w w1 w2 w3 : World)
    models fc cv (summary : list SummaryRow) :
  fit_garch_models returns asset_name rd fd w = (Ok (models, fc, cv), w1) ->
  evaluate_forecasts [fc] rv asset_name' rd' fd' w2 = (Ok summary, w3) ->
  exists fg fe fj last_rv,
    map one_day_ahead_vol_forecast_pct fc = [fg; fe; fj] /\
    last_item (values (dropna rv)) = Ok last_rv /\
    map summary_model summary = ["EGARCH"; "GARCH11"; "GJRGARCH"] /\
    map mean_abs_err summary =
      map (fun f => Rabs (f - last_rv * 100)) [fe; fg; fj] /\
    map rmse summary = map mean_abs_err summary.
Proof.
  intros Hfit Heval.
  destruct (fit_garch_models_ok _ _ _ _ _ Hfit) as (g & e & j & _ & _ & _ & -> & Hloop).
  apply for_each_cons_ok in Hloop. destruct Hloop as ([fr1 cv1] & u1 & E1 & Hloop).
  apply for_each_cons_ok in Hloop. destruct Hloop as ([fr2 cv2] & u2 & E2 & Hloop).
  apply for_each_cons_ok in Hloop. destruct Hloop as ([fr3 cv3] & u3 & E3 & Hloop).
  injection Hloop as <- <- <-.
  apply model_report_ok in E1. destruct E1 as (rg & -> & (_ & Mg & _) & _).
  apply model_report_ok in E2. destruct E2 as (re & -> & (_ & Me & _) & _).
  apply model_report_ok in E3. destruct E3 as (rj & -> & (_ & Mj & _) & _).
  rewrite evaluate_forecasts_run in Heval. simpl pd_concat in Heval.
  destruct (last_item (values (dropna rv))) as [v|err] eqn:El; [|discriminate].
  injection Heval as <- _.
  destruct rg as [ag mg dg fg], re as [ae me de fe], rj as [aj mj dj fj].
  simpl in Mg, Me, Mj. subst mg me mj.
  exists fg, fe, fj, v. split; [reflexivity|]. split; [reflexivity|].
  assert (Hone : forall x, rmean [x] = x).
  { intros x. unfold rmean. simpl. field. }
  assert (Hrms : forall d, sqrt (rmean [sq d]) = Rabs d).
  { intros d. rewrite Hone. unfold sq. apply sqrt_Rsqr_abs. }
  unfold summarize, groupby. simpl.
  rewrite !Hrms, !Hone. repeat split; reflexivity.
Qed.

Lemma evaluation_of_one_fit_witness :
  exists fg fe fj last_rv,
    map one_day_ahead_vol_forecast_pct
      [sample_record "GARCH11"; sample_record "EGARCH"; sample_record "GJRGARCH"] =
      [fg; fe; fj] /\
    last_item (values (dropna sample_rv)) = Ok last_rv /\
    map summary_model (summarize (map (add_errors (2 * 100)) sample_forecasts)) =
      ["EGARCH"; "GARCH11"; "GJRGARCH"] /\
    map mean_abs_err (summarize (map (add_errors (2 * 100)) sample_forecasts)) =
      map (fun f => Rabs (f - last_rv * 100)) [fe; fg; fj] /\
    map rmse (summarize (map (add_errors (2 * 100)) sample_forecasts)) =
      map mean_abs_err (summarize (map (add_errors (2 * 100)) sample_forecasts)).
Proof.
  exact (@evaluation_of_one_fit all_fit sample_returns sample_rv
           "SPY" "results" "figs" "SPY" "results" "figs" w0 _ w0 _ _ _ _ _
           all_fit_run sample_evaluation).
Defined.

(** ** data_loader.py *)

Lemma insert_by_date_perm {A} (c : Timestamp * A) s :
  Permutation (insert_by_date c s) (c :: s).
Proof.
  induction s as [|c' s IH]; simpl; [reflexivity|].
  destruct (fst c <=? fst c')%Z; [reflexivity|].
  rewrite IH. apply perm_swap.
Qed.

Lemma insert_by_date_sorted {A} (c : Timestamp * A) s :
  StronglySorted by_date s -> StronglySorted by_date (insert_by_date c s).
Proof.
  induction s as [|c' s IH]; simpl; intros Hs.
  - constructor; constructor.
  - inversion Hs as [|? ? Hs' Hall]; subst.
    destruct (fst c <=? fst c')%Z eqn:E.
    + apply Z.leb_le in E. constructor; [assumption|].
      constructor; [exact E|].
      eapply Forall_impl; [|exact Hall]. unfold by_date. intros b Hb. lia.
    + apply Z.leb_gt in E. constructor; [now apply IH|].
      apply Forall_forall. intros b Hb.
      apply (Permutation_in _ (insert_by_date_perm c s)) in Hb.
      destruct Hb as [<-|Hb]; [unfold by_date; lia|].
      rewrite Forall_forall in Hall. now apply Hall.
Qed.

Lemma sort_index_perm {A} (s : Series A) : Permutation (sort_index s) s.
Proof.
  induction s as [|c s IH]; simpl; [reflexivity|].
  rewrite insert_by_date_perm. now constructor.
Qed.

Lemma sort_index_sorted {A} (s : Series A) : StronglySorted by_date (sort_index s).
Proof.
  induction s as [|c s IH]; simpl; [constructor|]. now apply insert_by_date_sorted.
Qed.

(** X13: [download_asset] returns the closes that yfinance delivered for
    the ticker, from [start] to [end] (today when no end is given):
    the same rows, by increasing date. *)
Theorem download_asset_sorted
    (yahoo : Yahoo) (ticker start : string) (end_ : option string) :
  let delivered :=
    yf_download ticker start match end_ with
                             | None => today
                             | Some e => e
                             end in
  Permutation (download_asset ticker start end_) delivered /\
  StronglySorted by_date (download_asset ticker start end_).
Proof.
  unfold download_asset. split; [apply sort_index_perm | apply sort_index_sorted].
Qed.

Lemma diff_from_present prev p prices :
  diff_from prev (present ((fst p, snd p) :: prices)) =
  (fst p, option_map (fun a => snd p - a) prev) ::
  diff_from (Some (snd p)) (present prices).
Proof. simpl. destruct prev; reflexivity. Qed.

Lemma logs_of_present prices :
  Forall (fun tp => 0 < snd tp) prices ->
  map (fun tv => (fst tv, np_log (snd tv))) (present prices) =
  present (map (fun tp => (fst tp, ln (snd tp))) prices).
Proof.
  induction 1 as [|[t p] prices Hp _ IH]; simpl; [reflexivity|].
  simpl in Hp. destruct (Rlt_dec 0 p) as [_|N]; [|contradiction].
  now rewrite IH.
Qed.

Lemma returns_from prev prices :
  0 < prev -> Forall (fun tp => 0 < snd tp) prices ->
  dropna (diff_from (Some (ln prev))
            (present (map (fun tp => (fst tp, ln (snd tp))) prices))) =
  log_ratios_from prev prices.
Proof.
  intros Hprev H. revert prev Hprev.
  induction H as [|[t p] prices Hp _ IH]; intros prev Hprev; simpl; [reflexivity|].
  simpl in Hp. rewrite (IH p Hp). f_equal. f_equal.
  unfold Rdiv. rewrite ln_mult, ln_Rinv by (try assumption; now apply Rinv_0_lt_compat).
  ring.
Qed.

(** X14: on prices that are all present and positive, the log returns
    are the logarithms of the ratios of consecutive prices,
    log(P_t / P_{t-1}), one for each date but the first. *)
Theorem log_returns_are_log_ratios (prices : Series R) :
  Forall (fun tp => 0 < snd tp) prices ->
  compute_log_returns (present prices) = log_ratios prices /\
  index (compute_log_returns (present prices)) = tl (index prices).
Proof.
  intros H.
  assert (E : compute_log_returns (present prices) = log_ratios prices).
  { unfold compute_log_returns, diff. rewrite (logs_of_present H).
    destruct H as [|[t p] prices Hp H]; [reflexivity|]. simpl.
    now apply returns_from. }
  split; [exact E|]. rewrite E.
  destruct prices as [|[t0 p0] prices]; [reflexivity|]. simpl.
  generalize p0. clear. induction prices as [|[t p] prices IH]; intros p0; simpl;
    [reflexivity|]. now rewrite IH.
Qed.

Lemma log_returns_are_log_ratios_witness :
  compute_log_returns (present [(1%Z, 2); (2%Z, 4)]) =
  log_ratios [(1%Z, 2); (2%Z, 4)].
Proof.
  apply (@log_returns_are_log_ratios [(1%Z, 2); (2%Z, 4)]).
  repeat constructor; simpl; lra.
Defined.

Lemma rsum_log_ratios_from prev prices :
  0 < prev -> Forall (fun tp => 0 < snd tp) prices ->
  rsum (values (log_ratios_from prev prices)) =
  ln (snd (last prices (0%Z, prev)) / prev).
Proof.
  intros Hprev H. revert prev Hprev.
  induction H as [|[t p] prices Hp Hall IH]; intros prev Hprev.
  - simpl. unfold Rdiv. rewrite Rinv_r by (intros E; lra). now rewrite ln_1.
  - simpl in Hp.
    change (rsum (values (log_ratios_from prev ((t, p) :: prices))))
      with (ln (p / prev) + rsum (values (log_ratios_from p prices))).
    rewrite (IH p Hp).
    assert (Hl : 0 < snd (last prices (0%Z, p))).
    { destruct prices as [|c prices'] using rev_ind; [exact Hp|].
      rewrite last_last. rewrite Forall_app in Hall. destruct Hall as [_ Hc].
      now inversion Hc. }
    assert (El : snd (last ((t, p) :: prices) (0%Z, prev)) =
                 snd (last prices (0%Z, p))).
    { destruct prices as [|c prices'] using rev_ind; [reflexivity|].
      rewrite app_comm_cons, !last_last. reflexivity. }
    rewrite El. set (z := snd (last prices (0%Z, p))) in *.
    unfold Rdiv.
    rewrite !ln_mult, !ln_Rinv by (try assumption; now apply Rinv_0_lt_compat).
    ring.
Qed.

(** X15: the log returns add up: over prices that are all present and
    positive, the sum of the log returns is the logarithm of the last
    price over the first. *)
Theorem log_returns_telescope (t0 : Timestamp) (p0 : R) (prices : Series R) :
  0 < p0 -> Forall (fun tp => 0 < snd tp) prices ->
  rsum (values (compute_log_returns (present ((t0, p0) :: prices)))) =
  ln (snd (last prices (t0, p0)) / p0).
Proof.
  intros H0 H.
  assert (E : compute_log_returns (present ((t0, p0) :: prices)) = log_ratios ((t0, p0) :: prices)).
  { unfold compute_log_returns, diff.
    rewrite (@logs_of_present ((t0, p0) :: prices)) by (constructor; assumption).
    simpl. now apply returns_from. }
  rewrite E. simpl. rewrite (rsum_log_ratios_from H0 H).
  destruct prices as [|c prices'] using rev_ind; [reflexivity|].
  now rewrite !last_last.
Qed.

Lemma log_returns_telescope_witness :
  rsum (values (compute_log_returns (present [(1%Z, 2); (2%Z, 4); (3%Z, 1)]))) =
  ln (snd (last [(2%Z, 4); (3%Z, 1)] (1%Z, 2)) / 2).
Proof.
  apply (@log_returns_telescope 1%Z 2 [(2%Z, 4); (3%Z, 1)]); [lra|].
  repeat constructor; simpl; lra.
Defined.

Lemma dropna_length s : (List.length (dropna s) <= List.length s)%nat.
Proof.
  induction s as [|[t [v|]] s IH]; simpl; lia.
Qed.

Lemma diff_from_index prev s : index (diff_from prev s) = index s.
Proof.
  revert prev. induction s as [|[t x] s IH]; intros prev; simpl; [reflexivity|].
  now rewrite IH.
Qed.

Lemma diff_from_length prev s : List.length (diff_from prev s) = List.length s.
Proof.
  revert prev. induction s as [|[t x] s IH]; intros prev; simpl; [reflexivity|].
  now rewrite IH.
Qed.

Lemma dropna_dates s t v : In (t, v) (dropna s) -> In t (index s).
Proof.
  intros H. apply dropna_In in H. unfold index. apply in_map_iff.
  now exists (t, Some v).
Qed.

Lemma log_returns_length price_df :
  (List.length (compute_log_returns price_df) <= List.length price_df - 1)%nat.
Proof.
  unfold compute_log_returns, diff.
  destruct price_df as [|[t0 x0] rest]; [simpl; lia|]. simpl.
  pose proof (dropna_length
                (diff_from (np_log x0)
                   (map (fun tv => (fst tv, np_log (snd tv))) rest))) as H.
  rewrite diff_from_length, length_map in H. lia.
Qed.

(** X16: the first day never has a return: the log returns are fewer
    than the prices, and each is at a date of the price frame other
    than the first row's.  Fewer than two prices give no return. *)
Theorem log_returns_skip_first_day (price_df : Series (option R)) :
  (List.length (compute_log_returns price_df) <= List.length price_df - 1)%nat /\
  forall t r, In (t, r) (compute_log_returns price_df) -> In t (tl (index price_df)).
Proof.
  unfold compute_log_returns, diff.
  destruct price_df as [|[t0 x0] rest]; [split; [simpl; lia | intros t r []]|].
  simpl. split.
  - pose proof (dropna_length
                  (diff_from (np_log x0)
                     (map (fun tv => (fst tv, np_log (snd tv))) rest))) as H.
    rewrite diff_from_length, length_map in H. lia.
  - intros t r H. apply dropna_dates in H. rewrite diff_from_index in H.
    unfold index in *. rewrite map_map in H. exact H.
Qed.

Section LoadDataFacts.
Context {yahoo : Yahoo}.

Lemma load_data_run output_dir w :
  load_data output_dir w =
  (Ok (compute_log_returns (download_asset "SPY" "2015-01-01" None),
       compute_log_returns (download_asset "BTC-USD" "2015-01-01" None),
       join_inner (compute_log_returns (download_asset "SPY" "2015-01-01" None))
                  (compute_log_returns (download_asset "BTC-USD" "2015-01-01" None))),
   extend w [Makedirs output_dir; ToCsv output_dir "spx.csv";
             ToCsv output_dir "btc.csv";
             ToCsv output_dir "aligned_returns.csv"]).
Proof.
  unfold load_data, makedirs, to_csv. rewrite !bind_emit, !extend_extend.
  reflexivity.
Qed.

End LoadDataFacts.

(** X17: [load_data] always returns and writes its three tables; the
    aligned table holds a row for a date with the two returns [a] and
    [b] exactly when the SPY returns hold [a] and the BTC returns hold
    [b] at that date. *)
Theorem load_data_aligns_by_date (yahoo : Yahoo) (output_dir : string) (w : World) :
  exists spy_ret btc_ret both,
    load_data output_dir w =
      (Ok (spy_ret, btc_ret, both),
       extend w [Makedirs output_dir; ToCsv output_dir "spx.csv";
                 ToCsv output_dir "btc.csv";
                 ToCsv output_dir "aligned_returns.csv"]) /\
    spy_ret = compute_log_returns (download_asset "SPY" "2015-01-01" None) /\
    btc_ret = compute_log_returns (download_asset "BTC-USD" "2015-01-01" None) /\
    forall t a b,
      In (t, (a, b)) both <-> In (t, a) spy_ret /\ In (t, b) btc_ret.
Proof.
  eexists. eexists. eexists. split; [|split; [reflexivity|split; [reflexivity|] ] ].
  - apply load_data_run.
  - intros t a b. unfold join_inner. rewrite in_flat_map. split.
    + intros ([t1 a1] & Hl & Hin). apply in_map_iff in Hin.
      destruct Hin as ([t2 b2] & Heq & Hf). apply filter_In in Hf.
      destruct Hf as [Hr Hd]. simpl in *. apply Z.eqb_eq in Hd.
      injection Heq as <- <- <-. subst t2. now split.
    + intros [Hl Hr]. exists (t, a). split; [assumption|].
      apply in_map_iff. exists (t, b). split; [reflexivity|].
      apply filter_In. split; [assumption|]. simpl. apply Z.eqb_refl.
Qed.

(** ** main *)

Lemma bind_ok_inv {A B} (m : M A) (k : A -> M B) w b w' :
  bind m k w = (Ok b, w') ->
  exists a w1, m w = (Ok a, w1) /\ k a w1 = (Ok b, w').
Proof.
  unfold bind. destruct (m w) as [[a|e] w1]; [|discriminate].
  intros H. now exists a, w1.
Qed.

Lemma has_full_window_length n s :
  has_full_window n s -> (n <= List.length s)%nat.
Proof.
  intros (before & win & after & -> & Hlen & _). rewrite !length_app. lia.
Qed.

(** A value of the realized volatility stands for a full window of
    returns. *)
Lemma realized_value_needs_window returns window t x :
  In (t, Some x) (realized_volatility returns window) ->
  has_full_window window returns.
Proof.
  intros Hin. destruct (In_nth_error _ _ Hin) as [i Hi].
  destruct (realized_volatility_cell_inv _ _ _ Hi)
    as (s1 & t' & v & s2 & -> & _ & Hc).
  injection Hc as _ Hc.
  destruct (window_sum _ _) as [y|] eqn:Ew; [|discriminate].
  apply window_sum_squares in Ew. destruct Ew as (us & Hus & Hl & _).
  set (full := s1 ++ [(t', v)]).
  assert (Hfull : values full = values s1 ++ [v]).
  { unfold full, values. now rewrite map_app. }
  rewrite <- Hfull in Hl. unfold values in Hl. rewrite lastn_map in Hl.
  exists (firstn (List.length full - window) full), (lastn window full), s2.
  split; [|split].
  - rewrite app_assoc. unfold lastn. rewrite firstn_skipn. unfold full.
    now rewrite <- app_assoc.
  - apply (f_equal (@List.length _)) in Hl. rewrite !length_map in Hl. lia.
  - apply Forall_forall. intros c Hin'.
    assert (Hs : In (snd c) (map Some us)) by (rewrite <- Hl; now apply in_map).
    apply in_map_iff in Hs. destruct Hs as (u & Hu & _). congruence.
Qed.

Lemma evaluate_ok_has_value dfs rv a rd fd w summary w' :
  evaluate_forecasts dfs rv a rd fd w = (Ok summary, w') ->
  exists t v, In (t, Some v) rv.
Proof.
  rewrite evaluate_forecasts_run.
  destruct (pd_concat dfs) as [df|e]; [|discriminate].
  destruct (last_item (values (dropna rv))) as [v|e] eqn:El; [|discriminate].
  intros _. destruct (last_present _ El) as (pre & t & post & -> & _).
  exists t, v. apply in_or_app. right. now left.
Qed.

Lemma emits_ret {A} Q (a : A) : emits Q (ret a).
Proof. intros w; exists []; simpl. rewrite extend_nil. split; [reflexivity | constructor]. Qed.

Lemma emits_raise {A} Q e : emits Q (@raise A e).
Proof. intros w; exists []; simpl. rewrite extend_nil. split; [reflexivity | constructor]. Qed.

Lemma emits_lift {A} Q (r : result A) : emits Q (lift r).
Proof. intros w; exists []; simpl. rewrite extend_nil. split; [reflexivity | constructor]. Qed.

Lemma emits_emit (Q : event -> Prop) ev : Q ev -> emits Q (emit ev).
Proof. intros H w; exists [ev]. split; [reflexivity | now constructor]. Qed.

Lemma emits_bind {A B} Q (m : M A) (k : A -> M B) :
  emits Q m -> (forall a, emits Q (k a)) -> emits Q (bind m k).
Proof.
  intros Hm Hk w. unfold bind. destruct (Hm w) as (evs & Hevs & HQ).
  destruct (m w) as [[a|e] w1]; simpl in Hevs; subst w1.
  - destruct (Hk a (extend w evs)) as (evs' & H' & HQ'). exists (evs ++ evs').
    rewrite H', extend_extend. split; [reflexivity | now apply Forall_app].
  - now exists evs.
Qed.

Lemma emits_for_each {A S} Q (body : A -> S -> M S) xs :
  (forall x acc, emits Q (body x acc)) ->
  forall acc, emits Q (for_each xs body acc).
Proof.
  intros Hb; induction xs as [|x xs IH]; intros acc; simpl.
  - apply emits_ret.
  - apply emits_bind; [apply Hb | intros a; apply IH].
Qed.

Lemma emits_then_bind {A B} Q final (m : M A) (k : A -> M B) :
  emits Q m -> (forall a, emits_then Q final (k a)) ->
  emits_then Q final (bind m k).
Proof.
  intros Hm Hk w. unfold bind. destruct (Hm w) as (evs & Hevs & HQ).
  destruct (m w) as [[a|e] w1]; simpl in Hevs; subst w1.
  - destruct (Hk a (extend w evs)) as (evs' & H' & HQ'). exists (evs ++ evs').
    rewrite H', extend_extend. split; [reflexivity|].
    destruct (fst (k a (extend w evs))).
    + destruct HQ' as (evs0 & -> & H0). exists (evs ++ evs0).
      split; [now rewrite app_assoc | now apply Forall_app].
    + now apply Forall_app.
  - now exists evs.
Qed.

Ltac other_table :=
  let d := fresh in let H := fresh in
  intros [d H]; simpl in H; discriminate H.

Ltac emits_other :=
  first
    [ apply emits_ret | apply emits_raise | apply emits_lift
    | apply emits_emit; other_table ].

Section GarchEvents.
Context {libs : StatsLibs}.
Variable Q : event -> Prop.
Hypothesis Qfit : forall spec y, Q (ArchFit spec y).
Hypothesis Qfig : forall dir file, Q (Savefig dir file).
Hypothesis Qdir : forall path, Q (Makedirs path).

Lemma fit_events spec y : emits Q (fit spec y).
Proof.
  unfold fit. apply emits_bind; [apply emits_emit, Qfit|]. intros _.
  destruct (arch_fit spec y); [apply emits_raise | apply emits_ret].
Qed.

Lemma model_report_events a fd it acc : emits Q (model_report a fd it acc).
Proof.
  destruct it as [name res], acc as [fr cv]. unfold model_report, savefig.
  apply emits_bind; [apply emits_lift|]. intros v.
  apply emits_bind; [apply emits_lift|]. intros d.
  apply emits_bind; [apply emits_emit, Qfig|]. intros _.
  apply emits_bind.
  { unfold ljungbox. destruct (acorr_ljungbox _ _); [apply emits_ret | apply emits_raise]. }
  intros [lb_stat lb_p].
  apply emits_bind; [apply emits_lift|]. intros _.
  apply emits_bind; [apply emits_emit, Qfig|]. intros _. apply emits_ret.
Qed.

Lemma fit_garch_models_events returns a rd fd :
  emits Q (fit_garch_models returns a rd fd).
Proof.
  unfold fit_garch_models, makedirs.
  apply emits_bind; [apply emits_emit, Qdir|]. intros _.
  apply emits_bind; [apply emits_emit, Qdir|]. intros _.
  apply emits_bind; [apply fit_events|]. intros g.
  apply emits_bind; [apply fit_events|]. intros e.
  apply emits_bind; [apply fit_events|]. intros j.
  apply emits_bind; [apply emits_for_each; intros; apply model_report_events|].
  intros [fr cv]. apply emits_ret.
Qed.

End GarchEvents.

Section MainFacts.
Context {libs : StatsLibs} {settings : GaussianHMM.Settings}.

Lemma main_ok_windows spy btc rd fd w out w' :
  main spy btc rd fd w = (Ok out, w') ->
  has_full_window 5 spy /\ has_full_window 5 btc.
Proof.
  unfold main. intros H.
  apply bind_ok_inv in H. destruct H as ([[m1 fc1] cv1] & u1 & _ & H).
  apply bind_ok_inv in H. destruct H as ([[m2 fc2] cv2] & u2 & _ & H).
  apply bind_ok_inv in H. destruct H as (? & u3 & _ & H).
  apply bind_ok_inv in H. destruct H as (? & u4 & _ & H).
  apply bind_ok_inv in H. destruct H as (h1 & u5 & _ & H).
  apply bind_ok_inv in H. destruct H as (h2 & u6 & _ & H).
  apply bind_ok_inv in H. destruct H as (e1 & u7 & E1 & H).
  apply bind_ok_inv in H. destruct H as (e2 & u8 & E2 & _).
  apply evaluate_ok_has_value in E1, E2.
  destruct E1 as (t1 & v1 & I1), E2 as (t2 & v2 & I2).
  split; eapply realized_value_needs_window; eassumption.
Qed.

Lemma emits_fit_garch_models returns a rd fd :
  emits other_table (fit_garch_models returns a rd fd).
Proof. apply fit_garch_models_events; intros; other_table. Qed.

Lemma emits_plot a cv rv fd :
  emits other_table (plot_conditional_vol_vs_realized a cv rv fd).
Proof.
  unfold plot_conditional_vol_vs_realized, makedirs, savefig.
  apply emits_bind; [emits_other|]. intros _. emits_other.
Qed.

Lemma emits_fit_hmm_regimes returns n a rd fd :
  emits other_table (fit_hmm_regimes returns n a rd fd).
Proof.
  intros w. rewrite fit_hmm_regimes_run.
  destruct (raw_features returns) as [|x raw].
  { eexists. split; [reflexivity|]. repeat (constructor; [other_table|]). constructor. }
  cbv zeta.
  assert (H4 : Forall other_table
                 [Makedirs rd; Makedirs fd; ScalerFit (x :: raw);
                  HmmFit n (scaled_features returns)]).
  { repeat (constructor; [other_table|]). constructor. }
  destruct (n <? 1)%nat; [eexists; split; [reflexivity | exact H4] |].
  destruct (List.length _ <? n)%nat; [eexists; split; [reflexivity | exact H4] |].
  destruct (GaussianHMM.em_loop _ _ _ _) as [fitted|e];
    [|eexists; split; [reflexivity | exact H4] ].
  destruct (GaussianHMM.predict _ _) as [hs|e];
    [|eexists; split; [reflexivity | exact H4] ].
  destruct (GaussianHMM.predict_proba _ _) as [pp|e];
    [|eexists; split; [reflexivity | exact H4] ].
  eexists. rewrite extend_extend. split; [reflexivity|].
  apply Forall_app. split; [exact H4|].
  repeat (constructor; [other_table|]). constructor.
Qed.

Lemma emits_evaluate_forecasts dfs rv a rd fd :
  a = "SPY" \/ a = "BTC" ->
  emits other_table (evaluate_forecasts dfs rv a rd fd).
Proof.
  intros Ha w. rewrite evaluate_forecasts_run.
  assert (H2 : Forall other_table [Makedirs rd; Makedirs fd]).
  { repeat (constructor; [other_table|]). constructor. }
  destruct (pd_concat dfs) as [df|e]; [|eexists; split; [reflexivity | exact H2] ].
  destruct (last_item _) as [v|e]; [|eexists; split; [reflexivity | exact H2] ].
  eexists. split; [reflexivity|].
  destruct Ha as [-> | ->]; repeat (constructor; [other_table|]); constructor.
Qed.

Lemma main_emits spy btc rd fd :
  emits_then other_table (ToCsv rd "forecasts.csv") (main spy btc rd fd).
Proof.
  unfold main.
  apply emits_then_bind; [apply emits_fit_garch_models|]. intros [[m1 fc1] cv1].
  apply emits_then_bind; [apply emits_fit_garch_models|]. intros [[m2 fc2] cv2].
  apply emits_then_bind; [apply emits_plot|]. intros _.
  apply emits_then_bind; [apply emits_plot|]. intros _.
  apply emits_then_bind; [apply emits_fit_hmm_regimes|]. intros h1.
  apply emits_then_bind; [apply emits_fit_hmm_regimes|]. intros h2.
  apply emits_then_bind; [apply emits_evaluate_forecasts; now left|]. intros e1.
  apply emits_then_bind; [apply emits_evaluate_forecasts; now right|]. intros e2.
  intros w. exists [ToCsv rd "forecasts.csv"]. split; [reflexivity|].
  simpl. exists []. split; [reflexivity | constructor].
Qed.

End MainFacts.

(** ** Failing fits and short series *)

Section ShortSeries.
Context {libs : StatsLibs}.

Lemma attempts_none y tried :
  attempts variants y = (tried, None) ->
  tried = variants /\
  exists g e j, arch_fit garch11_spec y = inr g /\ arch_fit egarch_spec y = inr e /\
                arch_fit gjr_spec y = inr j.
Proof.
  unfold variants, attempts.
  destruct (arch_fit garch11_spec y) as [?|g]; [discriminate|].
  destruct (arch_fit egarch_spec y) as [?|e]; [discriminate|].
  destruct (arch_fit gjr_spec y) as [?|j]; [discriminate|].
  intros H; injection H as <-. split; [reflexivity|]. now exists g, e, j.
Qed.

(** After the two directories, the fits up to the first failure are
    started on the cleaned series times 100; what follows is figures. *)
Lemma fit_garch_models_trace returns a rd fd w :
  exists figures,
    snd (fit_garch_models returns a rd fd w) =
      extend w ([Makedirs rd; Makedirs fd] ++
                map (fun spec => ArchFit spec (scale 100 (dropna returns)))
                  (fst (attempts variants (scale 100 (dropna returns)))) ++ figures) /\
    Forall is_savefig figures.
Proof.
  destruct (attempts variants (scale 100 (dropna returns))) as [tried [f|]] eqn:Ea.
  - exists []. rewrite (fit_garch_models_failure returns a rd fd w Ea).
    simpl fst. simpl snd. rewrite app_nil_r. split; [reflexivity | constructor].
  - destruct (attempts_none _ Ea) as (-> & g & e & j & Hg & He & Hj).
    rewrite (fit_garch_models_after_fits returns a rd fd w Hg He Hj).
    match goal with |- context [for_each ?l ?b ?acc ?w1] =>
      destruct (@emits_for_each _ _ is_savefig b l
                  (fun x acc0 => @model_report_events libs is_savefig
                                   (fun _ _ => I) a fd x acc0) acc w1)
        as (figs & Hw & Hfigs);
      destruct (for_each l b acc w1) as [[[fr cv]|err] w'] eqn:E
    end; simpl in Hw; subst w'; exists figs; simpl fst; simpl snd;
      rewrite extend_extend; split; (reflexivity || assumption).
Qed.

(** The series enters the outcome only through the answers of the three
    fits: its length plays no part. *)
Lemma fit_garch_models_same_answers r1 r2 a rd fd w1 w2 :
  (forall spec, In spec variants ->
     arch_fit spec (scale 100 (dropna r1)) = arch_fit spec (scale 100 (dropna r2))) ->
  fst (fit_garch_models r1 a rd fd w1) = fst (fit_garch_models r2 a rd fd w2).
Proof.
  intros Hsame.
  assert (Hg := Hsame garch11_spec (or_introl eq_refl)).
  assert (He := Hsame egarch_spec (or_intror (or_introl eq_refl))).
  assert (Hj := Hsame gjr_spec (or_intror (or_intror (or_introl eq_refl)))).
  assert (Ha : attempts variants (scale 100 (dropna r1)) =
               attempts variants (scale 100 (dropna r2))).
  { unfold variants, attempts. now rewrite Hg, He, Hj. }
  destruct (attempts variants (scale 100 (dropna r2))) as [tried [f|]] eqn:Ea.
  - rewrite (fit_garch_models_failure r1 a rd fd w1 Ha).
    now rewrite (fit_garch_models_failure r2 a rd fd w2 Ea).
  - destruct (attempts_none _ Ea) as (_ & g & e & j & Hg2 & He2 & Hj2).
    rewrite Hg2 in Hg. rewrite He2 in He. rewrite Hj2 in Hj.
    rewrite (fit_garch_models_after_fits r1 a rd fd w1 Hg He Hj).
    rewrite (fit_garch_models_after_fits r2 a rd fd w2 Hg2 He2 Hj2).
    destruct (@independent_for_each _ _ (model_report a fd)
                [("GARCH11", g); ("EGARCH", e); ("GJRGARCH", j)]
                (fun x acc => independent_model_report a fd x acc) ([], []))
      as [r Hr].
    match goal with |- fst (match ?m1 with _ => _ end) = fst (match ?m2 with _ => _ end) =>
      assert (H12 : fst m1 = fst m2) by (rewrite Hr, Hr; reflexivity);
      destruct m1 as [[[fr1 cv1]|e1] u1]; destruct m2 as [[[fr2 cv2]|e2] u2]
    end; simpl in H12; try discriminate H12; now inversion H12.
Qed.

End ShortSeries.

(** C3, amended: [fit_garch_models] checks no length and never raises
    DataError (nor ConfigError).  Whatever the length of the series, so
    also when it is shorter than the ten lags: the fits are started on
    the cleaned series times 100, in the order of the source, up to the
    first that fails, and nothing follows them but figures; the call
    returns exactly when each of the three fits succeeds and its result
    can be reported, where the Ljung-Box call is made with [lags=[10]]
    on whatever standardized residuals the fit has; the outcome is that
    of any other series on which the three fits answer the same; and
    what is raised is the failure of a fit (ConvergenceError,
    NumericalError) or what the indexing and the Ljung-Box call raise
    (IndexError, ValueError). *)
Theorem fit_garch_models_never_raises_DataError
    (libs : StatsLibs) (returns : Series (option R)) (asset_name rd fd : string)
    (w : World) :
  let y := scale 100 (dropna returns) in
  fst (fit_garch_models returns asset_name rd fd w) <> Raise DataError /\
  fst (fit_garch_models returns asset_name rd fd w) <> Raise ConfigError /\
  (exists figures,
     snd (fit_garch_models returns asset_name rd fd w) =
       extend w ([Makedirs rd; Makedirs fd] ++
                 map (fun spec => ArchFit spec y) (fst (attempts variants y)) ++
                 figures) /\
     Forall is_savefig figures) /\
  ((exists out w', fit_garch_models returns asset_name rd fd w = (Ok out, w')) <->
   (forall spec, In spec variants ->
      exists res,
        arch_fit spec y = inr res /\
        (exists var_fcast,
           last_row_item (forecast_variance res 1 false) 0 = Ok var_fcast) /\
        conditional_volatility res <> [] /\
        exists lb_stat p0 lb_p,
          acorr_ljungbox (values (dropna (std_resid res))) [10%nat] =
            Some (lb_stat, p0 :: lb_p))) /\
  (forall (other : Series (option R)) (w2 : World),
     (forall spec, In spec variants ->
        arch_fit spec (scale 100 (dropna other)) = arch_fit spec y) ->
     fst (fit_garch_models other asset_name rd fd w2) =
     fst (fit_garch_models returns asset_name rd fd w)) /\
  forall e, fst (fit_garch_models returns asset_name rd fd w) = Raise e ->
            e = ConvergenceError \/ e = NumericalError \/
            e = IndexError \/ e = ValueError.
Proof.
  intros y.
  assert (H : forall e, fst (fit_garch_models returns asset_name rd fd w) = Raise e ->
                        garch_exn e).
  { intros e He. destruct (fit_garch_models returns asset_name rd fd w) as [r w'] eqn:E.
    simpl in He; subst r.
    exact (fit_garch_models_raises returns asset_name rd fd w E). }
  split; [|split; [|split; [|split; [|split; [|exact H] ] ] ] ].
  - intros He. destruct (H _ He) as [X|[X|[X|X]]]; discriminate X.
  - intros He. destruct (H _ He) as [X|[X|[X|X]]]; discriminate X.
  - apply fit_garch_models_trace.
  - split.
    + intros (out & w' & H0). exact (returned_fits_are_reportable _ _ _ _ _ H0).
    + apply reportable_fits_return.
  - intros other w2 Hsame. now apply fit_garch_models_same_answers.
Qed.

Lemma egarch_fails_on_one_day_attempts :
  attempts (libs := egarch_fails_on_one_day) variants (scale 100 (dropna one_day)) =
  ([garch11_spec; egarch_spec], Some NotConverged).
Proof. reflexivity. Qed.

(** C1, amended: when the fit of a GARCH variant fails, [fit_garch_models]
    raises the failure of the first failing variant (ConvergenceError or
    NumericalError) to its caller.  The variants before it were fit, the
    variants after it are never started, nothing but the two directories
    is written, and no result is returned.  [main] stops with the same
    exception in the same world, whether the failing call is its first,
    for SPY, or its second, for BTC, after the call for SPY has
    returned; wherever the failing series stands, [main] raises before
    the scaler or the HMM fit of any asset is started. *)
Theorem failed_fit_aborts_fit_garch_models
    (libs : StatsLibs) (settings : GaussianHMM.Settings)
    (returns other : Series (option R)) (asset_name rd fd : string) (w : World)
    (tried : list ArchSpec) (f : fit_failure) :
  attempts variants (scale 100 (dropna returns)) = (tried, Some f) ->
  let y := scale 100 (dropna returns) in
  let stopped := fun w0 : World =>
    extend w0 ([Makedirs rd; Makedirs fd] ++ map (fun spec => ArchFit spec y) tried) in
  fit_garch_models returns asset_name rd fd w = (Raise (exn_of_failure f), stopped w) /\
  (exn_of_failure f = ConvergenceError \/ exn_of_failure f = NumericalError) /\
  (exists before spec later,
     tried = before ++ [spec] /\ variants = tried ++ later /\
     arch_fit spec y = inl f /\
     Forall (fun s => exists res, arch_fit s y = inr res) before) /\
  main returns other rd fd w = (Raise (exn_of_failure f), stopped w) /\
  (forall out w1,
     fit_garch_models other "SPY" rd fd w = (Ok out, w1) ->
     main other returns rd fd w = (Raise (exn_of_failure f), stopped w1)) /\
  (forall spy_ret btc_ret,
     spy_ret = returns \/ btc_ret = returns ->
     exists e evs,
       main spy_ret btc_ret rd fd w = (Raise e, extend w evs) /\
       Forall (fun ev => ~ is_regime_fit ev) evs).
Proof.
  intros H y stopped.
  assert (Hspy : forall btc_ret,
            main returns btc_ret rd fd w = (Raise (exn_of_failure f), stopped w)).
  { intros btc_ret. unfold main. apply bind_raise.
    exact (fit_garch_models_failure returns "SPY" rd fd w H). }
  assert (Hbtc : forall spy_ret out w1,
            fit_garch_models spy_ret "SPY" rd fd w = (Ok out, w1) ->
            main spy_ret returns rd fd w = (Raise (exn_of_failure f), stopped w1)).
  { intros spy_ret [[m1 fc1] cv1] w1 E. unfold main.
    rewrite (bind_ok _ _ _ E). apply bind_raise.
    exact (fit_garch_models_failure returns "BTC" rd fd w1 H). }
  assert (Hno : Forall (fun ev => ~ is_regime_fit ev)
                  ([Makedirs rd; Makedirs fd] ++ map (fun spec => ArchFit spec y) tried)).
  { apply Forall_app. split.
    - repeat (constructor; [simpl; tauto|]). constructor.
    - apply Forall_forall. intros ev Hev. apply in_map_iff in Hev.
      destruct Hev as (spec & <- & _). simpl; tauto. }
  split; [exact (fit_garch_models_failure returns asset_name rd fd w H)|].
  split; [destruct f; simpl; auto|].
  split; [exact (attempts_failure _ _ H)|].
  split; [apply Hspy|]. split; [exact (Hbtc other)|].
  intros spy_ret btc_ret [-> | ->].
  - exists (exn_of_failure f). eexists. split; [apply Hspy | exact Hno].
  - destruct (@fit_garch_models_events libs (fun ev => ~ is_regime_fit ev)
                (fun _ _ H0 => H0) (fun _ _ H0 => H0) (fun _ H0 => H0)
                spy_ret "SPY" rd fd w) as (evs1 & Hw1 & Hevs1).
    destruct (fit_garch_models spy_ret "SPY" rd fd w) as [[out|e] w1] eqn:E;
      simpl in Hw1; subst w1.
    + exists (exn_of_failure f). eexists. split.
      * rewrite (Hbtc _ _ _ E). unfold stopped. now rewrite extend_extend.
      * apply Forall_app. split; [exact Hevs1 | exact Hno].
    + exists e, evs1. split; [|exact Hevs1].
      unfold main. now apply bind_raise.
Qed.

Lemma spy_fits_on_one_day_failure :
  fit_garch_models (libs := egarch_fails_on_one_day) sample_returns
    "SPY" "results" "figs" w0 =
  (Ok ([("GARCH11", sample_result); ("EGARCH", sample_result);
        ("GJRGARCH", sample_result)],
       [sample_record "GARCH11"; sample_record "EGARCH"; sample_record "GJRGARCH"],
       [("GARCH11", conditional_volatility sample_result);
        ("EGARCH", conditional_volatility sample_result);
        ("GJRGARCH", conditional_volatility sample_result)]),
   extend w0
     [Makedirs "results"; Makedirs "figs";
      ArchFit garch11_spec sample_y; ArchFit egarch_spec sample_y;
      ArchFit gjr_spec sample_y;
      Savefig "figs" "SPY_GARCH11_volatility.png";
      Savefig "figs" "SPY_GARCH11_qqplot.png";
      Savefig "figs" "SPY_EGARCH_volatility.png";
      Savefig "figs" "SPY_EGARCH_qqplot.png";
      Savefig "figs" "SPY_GJRGARCH_volatility.png";
      Savefig "figs" "SPY_GJRGARCH_qqplot.png"]).
Proof. reflexivity. Qed.

Lemma failed_fit_aborts_witness :
  main (libs := egarch_fails_on_one_day) (settings := sample_settings)
       sample_returns one_day "results" "figs" w0 =
    (Raise ConvergenceError,
     extend w0
       [Makedirs "results"; Makedirs "figs";
        ArchFit garch11_spec sample_y; ArchFit egarch_spec sample_y;
        ArchFit gjr_spec sample_y;
        Savefig "figs" "SPY_GARCH11_volatility.png";
        Savefig "figs" "SPY_GARCH11_qqplot.png";
        Savefig "figs" "SPY_EGARCH_volatility.png";
        Savefig "figs" "SPY_EGARCH_qqplot.png";
        Savefig "figs" "SPY_GJRGARCH_volatility.png";
        Savefig "figs" "SPY_GJRGARCH_qqplot.png";
        Makedirs "results"; Makedirs "figs";
        ArchFit garch11_spec (scale 100 (dropna one_day));
        ArchFit egarch_spec (scale 100 (dropna one_day))]).
Proof.
  exact (proj1 (proj2 (proj2 (proj2 (proj2
           (@failed_fit_aborts_fit_garch_models
              egarch_fails_on_one_day sample_settings one_day sample_returns
              "BTC" "results" "figs" w0 _ _
              egarch_fails_on_one_day_attempts))))) _ _
           spy_fits_on_one_day_failure).
Defined.


(** X18: [main] can only return when each asset has five days in a row
    that all have a return: if one of the two series has no such
    window (for instance because it is shorter than five days), [main]
    raises. *)
Theorem main_needs_five_day_windows
    (libs : StatsLibs) (settings : GaussianHMM.Settings)
    (spy_ret btc_ret : Series (option R)) (rd fd : string) (w : World) :
  ~ has_full_window 5 spy_ret \/ ~ has_full_window 5 btc_ret ->
  exists e, fst (main spy_ret btc_ret rd fd w) = Raise e.
Proof.
  intros Hno. destruct (main spy_ret btc_ret rd fd w) as [[out|e] w'] eqn:E.
  - exfalso. destruct (main_ok_windows _ _ _ _ _ E) as [H1 H2]. tauto.
  - now exists e.
Qed.

Lemma main_needs_five_day_windows_witness :
  exists e, fst (main (libs := all_fit) (settings := sample_settings)
                   sample_returns sample_returns "results" "figs" w0) = Raise e.
Proof.
  apply (@main_needs_five_day_windows all_fit sample_settings sample_returns
           sample_returns "results" "figs" w0).
  left. intros H. apply has_full_window_length in H. simpl in H. lia.
Defined.

Lemma present_length s : List.length (present s) = List.length s.
Proof. unfold present. apply length_map. Qed.

(** X19: the whole program needs six closes per asset: when yfinance
    delivers fewer than six rows for SPY or for BTC-USD, [main] raises
    after [load_data] has written its tables. *)
Theorem main_from_load_data_needs_six_closes
    (yahoo : Yahoo) (libs : StatsLibs) (settings : GaussianHMM.Settings)
    (DATA_DIR RESULTS_DIR FIGS_DIR : string) (w : World) :
  (List.length (yf_download "SPY" "2015-01-01" today) < 6)%nat \/
  (List.length (yf_download "BTC-USD" "2015-01-01" today) < 6)%nat ->
  exists e,
    fst (main_from_load_data DATA_DIR RESULTS_DIR FIGS_DIR w) = Raise e /\
    exists rest,
      snd (main_from_load_data DATA_DIR RESULTS_DIR FIGS_DIR w) =
      extend w ([Makedirs DATA_DIR; ToCsv DATA_DIR "spx.csv";
                 ToCsv DATA_DIR "btc.csv";
                 ToCsv DATA_DIR "aligned_returns.csv"] ++ rest).
Proof.
  intros Hfew. unfold main_from_load_data.
  rewrite (bind_ok _ _ _ (load_data_run DATA_DIR w)).
  set (spy := compute_log_returns (download_asset "SPY" "2015-01-01" None)) in *.
  set (btc := compute_log_returns (download_asset "BTC-USD" "2015-01-01" None)) in *.
  assert (Hlen : forall ticker,
            (List.length (yf_download ticker "2015-01-01" today) < 6)%nat ->
            ~ has_full_window 5
                (present (compute_log_returns (download_asset ticker "2015-01-01" None)))).
  { intros ticker Hl Hw. apply has_full_window_length in Hw.
    rewrite present_length in Hw.
    pose proof (log_returns_length (download_asset ticker "2015-01-01" None)) as Hb.
    unfold download_asset in Hb at 2.
    rewrite (Permutation_length (sort_index_perm _)) in Hb. lia. }
  assert (Hno : ~ has_full_window 5 (present spy) \/ ~ has_full_window 5 (present btc)).
  { destruct Hfew as [H|H]; [left | right]; now apply Hlen. }
  destruct (main (present spy) (present btc) RESULTS_DIR FIGS_DIR _)
    as [[out|e] w'] eqn:E.
  - exfalso. destruct (main_ok_windows _ _ _ _ _ E) as [H1 H2]. tauto.
  - exists e. split; [reflexivity|].
    destruct (main_emits (present spy) (present btc) RESULTS_DIR FIGS_DIR
                (extend w [Makedirs DATA_DIR; ToCsv DATA_DIR "spx.csv";
                           ToCsv DATA_DIR "btc.csv";
                           ToCsv DATA_DIR "aligned_returns.csv"])) as (evs & Hevs & _).
    rewrite E in Hevs. simpl in Hevs. exists evs. simpl.
    now rewrite Hevs, extend_extend.
Qed.

(** X20: [main] writes the combined table [forecasts.csv] only when
    every step before it has succeeded, and it is then the last thing
    written: a run that returns ends on it and has written it once; a
    run that raises has not written it. *)
Theorem combined_table_only_on_success
    (libs : StatsLibs) (settings : GaussianHMM.Settings)
    (spy_ret btc_ret : Series (option R)) (rd fd : string) (w : World) :
  exists evs,
    snd (main spy_ret btc_ret rd fd w) = extend w evs /\
    match fst (main spy_ret btc_ret rd fd w) with
    | Ok _ =>
        exists evs0,
          evs = evs0 ++ [ToCsv rd "forecasts.csv"] /\
          Forall (fun ev => ~ is_combined_table ev) evs0
    | Raise _ => Forall (fun ev => ~ is_combined_table ev) evs
    end.
Proof. exact (main_emits spy_ret btc_ret rd fd w). Qed.

Lemma main_from_load_data_needs_six_closes_witness :
  exists e,
    fst (main_from_load_data (yahoo := sample_yahoo) (libs := all_fit)
           (settings := sample_settings) "data" "results" "figs" w0) = Raise e /\
    exists rest,
      snd (main_from_load_data (yahoo := sample_yahoo) (libs := all_fit)
             (settings := sample_settings) "data" "results" "figs" w0) =
      extend w0 ([Makedirs "data"; ToCsv "data" "spx.csv"; ToCsv "data" "btc.csv";
                  ToCsv "data" "aligned_returns.csv"] ++ rest).
Proof.
  apply (@main_from_load_data_needs_six_closes sample_yahoo all_fit sample_settings
           "data" "results" "figs" w0).
  left. simpl. lia.
Defined.

(** X21: [fit_hmm_regimes] saves its three figures only when it
    returns, after the scaler and the HMM fit; a run that raises has
    saved no figure. *)
Theorem regime_figures_only_on_success
    (settings : GaussianHMM.Settings) (returns : Series (option R)) (n_states : nat)
    (asset_name rd fd : string) (w : World) :
  match fit_hmm_regimes returns n_states asset_name rd fd w with
  | (Ok _, w') =>
      w' = extend w [Makedirs rd; Makedirs fd;
                     ScalerFit (raw_features returns);
                     HmmFit n_states (scaled_features returns);
                     Savefig fd (asset_name +++ "_regime_probs.png");
                     Savefig fd (asset_name +++ "_regime_scatter.png");
                     Savefig fd (asset_name +++ "_transition_matrix.png")]
  | (Raise _, w') =>
      exists evs, w' = extend w evs /\ Forall (fun ev => ~ is_savefig ev) evs
  end.
Proof.
  rewrite fit_hmm_regimes_run.
  destruct (raw_features returns) as [|x raw].
  { eexists. split; [reflexivity|]. repeat (constructor; [simpl; tauto|]). constructor. }
  cbv zeta.
  assert (H4 : Forall (fun ev => ~ is_savefig ev)
                 [Makedirs rd; Makedirs fd; ScalerFit (x :: raw);
                  HmmFit n_states (scaled_features returns)]).
  { repeat (constructor; [simpl; tauto|]). constructor. }
  destruct (n_states <? 1)%nat; [eexists; split; [reflexivity | exact H4] |].
  destruct (List.length _ <? n_states)%nat; [eexists; split; [reflexivity | exact H4] |].
  destruct (GaussianHMM.em_loop _ _ _ _) as [fitted|e];
    [|eexists; split; [reflexivity | exact H4] ].
  destruct (GaussianHMM.predict _ _) as [hs|e];
    [|eexists; split; [reflexivity | exact H4] ].
  destruct (GaussianHMM.predict_proba _ _) as [pp|e];
    [|eexists; split; [reflexivity | exact H4] ].
  now rewrite extend_extend.
Qed.
